(** * The deduction engine of the Cluedo toolbox

    A shallow embedding of [internal/ai] (the brain, its strategies and its
    choosers), of the parts of [internal/config] and [internal/events] the
    brain reads, and the properties of the engine stated over it.

    Go maps are finite maps ([gmap]) and Go sets ([map[string]struct{}]) are
    finite sets ([gset]); a read of an absent key gives the zero value, a
    write into an absent row of the knowledge grid is the run-time panic of
    an assignment into a nil map.  The brain is a record that is threaded
    through a small monad with state, panic and the lines handed to the
    injected logger. *)

From stdpp Require Import gmap strings list fin_maps fin_sets sorting.
From Stdlib Require Import OrdersEx.

Open Scope string_scope.
Open Scope list_scope.
Open Scope nat_scope.

(** ** Strings in Go's order

    [sort.Strings] and [<] on strings compare byte by byte. *)

Definition string_le (a b : string) : Prop := String_as_OT.compare a b ≠ Gt.

#[global] Instance string_le_dec : RelDecision string_le.
Proof. intros a b. unfold string_le. apply _. Defined.

Definition sort_Strings (l : list string) : list string := merge_sort string_le l.

(** ** internal/config *)

Inductive CardCategory : Set :=
  | CategorySuspect
  | CategoryWeapon
  | CategoryRoom.

#[global] Instance CardCategory_eq_dec : EqDecision CardCategory.
Proof. solve_decision. Defined.

Definition CardCategory_to_nat (c : CardCategory) : nat :=
  match c with CategorySuspect => 0 | CategoryWeapon => 1 | CategoryRoom => 2 end.

Definition CardCategory_of_nat (n : nat) : option CardCategory :=
  match n with
  | 0 => Some CategorySuspect
  | 1 => Some CategoryWeapon
  | 2 => Some CategoryRoom
  | _ => None
  end.

#[global] Instance CardCategory_countable : Countable CardCategory.
Proof.
  apply (inj_countable CardCategory_to_nat CardCategory_of_nat).
  by intros [].
Defined.

Record GameConfig : Type := {
  Suspects : list string;
  Weapons : list string;
  Rooms : list string;
  AllCards : list string;
  CardToType : gmap string CardCategory
}.

(** One iteration of the three loops of [Load]: the card is appended to
    [AllCards] and entered in [CardToType]. *)
Definition register (cat : CardCategory)
    (acc : list string * gmap string CardCategory) (card : string)
    : list string * gmap string CardCategory :=
  (acc.1 ++ [card], <[card := cat]> acc.2).

(** [Load] after the file is read and parsed: the three lists of the JSON
    document are sorted and the derived fields are built. *)
Definition Load (suspects weapons rooms : list string) : GameConfig :=
  let s := sort_Strings suspects in
  let w := sort_Strings weapons in
  let r := sort_Strings rooms in
  let acc :=
    foldl (register CategoryRoom)
      (foldl (register CategoryWeapon)
         (foldl (register CategorySuspect) ([], ∅) s) w) r in
  {| Suspects := s; Weapons := w; Rooms := r;
     AllCards := acc.1; CardToType := acc.2 |}.

Definition CardListForCategory (c : GameConfig) (cat : CardCategory) : list string :=
  match cat with
  | CategorySuspect => Suspects c
  | CategoryWeapon => Weapons c
  | CategoryRoom => Rooms c
  end.

(** The slice of a category is handed out by reference; a callee that sorts
    it in place changes the configuration. *)
Definition set_CardListForCategory (cat : CardCategory) (l : list string)
    (c : GameConfig) : GameConfig :=
  match cat with
  | CategorySuspect =>
      {| Suspects := l; Weapons := Weapons c; Rooms := Rooms c;
         AllCards := AllCards c; CardToType := CardToType c |}
  | CategoryWeapon =>
      {| Suspects := Suspects c; Weapons := l; Rooms := Rooms c;
         AllCards := AllCards c; CardToType := CardToType c |}
  | CategoryRoom =>
      {| Suspects := Suspects c; Weapons := Weapons c; Rooms := l;
         AllCards := AllCards c; CardToType := CardToType c |}
  end.

Definition categories : list CardCategory :=
  [CategorySuspect; CategoryWeapon; CategoryRoom].

(** ** internal/events *)

Record TurnResolvedEvent : Type := {
  SuggesterName : string;
  Suggestion : gmap CardCategory string;
  DisproverName : string;
  RevealedCard : string
}.

(** The events a listener can be handed; the brain reacts to one of them. *)
Inductive Event : Type :=
  | TurnResolved (e : TurnResolvedEvent)
  | OtherEvent.

(** ** internal/ai: the state of the brain *)

Inductive CardStatus : Set :=
  | StatusMaybe
  | StatusYes
  | StatusNo.

#[global] Instance CardStatus_eq_dec : EqDecision CardStatus.
Proof. solve_decision. Defined.

Record UnresolvedSuggestion : Type := {
  Disprover : string;
  PossibleCards : gset string
}.

Record StringDeque : Type := {
  deque_elements : list string;
  maxSize : nat
}.

Definition NewStringDeque (n : nat) : StringDeque :=
  {| deque_elements := []; maxSize := n |}.

Definition Push (s : string) (d : StringDeque) : StringDeque :=
  let els := deque_elements d ++ [s] in
  {| deque_elements := if decide (maxSize d < length els) then drop 1 els else els;
     maxSize := maxSize d |}.

Definition Contains (d : StringDeque) (s : string) : bool :=
  bool_decide (s ∈ deque_elements d).

Inductive Chooser : Set :=
  | RandomChooser
  | DeterministicChooser.

(** The random source ([*rand.Rand]) is the sequence of raw values it is
    going to produce; [Intn n] consumes one of them. *)
Definition Rand : Type := list nat.

Definition Intn (n : nat) (r : Rand) : nat * Rand :=
  (hd 0 r `mod` n, tl r).

Record AdvancedAIBrain : Type := {
  name : string;
  config : GameConfig;
  players : list string;
  hand : gset string;
  knowledge : gmap string (gmap string CardStatus);
  unresolvedSuggestions : list UnresolvedSuggestion;
  recentSurgicalTargets : StringDeque;
  chooser : Chooser;
  rand : Rand
}.

Definition set_config (c : GameConfig) (ai : AdvancedAIBrain) : AdvancedAIBrain :=
  {| name := name ai; config := c; players := players ai; hand := hand ai;
     knowledge := knowledge ai;
     unresolvedSuggestions := unresolvedSuggestions ai;
     recentSurgicalTargets := recentSurgicalTargets ai;
     chooser := chooser ai; rand := rand ai |}.

Definition set_hand (h : gset string) (ai : AdvancedAIBrain) : AdvancedAIBrain :=
  {| name := name ai; config := config ai; players := players ai; hand := h;
     knowledge := knowledge ai;
     unresolvedSuggestions := unresolvedSuggestions ai;
     recentSurgicalTargets := recentSurgicalTargets ai;
     chooser := chooser ai; rand := rand ai |}.

Definition set_knowledge (k : gmap string (gmap string CardStatus))
    (ai : AdvancedAIBrain) : AdvancedAIBrain :=
  {| name := name ai; config := config ai; players := players ai;
     hand := hand ai; knowledge := k;
     unresolvedSuggestions := unresolvedSuggestions ai;
     recentSurgicalTargets := recentSurgicalTargets ai;
     chooser := chooser ai; rand := rand ai |}.

Definition set_unresolvedSuggestions (u : list UnresolvedSuggestion)
    (ai : AdvancedAIBrain) : AdvancedAIBrain :=
  {| name := name ai; config := config ai; players := players ai;
     hand := hand ai; knowledge := knowledge ai;
     unresolvedSuggestions := u;
     recentSurgicalTargets := recentSurgicalTargets ai;
     chooser := chooser ai; rand := rand ai |}.

Definition set_recentSurgicalTargets (d : StringDeque)
    (ai : AdvancedAIBrain) : AdvancedAIBrain :=
  {| name := name ai; config := config ai; players := players ai;
     hand := hand ai; knowledge := knowledge ai;
     unresolvedSuggestions := unresolvedSuggestions ai;
     recentSurgicalTargets := d;
     chooser := chooser ai; rand := rand ai |}.

Definition set_chooser (c : Chooser) (ai : AdvancedAIBrain) : AdvancedAIBrain :=
  {| name := name ai; config := config ai; players := players ai;
     hand := hand ai; knowledge := knowledge ai;
     unresolvedSuggestions := unresolvedSuggestions ai;
     recentSurgicalTargets := recentSurgicalTargets ai;
     chooser := c; rand := rand ai |}.

Definition set_rand (r : Rand) (ai : AdvancedAIBrain) : AdvancedAIBrain :=
  {| name := name ai; config := config ai; players := players ai;
     hand := hand ai; knowledge := knowledge ai;
     unresolvedSuggestions := unresolvedSuggestions ai;
     recentSurgicalTargets := recentSurgicalTargets ai;
     chooser := chooser ai; rand := r |}.

(** [ai.knowledge[card][loc]]: an absent row or an absent entry reads as the
    zero value, [StatusMaybe]. *)
Definition status (k : gmap string (gmap string CardStatus))
    (card loc : string) : CardStatus :=
  default StatusMaybe (k !! card ≫= (.!! loc)).

(** The closed set of locations, as [_markCardLocation] and
    [_deduceCardLocationsByElimination] build it. *)
Definition allLocations (ps : list string) : list string := ps ++ ["solution"].

(** ** The lines handed to the logger, one constructor per call site *)

Inductive LogEntry : Type :=
  | DebugInitialized
  | InfoNotDisproved
  | InfoNoted (disprover : string) (cards : list string)
  | DebugFormulating
  | DebugFinalizing
  | ErrorInvalidCard (card : string)
  | DebugLearned (card location : string)
  | DebugPruning (disprover : string) (cards : list string)
  | InfoSolved (disprover card : string)
  | InfoExploit (known : nat)
  | InfoSurgicalStrike (me target : string)
  | InfoExplore.

(** ** The monad of the methods of the brain *)

Inductive Res (A : Type) : Type :=
  | Panic
  | Ok (a : A) (ai : AdvancedAIBrain) (out : list LogEntry).
Arguments Panic {A}.
Arguments Ok {A} a ai out.

Definition M (A : Type) : Type := AdvancedAIBrain → Res A.

Definition ret {A} (a : A) : M A := λ ai, Ok a ai [].

Definition bind {A B} (m : M A) (f : A → M B) : M B := λ ai,
  match m ai with
  | Panic => Panic
  | Ok a ai' out =>
      match f a ai' with
      | Panic => Panic
      | Ok b ai'' out' => Ok b ai'' (out ++ out')
      end
  end.

Definition gets {A} (f : AdvancedAIBrain → A) : M A := λ ai, Ok (f ai) ai [].
Definition modify (f : AdvancedAIBrain → AdvancedAIBrain) : M unit :=
  λ ai, Ok tt (f ai) [].
Definition logf (e : LogEntry) : M unit := λ ai, Ok tt ai [e].
Definition panic {A} : M A := λ _, Panic.

Notation "'let*' x ':=' m 'in' k" := (bind m (λ x, k))
  (at level 10, x pattern, m at level 100, k at level 200).
Notation "m ';;' k" := (bind m (λ _, k))
  (at level 100, k at level 200, right associativity).

(** [for _, x := range l { body x }] over a slice. *)
Fixpoint for_each {A} (body : A → M unit) (l : list A) : M unit :=
  match l with
  | [] => ret tt
  | x :: l' => body x ;; for_each body l'
  end.

(** The same loop with the [changed] flag the deduction rules carry. *)
Fixpoint for_each_changed {A} (body : A → M bool) (l : list A)
    (changed : bool) : M bool :=
  match l with
  | [] => ret changed
  | x :: l' =>
      let* b := body x in
      for_each_changed body l' (changed || b)
  end.

(** ** brain.go *)

Definition mapKeys (m : gset string) : list string := sort_Strings (elements m).

Definition Hand (ai : AdvancedAIBrain) : list string :=
  sort_Strings (elements (hand ai)).

(** [NewAdvancedAIBrain] followed by [Setup]: every row of the grid is
    allocated here, one per card of [AllCards], with every player and
    ["solution"] at [StatusMaybe]. *)
Definition Setup (cfg : GameConfig) (playerNames : list string)
    (myName : string) (ch : Chooser) (r : Rand) : AdvancedAIBrain :=
  {| name := myName; config := cfg; players := playerNames; hand := ∅;
     knowledge :=
       foldl (λ k card,
                <[card := <["solution" := StatusMaybe]>
                            (foldl (λ row pName, <[pName := StatusMaybe]> row)
                                   ∅ playerNames)]> k)
             ∅ (AllCards cfg);
     unresolvedSuggestions := [];
     recentSurgicalTargets := NewStringDeque 3;
     chooser := ch; rand := r |}.

Definition _markCardLocation (card location : string) : M bool :=
  let* ctt := gets (λ ai, CardToType (config ai)) in
  match ctt !! card with
  | None => logf (ErrorInvalidCard card) ;; ret false
  | Some _ =>
      let* k := gets knowledge in
      if decide (status k card location = StatusYes) then ret false
      else
        logf (DebugLearned card location) ;;
        let* ps := gets players in
        match k !! card with
        | None => panic
        | Some row =>
            let row' := foldl (λ r loc, <[loc := StatusNo]> r) row (allLocations ps) in
            modify (set_knowledge (<[card := <[location := StatusYes]> row']> k)) ;;
            ret true
        end
  end.

(** One iteration of the loop of [_pruneAndSolveMysteries]; [changed] and
    [remaining] are the two variables the loop carries. *)
Definition prune_mystery (mystery : UnresolvedSuggestion) (changed : bool)
    (remaining : list UnresolvedSuggestion)
    : M (bool * list UnresolvedSuggestion) :=
  let* k := gets knowledge in
  let prunedCards :=
    filter (λ card, status k card (Disprover mystery) ≠ StatusNo)
           (PossibleCards mystery) in
  let* (mystery, changed) :=
    (if decide (size prunedCards < size (PossibleCards mystery)) then
       logf (DebugPruning (Disprover mystery) (mapKeys prunedCards)) ;;
       ret ({| Disprover := Disprover mystery; PossibleCards := prunedCards |},
            true)
     else ret (mystery, changed)) in
  if decide (size prunedCards = 1) then
    match mapKeys prunedCards with
    | [] => panic
    | card :: _ =>
        logf (InfoSolved (Disprover mystery) card) ;;
        let* b := _markCardLocation card (Disprover mystery) in
        ret (if b then true else changed, remaining)
    end
  else if decide (1 < size prunedCards) then
    ret (changed, remaining ++ [mystery])
  else ret (changed, remaining).

Fixpoint prune_loop (ms : list UnresolvedSuggestion) (changed : bool)
    (remaining : list UnresolvedSuggestion)
    : M (bool * list UnresolvedSuggestion) :=
  match ms with
  | [] => ret (changed, remaining)
  | mystery :: ms' =>
      let* (changed, remaining) := prune_mystery mystery changed remaining in
      prune_loop ms' changed remaining
  end.

Definition _pruneAndSolveMysteries : M bool :=
  let* ms := gets unresolvedSuggestions in
  let* (changed, remainingMysteries) := prune_loop ms false [] in
  let* ms' := gets unresolvedSuggestions in
  let changed :=
    if decide (length remainingMysteries < length ms') then true else changed in
  modify (set_unresolvedSuggestions remainingMysteries) ;;
  ret changed.

(** The inner loop of [_deduceCardLocationsByElimination]: it stops at the
    first [StatusYes] and collects the locations at [StatusMaybe] met before. *)
Fixpoint scan_locations (k : gmap string (gmap string CardStatus))
    (card : string) (locs maybes : list string) : bool * list string :=
  match locs with
  | [] => (false, maybes)
  | loc :: locs' =>
      if decide (status k card loc = StatusYes) then (true, maybes)
      else scan_locations k card locs'
             (if decide (status k card loc = StatusMaybe)
              then maybes ++ [loc] else maybes)
  end.

Definition deduce_card_location (card : string) : M bool :=
  let* ps := gets players in
  let* k := gets knowledge in
  let (isKnown, maybes) := scan_locations k card (allLocations ps) [] in
  if negb isKnown && bool_decide (length maybes = 1) then
    match maybes with
    | [] => panic
    | loc :: _ => _markCardLocation card loc
    end
  else ret false.

Definition _deduceCardLocationsByElimination : M bool :=
  let* cards := gets (λ ai, AllCards (config ai)) in
  for_each_changed deduce_card_location cards false.

(** The card at which a scan for a [StatusYes] at ["solution"] breaks. *)
Fixpoint first_yes (k : gmap string (gmap string CardStatus))
    (cardList : list string) : option string :=
  match cardList with
  | [] => None
  | card :: l =>
      if decide (status k card "solution" = StatusYes) then Some card
      else first_yes k l
  end.

Definition deduce_solution (cat : CardCategory) : M bool :=
  let* cardList := gets (λ ai, CardListForCategory (config ai) cat) in
  let* k := gets knowledge in
  if decide (is_Some (first_yes k cardList)) then ret false
  else
    let maybes := filter (λ card, status k card "solution" = StatusMaybe) cardList in
    if decide (length maybes = 1) then
      match maybes with
      | [] => panic
      | card :: _ => _markCardLocation card "solution"
      end
    else ret false.

Definition _deduceSolutionByElimination : M bool :=
  for_each_changed deduce_solution categories false.

(** One turn of the loop of [_runDeductionLoop]. *)
Definition deduction_pass : M bool :=
  let* b1 := _pruneAndSolveMysteries in
  let* b2 := _deduceSolutionByElimination in
  let* b3 := _deduceCardLocationsByElimination in
  ret (b3 || (b2 || (b1 || false))).

Fixpoint deduction_loop (bound : nat) : M unit :=
  match bound with
  | 0 => ret tt
  | S bound' =>
      let* changed := deduction_pass in
      if changed then deduction_loop bound' else ret tt
  end.

Definition _runDeductionLoop : M unit := deduction_loop 10.

Definition ReceiveHand (cards : list string) : M unit :=
  for_each (λ card,
      modify (λ ai, set_hand ({[card]} ∪ hand ai) ai) ;;
      let* me := gets name in
      _markCardLocation card me ;;
      ret tt) cards ;;
  _runDeductionLoop.

Definition ShouldAccuse_loop_body (cat : CardCategory)
    (solution : gmap CardCategory string)
    : M (option (gmap CardCategory string)) :=
  let* cardList := gets (λ ai, CardListForCategory (config ai) cat) in
  let* k := gets knowledge in
  let knownSolutionCard := default "" (first_yes k cardList) in
  if decide (knownSolutionCard ≠ "") then
    ret (Some (<[cat := knownSolutionCard]> solution))
  else ret None.

Fixpoint ShouldAccuse_loop (cats : list CardCategory)
    (solution : gmap CardCategory string)
    : M (option (gmap CardCategory string)) :=
  match cats with
  | [] => ret (Some solution)
  | cat :: cats' =>
      let* r := ShouldAccuse_loop_body cat solution in
      match r with
      | None => ret None
      | Some solution' => ShouldAccuse_loop cats' solution'
      end
  end.

Definition ShouldAccuse : M (option (gmap CardCategory string)) :=
  let* r := ShouldAccuse_loop categories ∅ in
  match r with
  | None => ret None
  | Some solution =>
      if decide (size solution = 3) then
        logf DebugFinalizing ;; ret (Some solution)
      else ret None
  end.

(** ** chooser.go

    [Choose] returns the card and the contents of the slice after the call:
    the deterministic chooser sorts the slice of its caller in place.  The
    random chooser draws from the source of the brain; every construction in
    the repository hands the same [*rand.Rand] to both. *)
Definition Choose (cards : list string) : M (string * list string) :=
  let* ch := gets chooser in
  match ch with
  | RandomChooser =>
      if decide (length cards = 0) then ret ("", cards)
      else
        let* r := gets rand in
        let (i, r') := Intn (length cards) r in
        modify (set_rand r') ;;
        match cards !! i with
        | None => panic
        | Some card => ret (card, cards)
        end
  | DeterministicChooser =>
      if decide (length cards = 0) then ret ("", cards)
      else
        let sorted := sort_Strings cards in
        match sorted with
        | [] => panic
        | card :: _ => ret (card, sorted)
        end
  end.

(** ** strategies.go: helpers *)

Definition _pickUnknownCard (cat : CardCategory) : M string :=
  let* cardList := gets (λ ai, CardListForCategory (config ai) cat) in
  let* h := gets hand in
  let* k := gets knowledge in
  let maybes :=
    filter (λ card, (card ∉ h) ∧ status k card "solution" = StatusMaybe)
           cardList in
  if decide (0 < length maybes) then
    let* r := gets rand in
    let (i, r') := Intn (length maybes) r in
    modify (set_rand r') ;;
    match maybes !! i with
    | None => panic
    | Some card => ret card
    end
  else
    let notMyCards := filter (λ card, card ∉ h) cardList in
    if decide (0 < length notMyCards) then
      let* (card, _) := Choose notMyCards in
      ret card
    else
      let* (card, cardList') := Choose cardList in
      modify (λ ai, set_config (set_CardListForCategory cat cardList' (config ai)) ai) ;;
      ret card.

(** [ai.config.CardToType[card]] read without the presence flag: an unknown
    card reads as the zero category. *)
Definition category_of (ctt : gmap string CardCategory) (card : string)
    : CardCategory :=
  default CategorySuspect (ctt !! card).

Definition swap (i j : nat) (l : list string) : list string :=
  match l !! i, l !! j with
  | Some a, Some b => <[i := b]> (<[j := a]> l)
  | _, _ => l
  end.

(** [rand.Shuffle]: for [i] from [n-1] down to [1], draw [j] with
    [Intn (i+1)] and swap the elements at [i] and [j]. *)
Fixpoint shuffle_loop (i : nat) (l : list string) (r : Rand)
    : list string * Rand :=
  match i with
  | 0 => (l, r)
  | S i' =>
      let (j, r') := Intn (S i) r in
      shuffle_loop i' (swap i j l) r'
  end.

Definition Shuffle (l : list string) (r : Rand) : list string * Rand :=
  shuffle_loop (length l - 1) l r.

Definition fill_from_hand (ctt : gmap string CardCategory)
    (suggestion : gmap CardCategory string) (card : string)
    : gmap CardCategory string :=
  if decide (size suggestion = 3) then suggestion
  else
    let cat := category_of ctt card in
    if decide (is_Some (suggestion !! cat)) then suggestion
    else <[cat := card]> suggestion.

Definition fill_unknown (cat : CardCategory)
    (suggestion : gmap CardCategory string) : M (gmap CardCategory string) :=
  if decide (is_Some (suggestion !! cat)) then ret suggestion
  else
    let* card := _pickUnknownCard cat in
    ret (<[cat := card]> suggestion).

Definition _buildSuggestionAroundTarget (targetCard : string)
    : M (gmap CardCategory string) :=
  let* ctt := gets (λ ai, CardToType (config ai)) in
  let suggestion : gmap CardCategory string :=
    <[category_of ctt targetCard := targetCard]> ∅ in
  let* myHandSlice := gets Hand in
  let* r := gets rand in
  let (myHandSlice, r') := Shuffle myHandSlice r in
  modify (set_rand r') ;;
  let suggestion := foldl (fill_from_hand ctt) suggestion myHandSlice in
  if decide (size suggestion < 3) then
    let* suggestion := fill_unknown CategorySuspect suggestion in
    let* suggestion := fill_unknown CategoryWeapon suggestion in
    fill_unknown CategoryRoom suggestion
  else ret suggestion.

Definition cardFrequency (ms : list UnresolvedSuggestion) : gmap string nat :=
  foldl (λ freq mystery,
           set_fold (λ card (m : gmap string nat),
                       <[card := S (default 0 (m !! card))]> m)
                    freq (PossibleCards mystery))
        ∅ ms.

(** The order [sortByValue] asks of [sort.Slice]: larger counts first. *)
Definition by_value_desc (a b : string * nat) : Prop := (b.2 ≤ a.2)%nat.

#[global] Instance by_value_desc_dec : RelDecision by_value_desc.
Proof. intros a b. unfold by_value_desc. apply _. Defined.

Inductive SuggestionStrategy : Set :=
  | ExploitStrategy
  | SurgicalStrikeStrategy
  | ExploreStrategy.

Definition strategies : list SuggestionStrategy :=
  [ExploitStrategy; SurgicalStrikeStrategy; ExploreStrategy].

Definition Exploit_known (cfg : GameConfig)
    (k : gmap string (gmap string CardStatus))
    (acc : gmap CardCategory string * nat) (cat : CardCategory)
    : gmap CardCategory string * nat :=
  match first_yes k (CardListForCategory cfg cat) with
  | Some card => (<[cat := card]> acc.1, S acc.2)
  | None => acc
  end.

Fixpoint Exploit_fill (known : gmap CardCategory string)
    (cats : list CardCategory) (suggestion : gmap CardCategory string)
    : M (gmap CardCategory string) :=
  match cats with
  | [] => ret suggestion
  | cat :: cats' =>
      match known !! cat with
      | Some card => Exploit_fill known cats' (<[cat := card]> suggestion)
      | None =>
          let* card := _pickUnknownCard cat in
          Exploit_fill known cats' (<[cat := card]> suggestion)
      end
  end.

Definition mustBuild : M (gmap CardCategory string) :=
  let* s := _pickUnknownCard CategorySuspect in
  let* w := _pickUnknownCard CategoryWeapon in
  let* r := _pickUnknownCard CategoryRoom in
  ret (<[CategoryRoom := r]> (<[CategoryWeapon := w]> (<[CategorySuspect := s]> ∅))).

(** The body of the loop over the cards of a suggestion of the brain that
    nobody disproved. *)
Definition mark_unless_held (card : string) : M unit :=
  let* h := gets hand in
  if decide (card ∈ h) then ret tt
  else _markCardLocation card "solution" ;; ret tt.

(** ** The methods that iterate over a map in an order that shows

    The order in which [for ... range] visits the entries of a Go map is not
    specified.  [range] is that order: it is handed the entries of the map
    and returns them as the loop visits them.  [sort.Slice] is not stable;
    every outcome it can have is the stable sort of one visiting order. *)
Section Engine.

Variable range : ∀ A : Type, list A → list A.

Definition sortByValue (m : gmap string nat) : list string :=
  (merge_sort by_value_desc (range _ (map_to_list m))).*1.

Definition suggested_cards (s : gmap CardCategory string) : list string :=
  (range _ (map_to_list s)).*2.

Definition processTurnEvent (event : TurnResolvedEvent) : M unit :=
  if decide (SuggesterName event = "Game Event") then
    if decide (DisproverName event ≠ "" ∧ RevealedCard event ≠ "") then
      _markCardLocation (RevealedCard event) (DisproverName event) ;;
      ret tt
    else ret tt
  else
    let* me := gets name in
    (if decide (me = SuggesterName event) then
       if decide (DisproverName event ≠ "" ∧ RevealedCard event ≠ "") then
         _markCardLocation (RevealedCard event) (DisproverName event) ;;
         ret tt
       else if decide (DisproverName event = "") then
         logf InfoNotDisproved ;;
         for_each mark_unless_held (suggested_cards (Suggestion event))
       else ret tt
     else if decide (DisproverName event ≠ "" ∧ DisproverName event ≠ me) then
       let mystery :=
         {| Disprover := DisproverName event;
            PossibleCards := list_to_set (suggested_cards (Suggestion event)) |} in
       modify (λ ai, set_unresolvedSuggestions
                       (unresolvedSuggestions ai ++ [mystery]) ai) ;;
       logf (InfoNoted (DisproverName event) (mapKeys (PossibleCards mystery)))
     else ret tt) ;;
    _runDeductionLoop.

Definition HandleEvent (e : Event) : M unit :=
  match e with
  | TurnResolved event => processTurnEvent event
  | OtherEvent => ret tt
  end.

Definition ChooseCardToShow (suggestion : gmap CardCategory string) : M string :=
  let* h := gets hand in
  let canShow := filter (λ card, card ∈ h) (suggested_cards suggestion) in
  let* (card, _) := Choose canShow in
  ret card.

Definition ExploitStrategy_BuildSuggestion
    : M (option (gmap CardCategory string)) :=
  let* cfg := gets config in
  let* k := gets knowledge in
  let (knownSolutionCards, knownCount) :=
    foldl (Exploit_known cfg k) (∅, 0) categories in
  if decide (0 < knownCount ∧ knownCount < 3) then
    logf (InfoExploit knownCount) ;;
    let* suggestion := Exploit_fill knownSolutionCards categories ∅ in
    ret (Some suggestion)
  else ret None.

(** The list [Choose] is handed by the Surgical Strike strategy. *)
Definition patientTargets (ms : list UnresolvedSuggestion)
    (recent : StringDeque) : list string :=
  let sortedTargets := sortByValue (cardFrequency ms) in
  let patient := filter (λ card, Contains recent card = false) sortedTargets in
  if decide (length patient = 0) then sortedTargets else patient.

Definition SurgicalStrikeStrategy_BuildSuggestion
    : M (option (gmap CardCategory string)) :=
  let* ms := gets unresolvedSuggestions in
  if decide (length ms = 0) then ret None
  else if decide (0 < size (cardFrequency ms)) then
    let* recent := gets recentSurgicalTargets in
    let* (targetCard, _) := Choose (patientTargets ms recent) in
    let* me := gets name in
    logf (InfoSurgicalStrike me targetCard) ;;
    modify (λ ai, set_recentSurgicalTargets
                    (Push targetCard (recentSurgicalTargets ai)) ai) ;;
    let* suggestion := _buildSuggestionAroundTarget targetCard in
    ret (Some suggestion)
  else ret None.

Definition ExploreStrategy_BuildSuggestion
    : M (option (gmap CardCategory string)) :=
  logf InfoExplore ;;
  let* suggestion := mustBuild in
  ret (Some suggestion).

Definition BuildSuggestion (s : SuggestionStrategy)
    : M (option (gmap CardCategory string)) :=
  match s with
  | ExploitStrategy => ExploitStrategy_BuildSuggestion
  | SurgicalStrikeStrategy => SurgicalStrikeStrategy_BuildSuggestion
  | ExploreStrategy => ExploreStrategy_BuildSuggestion
  end.

Fixpoint try_strategies (l : list SuggestionStrategy)
    : M (gmap CardCategory string) :=
  match l with
  | [] => mustBuild
  | s :: l' =>
      let* r := BuildSuggestion s in
      match r with
      | Some suggestion => ret suggestion
      | None => try_strategies l'
      end
  end.

Definition MakeSuggestion : M (gmap CardCategory string) :=
  logf DebugFormulating ;;
  try_strategies strategies.

End Engine.

(** Visiting the entries in the order the finite map lists them. *)
Definition range_listed : ∀ A : Type, list A → list A := λ _ l, l.

(** ** Vocabulary of the properties *)

(** Running a method from a state does not panic and ends in a result and a
    state that satisfy [Q]. *)
Definition wp {A} (m : M A) (Q : A → AdvancedAIBrain → Prop)
    (ai : AdvancedAIBrain) : Prop :=
  match m ai with
  | Panic => False
  | Ok a ai' _ => Q a ai'
  end.

(** Two outcomes that agree on everything but the lines logged. *)
Definition same_outcome {A} (r1 r2 : Res A) : Prop :=
  match r1, r2 with
  | Panic, Panic => True
  | Ok a1 ai1 _, Ok a2 ai2 _ => a1 = a2 ∧ ai1 = ai2
  | _, _ => False
  end.

Definition res_map {A} (f : AdvancedAIBrain → AdvancedAIBrain) (r : Res A)
    : Res A :=
  match r with
  | Panic => Panic
  | Ok a ai out => Ok a (f ai) out
  end.

(** The same brain with another chooser and another random source. *)
Definition reseed (ch : Chooser) (r : Rand) (ai : AdvancedAIBrain)
    : AdvancedAIBrain :=
  set_chooser ch (set_rand r ai).

(** A method that neither reads nor writes the chooser and the random
    source: run on the reseeded brain it does the same, line for line. *)
Definition blind {A} (m : M A) : Prop :=
  ∀ ch r ai, m (reseed ch r ai) = res_map (reseed ch r) (m ai).

(** The card is a member of the catalog. *)
Definition in_catalog (ai : AdvancedAIBrain) (card : string) : Prop :=
  is_Some (CardToType (config ai) !! card).

(** Every card [CardToType] knows is listed in [AllCards], as [Load] builds
    the two. *)
Definition catalog_ok (cfg : GameConfig) : Prop :=
  ∀ card, is_Some (CardToType cfg !! card) → card ∈ AllCards cfg.

(** Every card of the catalog has its row in the grid. *)
Definition rows_allocated (ai : AdvancedAIBrain) : Prop :=
  ∀ card, in_catalog ai card → is_Some (knowledge ai !! card).

(** A [StatusYes] at a location of the closed set comes with [StatusNo] at
    every other location of the set. *)
Definition exclusive (ai : AdvancedAIBrain) : Prop :=
  ∀ card l l',
    l ∈ allLocations (players ai) → l' ∈ allLocations (players ai) →
    status (knowledge ai) card l = StatusYes → l' ≠ l →
    status (knowledge ai) card l' = StatusNo.

Definition grid_ok (ai : AdvancedAIBrain) : Prop :=
  rows_allocated ai ∧ exclusive ai.


(** The state a call of [_markCardLocation] that reports a change leaves:
    the row of the card holds [StatusNo] at every location of the closed set
    and [StatusYes] at the location marked. *)
Definition marked (card location : string) (ai : AdvancedAIBrain)
    : AdvancedAIBrain :=
  set_knowledge
    (<[card := <[location := StatusYes]>
                 (foldl (λ r loc, <[loc := StatusNo]> r)
                        (default ∅ (knowledge ai !! card))
                        (allLocations (players ai)))]> (knowledge ai)) ai.

(** The state [_markCardLocation] leaves, if it returns. *)
Definition mark_outcome (card location : string) (ai : AdvancedAIBrain)
    : option AdvancedAIBrain :=
  if decide (in_catalog ai card) then
    if decide (status (knowledge ai) card location = StatusYes) then Some ai
    else if decide (is_Some (knowledge ai !! card))
         then Some (marked card location ai)
         else None
  else Some ai.

(** The state [mark_unless_held] leaves, if it returns. *)
Definition held_outcome (card : string) (ai : AdvancedAIBrain)
    : option AdvancedAIBrain :=
  if decide (card ∈ hand ai) then Some ai
  else mark_outcome card "solution" ai.

(** The candidates of a mystery that the grid has not excluded at its
    disprover. *)
Definition pruned (k : gmap string (gmap string CardStatus))
    (m : UnresolvedSuggestion) : gset string :=
  filter (λ card, status k card (Disprover m) ≠ StatusNo) (PossibleCards m).

(** The life of the tracked mysteries in one pruning pass, mystery by
    mystery, each judged against the grid as the pass has left it so far: a
    mystery with two candidates or more stays, with the pruned candidates and
    in its place; a mystery with one candidate left is handed to
    [_markCardLocation] and dropped; a mystery with none left is dropped. *)
Inductive pruning_pass
    : AdvancedAIBrain → list UnresolvedSuggestion →
      AdvancedAIBrain → list UnresolvedSuggestion → Prop :=
  | pruning_done ai : pruning_pass ai [] ai []
  | pruning_keep ai m ms ai' kept :
      (2 ≤ size (pruned (knowledge ai) m))%nat →
      pruning_pass ai ms ai' kept →
      pruning_pass ai (m :: ms) ai'
        ({| Disprover := Disprover m;
            PossibleCards := pruned (knowledge ai) m |} :: kept)
  | pruning_solve ai m ms card b ai1 out ai' kept :
      pruned (knowledge ai) m = {[card]} →
      _markCardLocation card (Disprover m) ai = Ok b ai1 out →
      (in_catalog ai card →
       status (knowledge ai1) card (Disprover m) = StatusYes) →
      pruning_pass ai1 ms ai' kept →
      pruning_pass ai (m :: ms) ai' kept
  | pruning_drop_empty ai m ms ai' kept :
      pruned (knowledge ai) m = ∅ →
      pruning_pass ai ms ai' kept →
      pruning_pass ai (m :: ms) ai' kept.



(** Every tracked mystery has two candidates or more. *)
Definition well_tracked (ai : AdvancedAIBrain) : Prop :=
  Forall (λ m, 2 ≤ size (PossibleCards m)) (unresolvedSuggestions ai).




(** No row of the grid mixes [StatusMaybe] with a settled status over the
    closed set of locations: a row is untouched or settled. *)
Definition untouched_or_settled (ai : AdvancedAIBrain) : Prop :=
  ∀ card l l',
    l ∈ allLocations (players ai) → l' ∈ allLocations (players ai) →
    status (knowledge ai) card l = StatusMaybe →
    status (knowledge ai) card l' = StatusMaybe.

(** The row of a card the brain has recorded as its own: [StatusYes] at the
    brain, [StatusNo] at every other location of the closed set. *)
Definition own_row (ai : AdvancedAIBrain) (card : string) : Prop :=
  status (knowledge ai) card (name ai) = StatusYes ∧
  ∀ l, l ∈ allLocations (players ai) → l ≠ name ai →
       status (knowledge ai) card l = StatusNo.

(** Two states of one brain at one table: the same name, the same catalog
    and the same players. *)
Definition same_seat (ai ai' : AdvancedAIBrain) : Prop :=
  name ai' = name ai ∧ config ai' = config ai ∧ players ai' = players ai.

(** Two configurations with the same catalog: the same cards in each
    category, possibly listed in another order. *)
Definition same_catalog (c c' : GameConfig) : Prop :=
  AllCards c' = AllCards c ∧ CardToType c' = CardToType c ∧
  ∀ cat, CardListForCategory c' cat ≡ₚ CardListForCategory c cat.

(** Two states with the same notes: name, players, hand, grid, tracked
    mysteries and catalog. *)
Definition same_notes (ai ai' : AdvancedAIBrain) : Prop :=
  name ai' = name ai ∧ players ai' = players ai ∧ hand ai' = hand ai ∧
  knowledge ai' = knowledge ai ∧
  unresolvedSuggestions ai' = unresolvedSuggestions ai ∧
  same_catalog (config ai) (config ai').

(** ** The deal the brain reasons about

    [truth] is where each card lies: with the player it names, or in the
    ["solution"]. *)

(** The disprover of the mystery holds one of its candidates. *)
Definition shown_by (truth : string → string) (m : UnresolvedSuggestion)
    : Prop :=
  ∃ card, card ∈ PossibleCards m ∧ truth card = Disprover m.

(** What the brain has recorded agrees with the deal: a card reads
    [StatusYes] only where it lies and [StatusNo] only where it does not lie,
    every tracked mystery has a candidate that its disprover holds, every
    category with cards has one in the solution, and every card of the catalog
    lies at a location of the closed set. *)
Record consistent (truth : string → string) (ai : AdvancedAIBrain) : Prop := {
  consistent_yes : ∀ card loc,
    status (knowledge ai) card loc = StatusYes → truth card = loc;
  consistent_no : ∀ card loc,
    status (knowledge ai) card loc = StatusNo → truth card ≠ loc;
  consistent_mysteries : Forall (shown_by truth) (unresolvedSuggestions ai);
  consistent_solution : ∀ cat,
    CardListForCategory (config ai) cat ≠ [] →
    ∃ card, card ∈ CardListForCategory (config ai) cat ∧
            truth card = "solution";
  consistent_located : ∀ card,
    in_catalog ai card → truth card ∈ allLocations (players ai)
}.

(** The calls of [_markCardLocation] that tell the truth. *)
Definition truthful (truth : string → string) (card location : string)
    (ai : AdvancedAIBrain) : Prop :=
  in_catalog ai card → truth card = location.

(** The brain has been handed every card of the catalog that lies with it. *)
Definition holds_own_cards (truth : string → string) (ai : AdvancedAIBrain)
    : Prop :=
  ∀ card, in_catalog ai card → truth card = name ai → card ∈ hand ai.

(** An event that reports what happened at the table: a card revealed lies
    with the player who revealed it; the cards of a suggestion that nobody
    disproved lie with the suggester or in the solution; the disprover of a
    suggestion holds one of its cards. *)
Definition honest (truth : string → string) (ai : AdvancedAIBrain)
    (e : TurnResolvedEvent) : Prop :=
  (DisproverName e ≠ "" → RevealedCard e ≠ "" →
   in_catalog ai (RevealedCard e) →
   truth (RevealedCard e) = DisproverName e) ∧
  (DisproverName e = "" →
   ∀ cat card, Suggestion e !! cat = Some card → in_catalog ai card →
               truth card = SuggesterName e ∨ truth card = "solution") ∧
  (DisproverName e ≠ "" → SuggesterName e ≠ "Game Event" →
   ∃ cat card, Suggestion e !! cat = Some card ∧ truth card = DisproverName e).

Section Reachable.

Variable range : ∀ A : Type, list A → list A.

(** The states a brain goes through: set up on a catalog, then driven by the
    methods of the [Player] interface. *)
Inductive reachable : AdvancedAIBrain → Prop :=
  | reach_Setup cfg playerNames myName ch r :
      catalog_ok cfg → reachable (Setup cfg playerNames myName ch r)
  | reach_ReceiveHand ai cards ai' out :
      reachable ai → ReceiveHand cards ai = Ok tt ai' out → reachable ai'
  | reach_HandleEvent ai e ai' out :
      reachable ai → HandleEvent range e ai = Ok tt ai' out → reachable ai'
  | reach_MakeSuggestion ai s ai' out :
      reachable ai → MakeSuggestion range ai = Ok s ai' out → reachable ai'
  | reach_ShouldAccuse ai s ai' out :
      reachable ai → ShouldAccuse ai = Ok s ai' out → reachable ai'
  | reach_ChooseCardToShow ai suggestion card ai' out :
      reachable ai → ChooseCardToShow range suggestion ai = Ok card ai' out →
      reachable ai'.

End Reachable.

(** The state a method leaves; the state it started from if it panics. *)
Definition run_from {A} (m : M A) (ai : AdvancedAIBrain) : AdvancedAIBrain :=
  match m ai with
  | Ok _ ai' _ => ai'
  | Panic => ai
  end.

(** The result a method returns; none if it panics. *)
Definition returned {A} (m : M A) (ai : AdvancedAIBrain) : option A :=
  match m ai with
  | Ok a _ _ => Some a
  | Panic => None
  end.

(** ** A game to run the engine on

    The classic catalog, three players, and the brain of the first. *)

Definition classic : GameConfig :=
  Load ["Miss Scarlett"; "Colonel Mustard"; "Mrs. White"; "Mr. Green";
        "Mrs. Peacock"; "Professor Plum"]
       ["Candlestick"; "Dagger"; "Lead Pipe"; "Revolver"; "Rope"; "Wrench"]
       ["Kitchen"; "Ballroom"; "Conservatory"; "Dining Room";
        "Billiard Room"; "Library"; "Lounge"; "Hall"; "Study"].

Definition table : list string := ["Player 1"; "Player 2"; "Player 3"].

Definition fresh_brain (r : Rand) : AdvancedAIBrain :=
  Setup classic table "Player 1" DeterministicChooser r.

(** A direct reveal: the holder and the card travel in the disprover and
    revealed-card fields. *)
Definition reveal (card holder : string) : TurnResolvedEvent :=
  {| SuggesterName := "Game Event"; Suggestion := ∅;
     DisproverName := holder; RevealedCard := card |}.

Definition suggestion_of (suspect weapon room : string)
    : gmap CardCategory string :=
  <[CategoryRoom := room]>
    (<[CategoryWeapon := weapon]> (<[CategorySuspect := suspect]> ∅)).

(** The first player holds four of the six suspects. *)
Definition four_suspects : list string :=
  ["Colonel Mustard"; "Miss Scarlett"; "Mr. Green"; "Mrs. Peacock"].

Definition brain_with_four_suspects : AdvancedAIBrain :=
  run_from (ReceiveHand four_suspects) (fresh_brain []).

(** A suggestion of another player that a third one disproved; the card
    shown is not seen. *)
Definition third_party (suggester disprover : string)
    (s : gmap CardCategory string) : TurnResolvedEvent :=
  {| SuggesterName := suggester; Suggestion := s;
     DisproverName := disprover; RevealedCard := "" |}.

(** The first player has watched two disprovals; both suggestions named
    Mrs. White. *)
Definition brain_with_two_mysteries : AdvancedAIBrain :=
  run_from
    (HandleEvent range_listed
       (TurnResolved (third_party "Player 3" "Player 2"
                        (suggestion_of "Mrs. White" "Dagger" "Hall"))))
    (run_from
       (HandleEvent range_listed
          (TurnResolved (third_party "Player 2" "Player 3"
                           (suggestion_of "Mrs. White" "Rope" "Study"))))
       (fresh_brain [])).

(** The first player holds a suspect, a weapon and a room, and is told that
    the third player disproved a suggestion of exactly these three cards. *)
Definition three_cards : list string := ["Miss Scarlett"; "Rope"; "Hall"].

Definition brain_with_three_cards : AdvancedAIBrain :=
  run_from (ReceiveHand three_cards) (fresh_brain []).





(** The suggestion of the first player that nobody disproved. *)
Definition undisproved : TurnResolvedEvent :=
  {| SuggesterName := "Player 1";
     Suggestion := suggestion_of "Mrs. White" "Lead Pipe" "Kitchen";
     DisproverName := ""; RevealedCard := "" |}.

Definition brain_knowing_solution : AdvancedAIBrain :=
  run_from (HandleEvent range_listed (TurnResolved undisproved))
           brain_with_three_cards.

(** The first player, holding four suspects, is told by a direct reveal that
    the second player holds a fifth. *)
Definition brain_told_of_plum : AdvancedAIBrain :=
  run_from
    (HandleEvent range_listed (TurnResolved (reveal "Professor Plum" "Player 2")))
    brain_with_four_suspects.



(** The first player holds two suspects and two rooms and has seen the third
    player disprove a suggestion that names the Dagger. *)
Definition mixed_hand : list string :=
  ["Colonel Mustard"; "Miss Scarlett"; "Hall"; "Kitchen"].

Definition brain_before_strike (r : Rand) : AdvancedAIBrain :=
  run_from
    (HandleEvent range_listed
       (TurnResolved (third_party "Player 2" "Player 3"
                        (suggestion_of "Professor Plum" "Dagger" "Study"))))
    (run_from (ReceiveHand mixed_hand) (fresh_brain r)).

(** A deal of the classic catalog at the table of three: the first player
    holds [three_cards], the solution is Mrs. White with the Lead Pipe in the
    Kitchen, and the two other players hold the rest. *)
Definition dealt (card : string) : string :=
  if decide (card ∈ three_cards) then "Player 1"
  else if decide (card ∈ ["Mrs. White"; "Lead Pipe"; "Kitchen"]) then "solution"
  else if decide (card ∈ ["Colonel Mustard"; "Mr. Green"; "Mrs. Peacock";
                          "Candlestick"; "Dagger"; "Ballroom"; "Conservatory"])
       then "Player 2"
  else "Player 3".

(** ** internal/player: the human player *)

Module player.

Record HumanPlayer : Type := {
  name : string;
  cfg : GameConfig;
  hand : gset string
}.

(** [NewHumanPlayer] followed by [Setup]. *)
Definition Setup (c : GameConfig) (myName : string) : HumanPlayer :=
  {| name := myName; cfg := c; hand := ∅ |}.

Definition Hand (h : HumanPlayer) : list string :=
  sort_Strings (elements (hand h)).

(** The part of [ReceiveHand] that writes the player; the event it
    publishes is published by the caller in the game. *)
Definition ReceiveHand (cards : list string) (h : HumanPlayer) : HumanPlayer :=
  {| name := name h; cfg := cfg h; hand := list_to_set cards ∪ hand h |}.

Definition ChooseCardToShow (range : ∀ A : Type, list A → list A)
    (suggestion : gmap CardCategory string) (h : HumanPlayer) : string :=
  match filter (λ card, card ∈ hand h) (suggested_cards range suggestion) with
  | [] => ""
  | card :: _ => card
  end.

End player.

(** ** internal/game *)

Module game.

(** The two implementations of the [Player] interface. *)
Inductive Player : Type :=
  | Human (h : player.HumanPlayer)
  | AI (ai : AdvancedAIBrain).

Definition Name (p : Player) : string :=
  match p with
  | Human h => player.name h
  | AI ai => name ai
  end.

Definition IsHuman (p : Player) : bool :=
  match p with
  | Human _ => true
  | AI _ => false
  end.

Definition Hand (p : Player) : list string :=
  match p with
  | Human h => player.Hand h
  | AI ai => Hand ai
  end.

(** The events published for rendering.  No player reacts to them: the
    handler of the human player is empty and the handler of the brain has a
    case for [TurnResolvedEvent] only. *)
Inductive Notice : Type :=
  | TurnStartEvent (TurnNumber : nat) (PlayerName : string)
  | SuggestionMadeEvent (PlayerName : string)
      (Suggestion : gmap CardCategory string)
  | DisprovalEvent (SuggesterName DisproverName RevealedCard : string)
  | NoDisprovalEvent
  | GameReadyEvent
  | GameOverEvent (Winner : string) (Solution : gmap CardCategory string)
      (Accusation : option (gmap CardCategory string)) (IsCorrect : bool)
  | HumanHandRevealedEvent (PlayerName : string) (Hand : list string).

(** What a game writes: the lines of its players and its own on the logger,
    and the events it publishes. *)
Inductive Output : Type :=
  | Logged (e : LogEntry)
  | LoggedHand (player : string) (hand : list string)
  | LoggedSolution (solution : gmap CardCategory string)
  | Published (e : Notice).

Record Game : Type := {
  Config : GameConfig;
  Players : list Player;
  Solution : gmap CardCategory string;
  turn : nat;
  rand : Rand
}.


Definition set_Players (ps : list Player) (g : Game) : Game :=
  {| Config := Config g; Players := ps; Solution := Solution g;
     turn := turn g; rand := rand g |}.

Definition set_Solution (s : gmap CardCategory string) (g : Game) : Game :=
  {| Config := Config g; Players := Players g; Solution := s;
     turn := turn g; rand := rand g |}.

Definition set_turn (t : nat) (g : Game) : Game :=
  {| Config := Config g; Players := Players g; Solution := Solution g;
     turn := t; rand := rand g |}.

Definition set_rand (r : Rand) (g : Game) : Game :=
  {| Config := Config g; Players := Players g; Solution := Solution g;
     turn := turn g; rand := r |}.

(** *** The monad of the methods of the game: the game as state, what is
    logged and published as output, and the panics of the run time. *)

Inductive Result (A : Type) : Type :=
  | Panicked
  | Returned (a : A) (g : Game) (out : list Output).
Arguments Panicked {A}.
Arguments Returned {A} a g out.

Definition G (A : Type) : Type := Game → Result A.

Definition ret {A} (a : A) : G A := λ g, Returned a g [].

Definition bind {A B} (m : G A) (f : A → G B) : G B := λ g,
  match m g with
  | Panicked => Panicked
  | Returned a g' out =>
      match f a g' with
      | Panicked => Panicked
      | Returned b g'' out' => Returned b g'' (out ++ out')
      end
  end.

Definition gets {A} (f : Game → A) : G A := λ g, Returned (f g) g [].
Definition modify (f : Game → Game) : G unit := λ g, Returned tt (f g) [].
Definition emit (o : Output) : G unit := λ g, Returned tt g [o].
Definition panic {A} : G A := λ _, Panicked.

Notation "'let+' x ':=' m 'in' k" := (bind m (λ x, k))
  (at level 10, x pattern, m at level 100, k at level 200).
Notation "m ';+' k" := (bind m (λ _, k))
  (at level 100, k at level 200, right associativity).

(** [for i := from; i < from + count; i++ { body i }]. *)
Fixpoint for_range (from count : nat) (body : nat → G unit) : G unit :=
  match count with
  | 0 => ret tt
  | S count' => body from ;+ for_range (S from) count' body
  end.

(** [g.Players[i]]: an index out of range panics. *)
Definition player_at (i : nat) : G Player := λ g,
  match Players g !! i with
  | None => Panicked
  | Some p => Returned p g []
  end.

(** A call of a method on [g.Players[i]]: the method returns a result,
    leaves the player in a new state and writes its output, or panics. *)
Definition on_player {A} (i : nat)
    (method : Player → option (A * Player * list Output)) : G A := λ g,
  match Players g !! i with
  | None => Panicked
  | Some p =>
      match method p with
      | None => Panicked
      | Some (a, p', out) => Returned a (set_Players (<[i := p']> (Players g)) g) out
      end
  end.

(** A method of the brain, as a method of a player. *)
Definition brain {A} (m : M A) (ai : AdvancedAIBrain)
    : option (A * Player * list Output) :=
  match m ai with
  | Panic => None
  | Ok a ai' out => Some (a, AI ai', Logged <$> out)
  end.

Section Run.

Variable range : ∀ A : Type, list A → list A.

(** *** The [Player] interface *)

Definition HandleEvent (e : Event) (p : Player)
    : option (unit * Player * list Output) :=
  match p with
  | Human h => Some (tt, p, [])
  | AI ai => brain (HandleEvent range e) ai
  end.

Definition ChooseCardToShow (suggestion : gmap CardCategory string)
    (p : Player) : option (string * Player * list Output) :=
  match p with
  | Human h => Some (player.ChooseCardToShow range suggestion h, p, [])
  | AI ai => brain (ChooseCardToShow range suggestion) ai
  end.

(** The human player returns the nil map. *)
Definition MakeSuggestion (p : Player)
    : option (gmap CardCategory string * Player * list Output) :=
  match p with
  | Human h => Some (∅, p, [])
  | AI ai => brain (MakeSuggestion range) ai
  end.

Definition ShouldAccuse (p : Player)
    : option (option (gmap CardCategory string) * Player * list Output) :=
  match p with
  | Human h => Some (None, p, [])
  | AI ai => brain ShouldAccuse ai
  end.

(** [Publish]: the event goes to every listener.  What the listeners
    outside the game do with it is the [Published] line; the players are
    listeners too, and are handed the event one after the other. *)
Definition Publish (e : Notice) : G unit :=
  emit (Published e) ;+
  let+ n := gets (λ g, length (Players g)) in
  for_range 0 n (λ i, on_player i (HandleEvent OtherEvent)).

(** [ReceiveHand]: what the method writes to the player. *)
Definition ReceiveHand (cards : list string) (p : Player)
    : option (unit * Player * list Output) :=
  match p with
  | Human h => Some (tt, Human (player.ReceiveHand cards h), [])
  | AI ai => brain (ReceiveHand cards) ai
  end.

(** [g.Players[i].ReceiveHand(cards)]: the human player ends the method by
    publishing its hand. *)
Definition hand_over (i : nat) (cards : list string) : G unit :=
  on_player i (ReceiveHand cards) ;+
  let+ p := player_at i in
  match p with
  | Human h => Publish (HumanHandRevealedEvent (player.name h) (player.Hand h))
  | AI _ => ret tt
  end.

(** *** game.go *)

(** One iteration of the loop of [deal] over the shuffled deck: the first
    card met of a category goes to the solution, the others are dealt. *)
Definition pick (ctt : gmap string CardCategory)
    (acc : gmap CardCategory string * gset CardCategory * list string)
    (card : string)
    : gmap CardCategory string * gset CardCategory * list string :=
  let category := category_of ctt card in
  if decide (category ∈ acc.1.2) then (acc.1.1, acc.1.2, acc.2 ++ [card])
  else (<[category := card]> acc.1.1, {[category]} ∪ acc.1.2, acc.2).

(** The loop that hands the cards round; [i % len(g.Players)] panics when
    there is no player. *)
Fixpoint deal_round (n i : nat) (cards : list string)
    (hands : list (list string)) : option (list (list string)) :=
  match cards with
  | [] => Some hands
  | card :: cards' =>
      if decide (n = 0) then None
      else deal_round n (S i) cards'
             (alter (λ h, h ++ [card]) (i `mod` n) hands)
  end.

Definition deal : G unit :=
  let+ c := gets Config in
  let+ r := gets rand in
  let (deck, r') := Shuffle (AllCards c) r in
  modify (set_rand r') ;+
  let+ solution := gets Solution in
  let picked := foldl (pick (CardToType c)) (solution, ∅, []) (reverse deck) in
  modify (set_Solution picked.1.1) ;+
  let cardsToDeal := sort_Strings picked.2 in
  let+ n := gets (λ g, length (Players g)) in
  match deal_round n 0 cardsToDeal (replicate n []) with
  | None => panic
  | Some hands =>
      for_range 0 n (λ i,
        hand_over i (default [] (hands !! i)) ;+
        let+ p := player_at i in
        emit (LoggedHand (Name p) (default [] (hands !! i)))) ;+
      let+ solution := gets Solution in
      emit (LoggedSolution solution)
  end.

(** The index of the suggester among the players, [-1] if there is none of
    that name. *)
Fixpoint suggesterIdx (suggester : string) (ps : list Player) (i : nat) : Z :=
  match ps with
  | [] => (-1)%Z
  | p :: ps' =>
      if decide (Name p = suggester) then Z.of_nat i
      else suggesterIdx suggester ps' (S i)
  end.

(** The loop of [handleSuggestion], from [i] on, [count] players to ask. *)
Fixpoint ask (idx : Z) (n : nat) (suggestion : gmap CardCategory string)
    (i count : nat) : G (string * string) :=
  match count with
  | 0 => ret ("", "")
  | S count' =>
      let playerIdx := Z.to_nat (Z.rem (idx + Z.of_nat i) (Z.of_nat n)) in
      let+ cardShown := on_player playerIdx (ChooseCardToShow suggestion) in
      if decide (cardShown ≠ "") then
        let+ p := player_at playerIdx in
        ret (Name p, cardShown)
      else ask idx n suggestion (S i) count'
  end.

Definition handleSuggestion (suggester : string)
    (suggestion : gmap CardCategory string) : G (string * string) :=
  let+ ps := gets Players in
  ask (suggesterIdx suggester ps 0) (length ps) suggestion 1 (length ps - 1).

Definition checkAccusation (accusation : gmap CardCategory string) : G bool :=
  let+ solution := gets Solution in
  ret (forallb (λ entry : CardCategory * string,
                  bool_decide (default "" (solution !! entry.1) = entry.2))
               (range _ (map_to_list accusation))).

(** The event a player is handed at the end of a turn: the card revealed
    is told to the suggester only. *)
Definition notify (current : string) (suggestion : gmap CardCategory string)
    (disproverName revealedCard : string) (i : nat) : G unit :=
  let+ p := player_at i in
  let logicEvent :=
    {| SuggesterName := current; Suggestion := suggestion;
       DisproverName := disproverName;
       RevealedCard := if decide (Name p = current) then revealedCard else "" |} in
  on_player i (HandleEvent (TurnResolved logicEvent)).

(** The loop of [RunSimulation] with [left] turns to go before the limit:
    a turn that does not end the game adds one to [g.turn]. *)
Fixpoint turns (left : nat) : G (string * bool) :=
  match left with
  | 0 =>
      let+ solution := gets Solution in
      Publish (GameOverEvent "" solution None false) ;+
      ret ("", false)
  | S left' =>
      let+ t := gets turn in
      let+ n := gets (λ g, length (Players g)) in
      if decide (n = 0) then panic
      else
        let+ currentPlayer := player_at (t `mod` n) in
        let current := Name currentPlayer in
        Publish (TurnStartEvent (t + 1) current) ;+
        let+ accusation := on_player (t `mod` n) ShouldAccuse in
        match accusation with
        | Some accusation =>
            let+ isCorrect := checkAccusation accusation in
            let+ solution := gets Solution in
            Publish (GameOverEvent current solution (Some accusation) isCorrect) ;+
            ret (current, isCorrect)
        | None =>
            let+ suggestion := on_player (t `mod` n) MakeSuggestion in
            Publish (SuggestionMadeEvent current suggestion) ;+
            let+ (disproverName, revealedCard) :=
              handleSuggestion current suggestion in
            (if decide (disproverName ≠ "") then
               Publish (DisprovalEvent current disproverName revealedCard)
             else Publish NoDisprovalEvent) ;+
            for_range 0 n (notify current suggestion disproverName revealedCard) ;+
            modify (λ g, set_turn (turn g + 1) g) ;+
            turns left'
        end
  end.

Definition RunSimulation : G (string * bool) :=
  let+ t := gets turn in
  turns (50 - t).

(** *** builder.go *)

(** [rand.New(rand.NewSource(seed))]: the random source a seed stands for. *)
Variable NewSource : nat → Rand.

Definition Int63 (r : Rand) : nat * Rand := (hd 0 r, tl r).

(** The loop of [Build] over the shuffled names: the first [numHumans]
    seats are human, the others are brains with a random chooser that draws
    from the random source of the brain; every player is set up with a copy
    of the configuration and of the names. *)
Fixpoint seat (c : GameConfig) (playerNames : list string) (numHumans : nat)
    (i : nat) (names : list string) (r : Rand)
    : list Player * Rand * list Output :=
  match names with
  | [] => ([], r, [])
  | name :: names' =>
      if decide (i < numHumans) then
        let seated := seat c playerNames numHumans (S i) names' r in
        (Human (player.Setup c name) :: seated.1.1, seated.1.2, seated.2)
      else
        let (seed, r1) := Int63 r in
        let aiRand := NewSource seed in
        let seated := seat c playerNames numHumans (S i) names' r1 in
        (AI (Setup c playerNames name RandomChooser aiRand) :: seated.1.1,
         seated.1.2, Logged DebugInitialized :: seated.2)
  end.

(** [Build]: [None] is the error for an invalid number of players.  The
    names are a slice of [cfg.Suspects], shuffled in place: the
    configuration of the game and its copies hold the shuffled names. *)
Definition Build (c : GameConfig) (r : Rand) (numHumans numAI : nat)
    : option (Result unit) :=
  let totalPlayers := numHumans + numAI in
  if decide (totalPlayers < 2 ∨ length (Suspects c) < totalPlayers) then None
  else
    let (playerNames, r1) := Shuffle (take totalPlayers (Suspects c)) r in
    let c' :=
      set_CardListForCategory CategorySuspect
        (playerNames ++ drop totalPlayers (Suspects c)) c in
    let seated := seat c' playerNames numHumans 0 playerNames r1 in
    let game :=
      {| Config := c'; Players := seated.1.1; Solution := ∅; turn := 0;
         rand := seated.1.2 |} in
    Some (match (deal ;+ Publish GameReadyEvent) game with
          | Panicked => Panicked
          | Returned _ g out => Returned tt g (seated.2 ++ out)
          end).

End Run.

End game.

(** ** Vocabulary of the properties of the game *)

(** Running a method of the game does not panic and ends in a result and a
    game that satisfy [Q]. *)
Definition game_wp {A} (m : game.G A) (Q : A → game.Game → Prop)
    (g : game.Game) : Prop :=
  match m g with
  | game.Panicked => False
  | game.Returned a g' _ => Q a g'
  end.

Definition hand_of (p : game.Player) : gset string :=
  match p with
  | game.Human h => player.hand h
  | game.AI ai => hand ai
  end.

(** The cards of the game. *)
Definition is_card (g : game.Game) (card : string) : Prop :=
  is_Some (CardToType (game.Config g) !! card).

(** The category lists agree with [CardToType], as in a configuration that
    [Load] builds from lists without a common card. *)
Definition coherent (c : GameConfig) : Prop :=
  ∀ cat card, card ∈ CardListForCategory c cat → CardToType c !! card = Some cat.

(** A player at a table where the cards lie as [truth] says: the player
    holds the cards that lie with it and no other, none of them is the empty
    string, and, if the player is a brain, its record agrees with the deal
    and its catalog is the catalog of the game. *)
Definition well_seated (truth : string → string) (g : game.Game)
    (p : game.Player) : Prop :=
  (∀ card, card ∈ hand_of p → truth card = game.Name p ∧ card ≠ "") ∧
  (∀ card, is_card g card → truth card = game.Name p → card ∈ hand_of p) ∧
  match p with
  | game.Human _ => True
  | game.AI ai =>
      grid_ok ai ∧ consistent truth ai ∧ coherent (config ai) ∧
      CardToType (config ai) = CardToType (game.Config g)
  end.

(** A table where the cards lie as [truth] says: the players have distinct
    names, none of them empty or ["solution"]; every player is well seated;
    every card of the game lies with a player or in the solution; and the
    cards that lie in the solution are the cards of [g.Solution]. *)
Definition table_ok (truth : string → string) (g : game.Game) : Prop :=
  NoDup (game.Name <$> game.Players g) ∧
  "" ∉ (game.Name <$> game.Players g) ∧
  "solution" ∉ (game.Name <$> game.Players g) ∧
  Forall (well_seated truth g) (game.Players g) ∧
  (∀ card, is_card g card →
           truth card ∈ (game.Name <$> game.Players g) ++ ["solution"]) ∧
  (∀ cat card, CardToType (game.Config g) !! card = Some cat →
               truth card = "solution" →
               game.Solution g !! cat = Some card).

(** Two states of one game in which the players sit as before and hold
    what they held: the same configuration, solution, turn and random
    source, the same names and the same hands, seat by seat. *)
Definition same_table (g g' : game.Game) : Prop :=
  game.Config g' = game.Config g ∧ game.Solution g' = game.Solution g ∧
  game.turn g' = game.turn g ∧ game.rand g' = game.rand g ∧
  game.Name <$> game.Players g' = game.Name <$> game.Players g ∧
  hand_of <$> game.Players g' = hand_of <$> game.Players g.

(** ** A table to run the game on

    The three players of [table] are brains; the cards lie as [dealt] says. *)

Definition second_hand : list string :=
  ["Colonel Mustard"; "Mr. Green"; "Mrs. Peacock"; "Candlestick"; "Dagger";
   "Ballroom"; "Conservatory"].

Definition third_hand : list string :=
  ["Professor Plum"; "Revolver"; "Wrench"; "Billiard Room"; "Dining Room";
   "Library"; "Lounge"; "Study"].

Definition seated (myName : string) (cards : list string) : AdvancedAIBrain :=
  run_from (ReceiveHand cards)
           (Setup classic table myName DeterministicChooser []).

Definition sample_table : game.Game :=
  {| game.Config := classic;
     game.Players := [game.AI (seated "Player 1" three_cards);
                      game.AI (seated "Player 2" second_hand);
                      game.AI (seated "Player 3" third_hand)];
     game.Solution := suggestion_of "Mrs. White" "Lead Pipe" "Kitchen";
     game.turn := 0;
     game.rand := [] |}.

(** * Properties *)

(** ** The order of strings *)

Lemma string_le_cases a b :
  string_le a b ↔ a = b ∨ String_as_OT.lt a b.
Proof.
  unfold string_le, String_as_OT.lt.
  destruct (String_as_OT.compare_spec a b) as [Heq|Hlt|Hgt].
  - split; [by left | done].
  - split; [by right | done].
  - split; [done |]. intros [->|Hlt].
    + by destruct (StrictOrder_Irreflexive b).
    + exfalso. apply (StrictOrder_Irreflexive a). by etrans.
Qed.

#[global] Instance string_le_total : Total string_le.
Proof.
  intros a b. rewrite !string_le_cases.
  destruct (String_as_OT.compare_spec a b) as [Heq|Hlt|Hgt]; auto.
Qed.

#[global] Instance string_le_trans : Transitive string_le.
Proof.
  intros a b c. rewrite !string_le_cases.
  intros [->|H1] [->|H2]; auto. right. by etrans.
Qed.

#[global] Instance string_le_antisymm : AntiSymm eq string_le.
Proof.
  intros a b. rewrite !string_le_cases.
  intros [->|H1] [H2|H2]; auto.
  exfalso. apply (StrictOrder_Irreflexive a). by etrans.
Qed.

Lemma sort_Strings_perm l : sort_Strings l ≡ₚ l.
Proof. apply merge_sort_Permutation. Qed.

Lemma sort_Strings_sorted l : StronglySorted string_le (sort_Strings l).
Proof. apply StronglySorted_merge_sort; apply _. Qed.

Lemma sort_Strings_elem_of x l : x ∈ sort_Strings l ↔ x ∈ l.
Proof. by rewrite sort_Strings_perm. Qed.

Lemma sort_Strings_length l : length (sort_Strings l) = length l.
Proof. by rewrite sort_Strings_perm. Qed.

(** The head of the sorted slice is a least member of the slice. *)
Lemma sort_Strings_head l c rest :
  sort_Strings l = c :: rest → c ∈ l ∧ ∀ x, x ∈ l → string_le c x.
Proof.
  intros Hs. pose proof (sort_Strings_sorted l) as Hsorted.
  pose proof (sort_Strings_perm l) as Hperm. rewrite Hs in Hsorted, Hperm.
  split.
  - rewrite <- Hperm. left.
  - intros x Hx. rewrite <- Hperm in Hx.
    apply StronglySorted_inv in Hsorted as [_ Hall].
    apply elem_of_cons in Hx as [->|Hx].
    + by apply string_le_cases; left.
    + by eapply Forall_forall in Hall.
Qed.

(** Sorting forgets the order the slice came in. *)
Lemma sort_Strings_Permutation l1 l2 :
  l1 ≡ₚ l2 → sort_Strings l1 = sort_Strings l2.
Proof.
  intros Hp. apply (StronglySorted_unique string_le);
    [apply sort_Strings_sorted .. |].
  by rewrite !sort_Strings_perm.
Qed.

(** ** The monad *)

Lemma bind_Ok {A B} (m : M A) (f : A → M B) ai b ai'' out :
  bind m f ai = Ok b ai'' out ↔
  ∃ a ai' o1 o2,
    m ai = Ok a ai' o1 ∧ f a ai' = Ok b ai'' o2 ∧ out = o1 ++ o2.
Proof.
  unfold bind. split.
  - destruct (m ai) as [|a ai' o1]; [done |].
    destruct (f a ai') as [|b' ai2 o2] eqn:Hf; [done |].
    intros [= -> -> <-]. by exists a, ai', o1, o2.
  - intros (a & ai' & o1 & o2 & -> & -> & ->). done.
Qed.

Lemma wp_Ok {A} (m : M A) Q ai :
  wp m Q ai ↔ ∃ a ai' out, m ai = Ok a ai' out ∧ Q a ai'.
Proof.
  unfold wp. destruct (m ai) as [|a ai' out].
  - split; [done | by intros (? & ? & ? & ? & ?)].
  - split; [by exists a, ai', out |].
    by intros (? & ? & ? & [= <- <- <-] & ?).
Qed.

Lemma wp_mono {A} (m : M A) (Q Q' : A → AdvancedAIBrain → Prop) ai :
  wp m Q ai → (∀ a ai', Q a ai' → Q' a ai') → wp m Q' ai.
Proof. unfold wp. destruct (m ai); [done | auto]. Qed.

Lemma wp_ret {A} (a : A) (Q : A → AdvancedAIBrain → Prop) ai :
  Q a ai → wp (ret a) Q ai.
Proof. done. Qed.

Lemma wp_bind {A B} (m : M A) (f : A → M B) Q ai :
  wp m (λ a ai', wp (f a) Q ai') ai → wp (bind m f) Q ai.
Proof.
  unfold wp, bind. destruct (m ai) as [|a ai' o1]; [done |].
  by destruct (f a ai').
Qed.

Lemma wp_gets {A B} (proj : AdvancedAIBrain → A) (f : A → M B) Q ai :
  wp (f (proj ai)) Q ai → wp (bind (gets proj) f) Q ai.
Proof. intros H. apply wp_bind. exact H. Qed.

Lemma wp_modify {B} g (f : unit → M B) Q ai :
  wp (f tt) Q (g ai) → wp (bind (modify g) f) Q ai.
Proof. intros H. apply wp_bind. exact H. Qed.

Lemma wp_logf {B} e (f : unit → M B) Q ai :
  wp (f tt) Q ai → wp (bind (logf e) f) Q ai.
Proof. intros H. apply wp_bind. exact H. Qed.

(** ** [_markCardLocation] *)

Lemma lookup_foldl_insert_No (row : gmap string CardStatus) locs l :
  foldl (λ r loc, <[loc := StatusNo]> r) row locs !! l =
  if decide (l ∈ locs) then Some StatusNo else row !! l.
Proof.
  revert row. induction locs as [|loc locs IH]; intros row.
  - case_decide as Hin; [by apply elem_of_nil in Hin | done].
  - cbn [foldl]. rewrite IH. destruct (decide (l = loc)) as [->|Hne].
    + rewrite lookup_insert_eq. rewrite (decide_True _ _ (list_elem_of_here _ _)).
      by case_decide.
    + rewrite lookup_insert_ne by done.
      destruct (decide (l ∈ locs)) as [Hin|Hnin].
      * by rewrite decide_True by (by right).
      * by rewrite decide_False by (by intros [?|?]%elem_of_cons).
Qed.

Lemma status_marked card location ai c l :
  status (knowledge (marked card location ai)) c l =
  if decide (c = card) then
    if decide (l = location) then StatusYes
    else if decide (l ∈ allLocations (players ai)) then StatusNo
         else status (knowledge ai) c l
  else status (knowledge ai) c l.
Proof.
  unfold status, marked; simpl.
  destruct (decide (c = card)) as [->|Hc].
  - rewrite lookup_insert_eq; simpl.
    destruct (decide (l = location)) as [->|Hl].
    + by rewrite lookup_insert_eq.
    + rewrite lookup_insert_ne by done. rewrite lookup_foldl_insert_No.
      destruct (decide (l ∈ allLocations (players ai))); [done |].
      by destruct (knowledge ai !! card).
  - by rewrite lookup_insert_ne.
Qed.

Lemma mark_invalid card location ai :
  ¬ in_catalog ai card →
  _markCardLocation card location ai = Ok false ai [ErrorInvalidCard card].
Proof.
  unfold in_catalog, _markCardLocation, bind, gets; simpl.
  intros Hc. destruct (CardToType (config ai) !! card) eqn:E; [|done].
  destruct Hc; eauto.
Qed.

Lemma mark_known card location ai :
  in_catalog ai card →
  status (knowledge ai) card location = StatusYes →
  _markCardLocation card location ai = Ok false ai [].
Proof.
  unfold in_catalog, _markCardLocation, bind, gets; simpl.
  intros [cat ->] Hs. by rewrite decide_True.
Qed.

Lemma mark_fresh card location ai :
  in_catalog ai card →
  status (knowledge ai) card location ≠ StatusYes →
  is_Some (knowledge ai !! card) →
  _markCardLocation card location ai =
    Ok true (marked card location ai) [DebugLearned card location].
Proof.
  unfold in_catalog, _markCardLocation, marked, bind, gets; simpl.
  intros [cat ->] Hs [row Hrow]. rewrite decide_False by done.
  by rewrite Hrow.
Qed.

Lemma mark_unallocated card location ai :
  in_catalog ai card →
  status (knowledge ai) card location ≠ StatusYes →
  knowledge ai !! card = None →
  _markCardLocation card location ai = Panic.
Proof.
  unfold in_catalog, _markCardLocation, marked, bind, gets; simpl.
  intros [cat ->] Hs Hrow. rewrite decide_False by done.
  by rewrite Hrow.
Qed.

(** What a call that returned did. *)
Lemma mark_inv card location ai b ai' out :
  _markCardLocation card location ai = Ok b ai' out →
  (b = false ∧ ai' = ai) ∨
  (b = true ∧ ai' = marked card location ai ∧ in_catalog ai card ∧
   status (knowledge ai) card location ≠ StatusYes).
Proof.
  intros Hm. destruct (decide (in_catalog ai card)) as [Hc|Hc].
  - destruct (decide (status (knowledge ai) card location = StatusYes)) as [Hs|Hs].
    + rewrite mark_known in Hm by done. injection Hm as <- <- <-. by left.
    + destruct (knowledge ai !! card) as [row|] eqn:Hrow.
      * rewrite mark_fresh in Hm by eauto. injection Hm as <- <- <-.
        by right.
      * by rewrite mark_unallocated in Hm.
  - rewrite mark_invalid in Hm by done. injection Hm as <- <- <-. by left.
Qed.


Lemma rows_allocated_marked card location ai :
  rows_allocated ai → rows_allocated (marked card location ai).
Proof.
  intros Hrows c Hc. unfold marked; simpl.
  destruct (decide (c = card)) as [->|Hne].
  - rewrite lookup_insert_eq. eauto.
  - rewrite lookup_insert_ne by done. by apply Hrows.
Qed.

Lemma exclusive_marked card location ai :
  exclusive ai → exclusive (marked card location ai).
Proof.
  intros Hex c l l' Hl Hl'. rewrite !status_marked.
  change (players (marked card location ai)) with (players ai) in *.
  destruct (decide (c = card)) as [->|Hc]; [|by apply Hex].
  destruct (decide (l = location)) as [->|Hne].
  - intros _ Hneq. rewrite decide_False by done. by rewrite decide_True.
  - by rewrite decide_True.
Qed.

Lemma grid_ok_marked card location ai :
  grid_ok ai → grid_ok (marked card location ai).
Proof.
  intros [H1 H2]. split;
    [by apply rows_allocated_marked | by apply exclusive_marked].
Qed.

(** On a grid with its rows allocated the call returns, and it keeps the
    grid well formed. *)
Lemma wp_mark_grid_ok card location ai :
  grid_ok ai →
  wp (_markCardLocation card location) (λ _ ai', grid_ok ai') ai.
Proof.
  intros Hok. unfold wp.
  destruct (decide (in_catalog ai card)) as [Hc|Hc].
  - destruct (decide (status (knowledge ai) card location = StatusYes)).
    + by rewrite mark_known.
    + rewrite mark_fresh; [by apply grid_ok_marked | done.. |].
      by apply Hok.
  - by rewrite mark_invalid.
Qed.

(** One step of symbolic execution of a method under [wp]. *)
Ltac wp_step :=
  lazymatch goal with
  | |- wp (bind (gets _) _) _ _ => apply wp_gets; cbn beta
  | |- wp (bind (modify _) _) _ _ => apply wp_modify; cbn beta
  | |- wp (bind (logf _) _) _ _ => apply wp_logf; cbn beta
  | |- wp (ret _) _ _ => apply wp_ret
  | |- wp (if decide ?P then _ else _) _ _ => destruct (decide P)
  | |- wp (let (_, _) := ?p in _) _ _ => destruct p eqn:?
  | |- wp (match ?x with _ => _ end) _ _ => destruct x eqn:?
  end.

Lemma mapKeys_nonempty (X : gset string) : size X = 1 → mapKeys X ≠ [].
Proof.
  intros Hsize Hnil. unfold mapKeys in Hnil.
  pose proof (sort_Strings_length (elements X)) as Hlen.
  rewrite Hnil in Hlen. simpl in Hlen.
  unfold size, set_size in Hsize. simpl in Hsize. lia.
Qed.

Lemma Intn_lt n r : 0 < n → (Intn n r).1 < n.
Proof. intros Hn. unfold Intn; simpl. apply Nat.mod_upper_bound. lia. Qed.

Lemma lookup_Intn_is_Some (l : list string) r :
  0 < length l → is_Some (l !! (Intn (length l) r).1).
Proof. intros Hl. apply lookup_lt_is_Some. by apply Intn_lt. Qed.

(** ** Predicates that suggestion building keeps

    [I] does not read the random source nor the buffer of recent targets,
    and is kept when a category list is put in another order: the only
    write to the configuration is the in-place sort of the deterministic
    chooser. *)
Section Suggesting.

Variable I : AdvancedAIBrain → Prop.
Hypothesis I_recent : ∀ s ai,
  I ai → I (set_recentSurgicalTargets (Push s (recentSurgicalTargets ai)) ai).
Hypothesis I_rand : ∀ r ai, I ai → I (set_rand r ai).
Hypothesis I_order : ∀ cat l ai,
  I ai → l ≡ₚ CardListForCategory (config ai) cat →
  I (set_config (set_CardListForCategory cat l (config ai)) ai).

Lemma wp_Choose_keeps cards ai :
  I ai →
  wp (Choose cards)
     (λ res ai', I ai' ∧ res.2 ≡ₚ cards ∧ config ai' = config ai) ai.
Proof.
  intros HI. unfold Choose. do 2 wp_step.
  - wp_step; [by wp_step |]. do 3 wp_step.
    pose proof (lookup_Intn_is_Some cards (rand ai)) as Hi.
    rewrite Heqp in Hi; simpl in Hi.
    wp_step; [wp_step; split; [by apply I_rand | done] |].
    destruct Hi as [? Hi]; [lia | congruence].
  - wp_step; [by wp_step |]. cbv zeta.
    pose proof (sort_Strings_perm cards) as Hperm.
    wp_step; [|by wp_step].
    pose proof (sort_Strings_length cards) as Hlen.
    rewrite Heql in Hlen. simpl in Hlen. lia.
Qed.

Lemma wp_pickUnknownCard_keeps cat ai :
  I ai → wp (_pickUnknownCard cat) (λ _ ai', I ai') ai.
Proof.
  intros HI. unfold _pickUnknownCard. do 3 wp_step. cbv zeta.
  set (maybes := filter _ _). wp_step.
  - do 3 wp_step.
    pose proof (lookup_Intn_is_Some maybes (rand ai)) as Hi.
    rewrite Heqp in Hi; simpl in Hi.
    wp_step; [wp_step; by apply I_rand |].
    destruct Hi as [? Hi]; [lia | congruence].
  - wp_step.
    + apply wp_bind. eapply wp_mono; [by apply wp_Choose_keeps |].
      intros [card cards'] ai' [HI' _]. by wp_step.
    + apply wp_bind. eapply wp_mono; [by apply wp_Choose_keeps |].
      intros [card cards'] ai' (HI' & Hperm & Hcfg). wp_step. wp_step.
      apply I_order; [done |]. simpl in Hperm. by rewrite Hcfg.
Qed.

Lemma wp_fill_unknown_keeps_inv cat suggestion ai :
  I ai → wp (fill_unknown cat suggestion) (λ _ ai', I ai') ai.
Proof.
  intros HI. unfold fill_unknown. wp_step; [by wp_step |].
  apply wp_bind. eapply wp_mono; [by apply wp_pickUnknownCard_keeps |].
  intros card ai' HI'. by wp_step.
Qed.

Lemma wp_buildSuggestionAroundTarget_keeps targetCard ai :
  I ai → wp (_buildSuggestionAroundTarget targetCard) (λ _ ai', I ai') ai.
Proof.
  intros HI. unfold _buildSuggestionAroundTarget. do 5 wp_step.
  cbv zeta. wp_step; [|wp_step; by apply I_rand].
  apply wp_bind.
  eapply wp_mono; [apply wp_fill_unknown_keeps_inv; by apply I_rand |].
  intros s1 ai1 HI1. cbn beta. apply wp_bind.
  eapply wp_mono; [by apply wp_fill_unknown_keeps_inv |].
  intros s2 ai2 HI2. by apply wp_fill_unknown_keeps_inv.
Qed.

Lemma wp_Exploit_fill_keeps known cats suggestion ai :
  I ai → wp (Exploit_fill known cats suggestion) (λ _ ai', I ai') ai.
Proof.
  revert suggestion ai.
  induction cats as [|cat cats IH]; intros suggestion ai HI; simpl.
  - by wp_step.
  - wp_step; [by apply IH |].
    apply wp_bind. eapply wp_mono; [by apply wp_pickUnknownCard_keeps |].
    intros card ai' HI'. by apply IH.
Qed.

Lemma wp_mustBuild_keeps ai : I ai → wp mustBuild (λ _ ai', I ai') ai.
Proof.
  intros HI. unfold mustBuild.
  apply wp_bind. eapply wp_mono; [by apply wp_pickUnknownCard_keeps |].
  intros s ai1 HI1. cbn beta.
  apply wp_bind. eapply wp_mono; [by apply wp_pickUnknownCard_keeps |].
  intros w ai2 HI2. cbn beta.
  apply wp_bind. eapply wp_mono; [by apply wp_pickUnknownCard_keeps |].
  intros r ai3 HI3. by wp_step.
Qed.

Section SuggestingWithRange.

Variable range : ∀ A : Type, list A → list A.

Lemma wp_ChooseCardToShow_keeps suggestion ai :
  I ai → wp (ChooseCardToShow range suggestion) (λ _ ai', I ai') ai.
Proof.
  intros HI. unfold ChooseCardToShow. wp_step. cbv zeta.
  apply wp_bind. eapply wp_mono; [by apply wp_Choose_keeps |].
  intros [card cards'] ai' [HI' _]. by wp_step.
Qed.

Lemma wp_BuildSuggestion_keeps s ai :
  I ai → wp (BuildSuggestion range s) (λ _ ai', I ai') ai.
Proof.
  intros HI. destruct s; simpl.
  - unfold ExploitStrategy_BuildSuggestion. do 3 wp_step.
    wp_step; [|by wp_step]. wp_step. apply wp_bind.
    eapply wp_mono; [by apply wp_Exploit_fill_keeps |].
    intros suggestion ai' HI'. by wp_step.
  - unfold SurgicalStrikeStrategy_BuildSuggestion. wp_step.
    wp_step; [by wp_step |]. wp_step; [|by wp_step]. wp_step.
    apply wp_bind. eapply wp_mono; [by apply wp_Choose_keeps |].
    intros [targetCard cards'] ai' [HI' _]. cbn beta iota. do 3 wp_step.
    apply wp_bind.
    eapply wp_mono;
      [apply wp_buildSuggestionAroundTarget_keeps; by apply I_recent |].
    intros suggestion ai2 HI2. by wp_step.
  - unfold ExploreStrategy_BuildSuggestion. wp_step. apply wp_bind.
    eapply wp_mono; [by apply wp_mustBuild_keeps |].
    intros suggestion ai' HI'. by wp_step.
Qed.

Lemma wp_MakeSuggestion_keeps ai :
  I ai → wp (MakeSuggestion range) (λ _ ai', I ai') ai.
Proof.
  intros HI. unfold MakeSuggestion. wp_step.
  revert ai HI. induction strategies as [|s l IH]; intros ai HI; simpl.
  - by apply wp_mustBuild_keeps.
  - apply wp_bind. eapply wp_mono; [by apply wp_BuildSuggestion_keeps |].
    intros [suggestion|] ai' HI'; [by wp_step | by apply IH].
Qed.

End SuggestingWithRange.

End Suggesting.

(** ** Predicates that every method keeps

    [I] is kept by [_markCardLocation], which returns wherever [I] holds, and
    does not read the fields the other methods write. *)
Section Invariant.

Variable I : AdvancedAIBrain → Prop.
Hypothesis I_mark : ∀ card location ai,
  I ai → wp (_markCardLocation card location) (λ _ ai', I ai') ai.
Hypothesis I_hand : ∀ h ai, I ai → I (set_hand h ai).
Hypothesis I_unresolved : ∀ u ai, I ai → I (set_unresolvedSuggestions u ai).
Hypothesis I_recent : ∀ s ai,
  I ai → I (set_recentSurgicalTargets (Push s (recentSurgicalTargets ai)) ai).
Hypothesis I_rand : ∀ r ai, I ai → I (set_rand r ai).
Hypothesis I_cards : ∀ cat l ai,
  I ai → I (set_config (set_CardListForCategory cat l (config ai)) ai).

Lemma wp_for_each_inv {A} (body : A → M unit) l ai :
  (∀ x ai, I ai → wp (body x) (λ _ ai', I ai') ai) →
  I ai → wp (for_each body l) (λ _ ai', I ai') ai.
Proof.
  intros Hbody. revert ai. induction l as [|x l IH]; intros ai HI; simpl.
  - by apply wp_ret.
  - apply wp_bind. eapply wp_mono; [by apply Hbody |]. intros ? ai' HI'.
    cbn beta. by apply IH.
Qed.

Lemma wp_for_each_changed_inv {A} (body : A → M bool) l changed ai :
  (∀ x ai, I ai → wp (body x) (λ _ ai', I ai') ai) →
  I ai → wp (for_each_changed body l changed) (λ _ ai', I ai') ai.
Proof.
  intros Hbody. revert changed ai.
  induction l as [|x l IH]; intros changed ai HI; simpl.
  - by apply wp_ret.
  - apply wp_bind. eapply wp_mono; [by apply Hbody |]. intros b ai' HI'.
    cbn beta. by apply IH.
Qed.

Lemma wp_prune_mystery_inv m changed remaining ai :
  I ai → wp (prune_mystery m changed remaining) (λ _ ai', I ai') ai.
Proof.
  intros HI. unfold prune_mystery. wp_step.
  set (prunedCards := filter _ _).
  apply wp_bind.
  apply (wp_mono _ (λ _ ai', I ai')).
  { wp_step; [wp_step |]; by wp_step. }
  intros [m' changed'] ai' HI'. cbn beta iota.
  wp_step.
  - wp_step; [by destruct (mapKeys_nonempty prunedCards) |].
    wp_step. apply wp_bind. eapply wp_mono; [by apply I_mark |].
    intros b ai2 HI2. by wp_step.
  - wp_step; by wp_step.
Qed.

Lemma wp_prune_loop_inv ms changed remaining ai :
  I ai → wp (prune_loop ms changed remaining) (λ _ ai', I ai') ai.
Proof.
  revert changed remaining ai.
  induction ms as [|m ms IH]; intros changed remaining ai HI; simpl.
  - by wp_step.
  - apply wp_bind. eapply wp_mono; [by apply wp_prune_mystery_inv |].
    intros [c r] ai' HI'. by apply IH.
Qed.

Lemma wp_pruneAndSolveMysteries_inv ai :
  I ai → wp _pruneAndSolveMysteries (λ _ ai', I ai') ai.
Proof.
  intros HI. unfold _pruneAndSolveMysteries. wp_step.
  apply wp_bind. eapply wp_mono; [by apply wp_prune_loop_inv |].
  intros [c r] ai' HI'. cbn beta iota. wp_step. wp_step. wp_step. by apply I_unresolved.
Qed.

Lemma wp_deduce_card_location_inv card ai :
  I ai → wp (deduce_card_location card) (λ _ ai', I ai') ai.
Proof.
  intros HI. unfold deduce_card_location. do 3 wp_step.
  destruct (negb b && bool_decide (length l = 1)) eqn:Hb.
  - wp_step; [|by apply I_mark].
    apply andb_true_iff in Hb as [_ Hb]. by apply bool_decide_eq_true in Hb.
  - by wp_step.
Qed.

Lemma wp_deduceCardLocationsByElimination_inv ai :
  I ai → wp _deduceCardLocationsByElimination (λ _ ai', I ai') ai.
Proof.
  intros HI. unfold _deduceCardLocationsByElimination. wp_step.
  apply wp_for_each_changed_inv; [|done].
  intros. by apply wp_deduce_card_location_inv.
Qed.

Lemma wp_deduce_solution_inv cat ai :
  I ai → wp (deduce_solution cat) (λ _ ai', I ai') ai.
Proof.
  intros HI. unfold deduce_solution. do 3 wp_step; [by wp_step |].
  cbv zeta. wp_step; [|by wp_step].
  wp_step; [done | by apply I_mark].
Qed.

Lemma wp_deduceSolutionByElimination_inv ai :
  I ai → wp _deduceSolutionByElimination (λ _ ai', I ai') ai.
Proof.
  intros HI. apply wp_for_each_changed_inv; [|done].
  intros. by apply wp_deduce_solution_inv.
Qed.

Lemma wp_deduction_pass_inv ai :
  I ai → wp deduction_pass (λ _ ai', I ai') ai.
Proof.
  intros HI. unfold deduction_pass.
  apply wp_bind. eapply wp_mono; [by apply wp_pruneAndSolveMysteries_inv |].
  intros b1 ai1 HI1. cbn beta.
  apply wp_bind. eapply wp_mono; [by apply wp_deduceSolutionByElimination_inv |].
  intros b2 ai2 HI2. cbn beta.
  apply wp_bind.
  eapply wp_mono; [by apply wp_deduceCardLocationsByElimination_inv |].
  intros b3 ai3 HI3. by wp_step.
Qed.

Lemma wp_deduction_loop_inv bound ai :
  I ai → wp (deduction_loop bound) (λ _ ai', I ai') ai.
Proof.
  revert ai. induction bound as [|bound IH]; intros ai HI; simpl.
  - by wp_step.
  - apply wp_bind. eapply wp_mono; [by apply wp_deduction_pass_inv |].
    intros [] ai' HI'; [by apply IH | by wp_step].
Qed.

Lemma wp_runDeductionLoop_inv ai :
  I ai → wp _runDeductionLoop (λ _ ai', I ai') ai.
Proof. apply wp_deduction_loop_inv. Qed.

Lemma wp_ReceiveHand_inv cards ai :
  I ai → wp (ReceiveHand cards) (λ _ ai', I ai') ai.
Proof.
  intros HI. unfold ReceiveHand. apply wp_bind.
  eapply wp_mono.
  - apply wp_for_each_inv; [|done]. clear ai HI. intros card ai HI.
    wp_step. wp_step. apply wp_bind.
    eapply wp_mono; [apply I_mark; by apply I_hand |].
    intros b ai' HI'. by wp_step.
  - intros ? ai' HI'. by apply wp_runDeductionLoop_inv.
Qed.

Lemma wp_Choose_inv cards ai :
  I ai → wp (Choose cards) (λ _ ai', I ai') ai.
Proof.
  intros HI. eapply wp_mono; [by apply wp_Choose_keeps |]. by intros ? ? [? _].
Qed.


Lemma wp_fill_unknown_inv cat suggestion ai :
  I ai → wp (fill_unknown cat suggestion) (λ _ ai', I ai') ai.
Proof.
  apply wp_fill_unknown_keeps_inv; [done |].
  intros c l ai0 HI0 _. by apply I_cards.
Qed.


Lemma wp_Exploit_fill_inv known cats suggestion ai :
  I ai → wp (Exploit_fill known cats suggestion) (λ _ ai', I ai') ai.
Proof.
  apply wp_Exploit_fill_keeps; [done |].
  intros c l ai0 HI0 _. by apply I_cards.
Qed.

Lemma wp_mustBuild_inv ai : I ai → wp mustBuild (λ _ ai', I ai') ai.
Proof.
  apply wp_mustBuild_keeps; [done |]. intros c l ai0 HI0 _. by apply I_cards.
Qed.

Lemma wp_ShouldAccuse_inv ai : I ai → wp ShouldAccuse (λ _ ai', I ai') ai.
Proof.
  intros HI. unfold ShouldAccuse. apply wp_bind.
  apply (wp_mono _ (λ _ ai', I ai')).
  - generalize (∅ : gmap CardCategory string) as solution.
    induction categories as [|cat cats IH]; intros solution; simpl.
    + by wp_step.
    + apply wp_bind. unfold ShouldAccuse_loop_body. do 2 wp_step. cbv zeta.
      wp_step; wp_step; [by apply IH | by wp_step].
  - intros [solution|] ai' HI'; [|by wp_step].
    wp_step; [wp_step |]; by wp_step.
Qed.

Section WithRange.

Variable range : ∀ A : Type, list A → list A.

Lemma wp_processTurnEvent_inv event ai :
  I ai → wp (processTurnEvent range event) (λ _ ai', I ai') ai.
Proof.
  intros HI. unfold processTurnEvent. wp_step.
  { wp_step; [|by wp_step].
    apply wp_bind. eapply wp_mono; [by apply I_mark |].
    intros b ai' HI'. by wp_step. }
  wp_step. apply wp_bind.
  apply (wp_mono _ (λ _ ai', I ai')).
  2:{ intros ? ai' HI'. by apply wp_runDeductionLoop_inv. }
  wp_step.
  - wp_step.
    { apply wp_bind. eapply wp_mono; [by apply I_mark |].
      intros b ai' HI'. by wp_step. }
    wp_step; [|by wp_step]. wp_step.
    apply wp_for_each_inv; [|done]. intros card ai0 HI0.
    unfold mark_unless_held.
    wp_step. wp_step; [by wp_step |].
    apply wp_bind. eapply wp_mono; [by apply I_mark |].
    intros b ai' HI'. by wp_step.
  - wp_step; [|by wp_step]. wp_step.
    unfold wp, logf. by apply I_unresolved.
Qed.

Lemma wp_HandleEvent_inv e ai :
  I ai → wp (HandleEvent range e) (λ _ ai', I ai') ai.
Proof.
  intros HI. destruct e as [event|]; simpl.
  - by apply wp_processTurnEvent_inv.
  - by wp_step.
Qed.

Lemma wp_ChooseCardToShow_inv suggestion ai :
  I ai → wp (ChooseCardToShow range suggestion) (λ _ ai', I ai') ai.
Proof.
  by apply wp_ChooseCardToShow_keeps.
Qed.

Lemma wp_BuildSuggestion_inv s ai :
  I ai → wp (BuildSuggestion range s) (λ _ ai', I ai') ai.
Proof.
  apply wp_BuildSuggestion_keeps; [done.. |].
  intros c l ai0 HI0 _. by apply I_cards.
Qed.

Lemma wp_MakeSuggestion_inv ai :
  I ai → wp (MakeSuggestion range) (λ _ ai', I ai') ai.
Proof.
  apply wp_MakeSuggestion_keeps; [done.. |].
  intros c l ai0 HI0 _. by apply I_cards.
Qed.

End WithRange.

End Invariant.

(** ** [Load] and [Setup] *)

Lemma foldl_register_ok cat cards (acc : list string * gmap string CardCategory) :
  (∀ card, is_Some (acc.2 !! card) → card ∈ acc.1) →
  ∀ card, is_Some ((foldl (register cat) acc cards).2 !! card) →
          card ∈ (foldl (register cat) acc cards).1.
Proof.
  revert acc. induction cards as [|c cards IH]; intros acc Hacc; [done |].
  simpl. apply IH. intros card. unfold register; simpl.
  destruct (decide (card = c)) as [->|Hne].
  - intros _. apply elem_of_app. right. left.
  - rewrite lookup_insert_ne by done. intros H. apply elem_of_app. left. auto.
Qed.

Lemma Load_catalog_ok suspects weapons rooms :
  catalog_ok (Load suspects weapons rooms).
Proof.
  unfold catalog_ok, Load; simpl.
  do 3 apply foldl_register_ok. simpl. intros card [x Hx].
  by rewrite lookup_empty in Hx.
Qed.

Lemma Setup_row cfg playerNames myName ch r card :
  card ∈ AllCards cfg →
  is_Some (knowledge (Setup cfg playerNames myName ch r) !! card).
Proof.
  simpl. generalize (∅ : gmap string (gmap string CardStatus)).
  induction (AllCards cfg) as [|c cards IH]; intros k Hin; simpl.
  - by apply elem_of_nil in Hin.
  - destruct (decide (card ∈ cards)) as [Hc|Hc]; [by apply IH |].
    apply elem_of_cons in Hin as [->|?]; [|done].
    clear IH. revert k. induction cards as [|c' cards IH]; intros k; simpl.
    + rewrite lookup_insert_eq. eauto.
    + apply not_elem_of_cons in Hc as [Hne Hc].
      rewrite (insert_insert_ne k) by done. by apply IH.
Qed.

Lemma Setup_status cfg playerNames myName ch r card l :
  status (knowledge (Setup cfg playerNames myName ch r)) card l = StatusMaybe.
Proof.
  simpl.
  assert (∀ (row : gmap string CardStatus) ps,
    (∀ p s, row !! p = Some s → s = StatusMaybe) →
    ∀ p s, foldl (λ row pName, <[pName := StatusMaybe]> row) row ps !! p
           = Some s → s = StatusMaybe) as Hrow.
  { intros row ps. revert row. induction ps as [|q ps IH]; intros row Hr; [done |].
    simpl. apply IH. intros p s. destruct (decide (p = q)) as [->|Hne].
    - rewrite lookup_insert_eq. congruence.
    - rewrite lookup_insert_ne by done. apply Hr. }
  assert (∀ (k : gmap string (gmap string CardStatus)) cards,
    (∀ c l, status k c l = StatusMaybe) →
    ∀ c l, status
      (foldl (λ k card,
                <[card := <["solution" := StatusMaybe]>
                            (foldl (λ row pName, <[pName := StatusMaybe]> row)
                                   ∅ playerNames)]> k) k cards) c l
      = StatusMaybe) as Hk.
  { intros k cards. revert k. induction cards as [|c' cards IH]; intros k Hk; [done |].
    simpl. apply IH. intros c l0. unfold status.
    destruct (decide (c = c')) as [->|Hne].
    - rewrite lookup_insert_eq; simpl.
      destruct (decide (l0 = "solution")) as [->|Hl].
      + by rewrite lookup_insert_eq.
      + rewrite lookup_insert_ne by done.
        destruct (foldl _ _ _ !! l0) as [s|] eqn:E; [|done]. simpl.
        eapply Hrow; [|exact E]. intros p s'. by rewrite lookup_empty.
    - rewrite lookup_insert_ne by done. apply Hk. }
  apply Hk. intros c l0. unfold status. by rewrite lookup_empty.
Qed.

Lemma Setup_grid_ok cfg playerNames myName ch r :
  catalog_ok cfg → grid_ok (Setup cfg playerNames myName ch r).
Proof.
  intros Hcat. split.
  - intros card Hc. apply Setup_row. by apply Hcat.
  - intros card l l' _ _. by rewrite Setup_status.
Qed.

(** ** Every state the brain goes through has a well-formed grid *)

Lemma grid_ok_set_cards cat l ai :
  grid_ok ai →
  grid_ok (set_config (set_CardListForCategory cat l (config ai)) ai).
Proof. by destruct cat. Qed.

Lemma reachable_grid_ok range ai : reachable range ai → grid_ok ai.
Proof.
  induction 1 as [cfg ps me ch r Hcat
                 |ai cards ai' out _ IH Hrun
                 |ai e ai' out _ IH Hrun
                 |ai s ai' out _ IH Hrun
                 |ai s ai' out _ IH Hrun
                 |ai sg card ai' out _ IH Hrun].
  - by apply Setup_grid_ok.
  - assert (wp (ReceiveHand cards) (λ _ ai', grid_ok ai') ai) as Hwp.
    { apply wp_ReceiveHand_inv;
        first [apply wp_mark_grid_ok | by intros ? ? ? | done]. }
    unfold wp in Hwp. by rewrite Hrun in Hwp.
  - assert (wp (HandleEvent range e) (λ _ ai', grid_ok ai') ai) as Hwp.
    { apply wp_HandleEvent_inv;
        first [apply wp_mark_grid_ok | by intros ? ? ? | done]. }
    unfold wp in Hwp. by rewrite Hrun in Hwp.
  - assert (wp (MakeSuggestion range) (λ _ ai', grid_ok ai') ai) as Hwp.
    { apply wp_MakeSuggestion_inv;
        first [apply grid_ok_set_cards | by intros ? ? ? | done]. }
    unfold wp in Hwp. by rewrite Hrun in Hwp.
  - assert (wp ShouldAccuse (λ _ ai', grid_ok ai') ai) as Hwp.
    { by apply wp_ShouldAccuse_inv. }
    unfold wp in Hwp. by rewrite Hrun in Hwp.
  - assert (wp (ChooseCardToShow range sg) (λ _ ai', grid_ok ai') ai) as Hwp.
    { apply wp_ChooseCardToShow_inv; first [by intros ? ? ? | done]. }
    unfold wp in Hwp. by rewrite Hrun in Hwp.
Qed.

Lemma reachable_ReceiveHand range cards ai :
  reachable range ai → reachable range (run_from (ReceiveHand cards) ai).
Proof.
  intros Hreach. pose proof (reachable_grid_ok _ _ Hreach) as Hok.
  assert (wp (ReceiveHand cards) (λ _ ai', grid_ok ai') ai) as Hwp.
  { apply wp_ReceiveHand_inv;
      first [apply wp_mark_grid_ok | by intros ? ? ? | done]. }
  apply wp_Ok in Hwp as ([] & ai' & out & Hrun & _).
  unfold run_from. rewrite Hrun. by eapply reach_ReceiveHand.
Qed.

Lemma reachable_HandleEvent range e ai :
  reachable range ai → reachable range (run_from (HandleEvent range e) ai).
Proof.
  intros Hreach. pose proof (reachable_grid_ok _ _ Hreach) as Hok.
  assert (wp (HandleEvent range e) (λ _ ai', grid_ok ai') ai) as Hwp.
  { apply wp_HandleEvent_inv;
      first [apply wp_mark_grid_ok | by intros ? ? ? | done]. }
  apply wp_Ok in Hwp as ([] & ai' & out & Hrun & _).
  unfold run_from. rewrite Hrun. by eapply reach_HandleEvent.
Qed.

Lemma fresh_brain_reachable range r : reachable range (fresh_brain r).
Proof. apply reach_Setup, Load_catalog_ok. Qed.

Lemma range_listed_perm A (l : list A) : range_listed A l ≡ₚ l.
Proof. done. Qed.

Lemma brain_with_three_cards_reachable :
  reachable range_listed brain_with_three_cards.
Proof. apply reachable_ReceiveHand, fresh_brain_reachable. Qed.



Lemma brain_with_two_mysteries_reachable :
  reachable range_listed brain_with_two_mysteries.
Proof. do 2 apply reachable_HandleEvent. apply fresh_brain_reachable. Qed.

Lemma brain_knowing_solution_reachable :
  reachable range_listed brain_knowing_solution.
Proof. apply reachable_HandleEvent, brain_with_three_cards_reachable. Qed.

(** ** The Knowledge Grid *)






(** C4.  For a card that is not a key of [CardToType], whatever the
    location, [mark] hands one error line to the logger, returns false and
    leaves every field of the brain as it was. *)
Theorem C4_mark_of_unknown_card_is_reported_no_op card location ai :
  CardToType (config ai) !! card = None →
  _markCardLocation card location ai = Ok false ai [ErrorInvalidCard card].
Proof.
  intros Hnone. apply mark_invalid. unfold in_catalog. rewrite Hnone.
  by intros [? ?].
Qed.

Lemma C4_witness_unknown_card :
  _markCardLocation "Poison" "Player 2" (fresh_brain [])
  = Ok false (fresh_brain []) [ErrorInvalidCard "Poison"].
Proof.
  apply C4_mark_of_unknown_card_is_reported_no_op.
  vm_compute. reflexivity.
Defined.

(** ** Event processing *)

(** C10.  A direct reveal (the suggester is the ["Game Event"] marker) whose
    disprover field or revealed-card field is empty leaves the brain as it
    was: the grid, the mysteries, the Recent-Targets buffer, the hand and
    every other field are unchanged, and nothing is logged. *)
Theorem C10_direct_reveal_with_empty_field_changes_nothing range event ai :
  SuggesterName event = "Game Event" →
  DisproverName event = "" ∨ RevealedCard event = "" →
  HandleEvent range (TurnResolved event) ai = Ok tt ai [].
Proof.
  intros Hs Hempty. simpl. unfold processTurnEvent.
  rewrite decide_True by done. rewrite decide_False; [done |].
  intros [? ?]. by destruct Hempty.
Qed.

Lemma C10_witness_reveal_without_card :
  HandleEvent range_listed (TurnResolved (reveal "" "Player 2"))
    brain_with_four_suspects
  = Ok tt brain_with_four_suspects [].
Proof.
  apply C10_direct_reveal_with_empty_field_changes_nothing.
  - reflexivity.
  - right. reflexivity.
Defined.

(** C1, where the code departs from it.  The first player holds four of
    the six suspects and is told by a direct reveal that the second player
    holds a fifth.  [HandleEvent] marks the card and returns: the sixth
    suspect still reads Maybe at ["solution"] and no accusation is proposed.
    The Deduction Loop, run on the state the handler left, marks the sixth
    suspect Yes at ["solution"]: it had not been run. *)
Theorem C1_direct_reveal_returns_before_deduction_loop :
  returned (HandleEvent range_listed
              (TurnResolved (reveal "Professor Plum" "Player 2")))
           brain_with_four_suspects = Some tt ∧
  status (knowledge brain_told_of_plum) "Professor Plum" "Player 2"
    = StatusYes ∧
  status (knowledge brain_told_of_plum) "Mrs. White" "solution"
    = StatusMaybe ∧
  returned ShouldAccuse brain_told_of_plum = Some None ∧
  returned _runDeductionLoop brain_told_of_plum = Some tt ∧
  status (knowledge (run_from _runDeductionLoop brain_told_of_plum))
         "Mrs. White" "solution" = StatusYes.
Proof. repeat apply conj; vm_compute; reflexivity. Qed.

(** ** The Deduction Loop *)

Lemma bind_gets {A B} (proj : AdvancedAIBrain → A) (f : A → M B) ai :
  bind (gets proj) f ai = f (proj ai) ai.
Proof. unfold bind, gets. by destruct (f (proj ai) ai). Qed.

Lemma bind_modify {B} g (f : unit → M B) ai :
  bind (modify g) f ai = f tt (g ai).
Proof. unfold bind, modify. by destruct (f tt (g ai)). Qed.

Lemma bind_ret {A B} (a : A) (f : A → M B) ai : bind (ret a) f ai = f a ai.
Proof. unfold bind, ret. by destruct (f a ai). Qed.

Lemma bind_logf_Ok {B} e (f : unit → M B) ai b ai' out :
  bind (logf e) f ai = Ok b ai' out →
  ∃ out', f tt ai = Ok b ai' out' ∧ out = e :: out'.
Proof.
  unfold bind, logf. destruct (f tt ai) as [|b' ai2 out']; [done |].
  intros [= -> -> <-]. eauto.
Qed.














(** ** The accusation *)

Lemma first_yes_Some k l card :
  first_yes k l = Some card →
  card ∈ l ∧ status k card "solution" = StatusYes.
Proof.
  induction l as [|c l IH]; simpl; [done |].
  case_decide as Hc.
  - intros [= <-]. split; [left | done].
  - intros [? ?]%IH. split; [by right | done].
Qed.

Lemma first_yes_None k l :
  first_yes k l = None →
  ∀ card, card ∈ l → status k card "solution" ≠ StatusYes.
Proof.
  induction l as [|c l IH]; simpl; intros Hn card Hin.
  - by apply elem_of_nil in Hin.
  - case_decide as Hc; [done |].
    apply elem_of_cons in Hin as [->|?]; auto.
Qed.

Lemma bind_quiet {A B} (m : M A) (f : A → M B) ai a :
  m ai = Ok a ai [] → bind m f ai = f a ai.
Proof. intros Hm. unfold bind. rewrite Hm. by destruct (f a ai). Qed.

Lemma ShouldAccuse_loop_body_run cat solution ai :
  ShouldAccuse_loop_body cat solution ai
  = Ok (match first_yes (knowledge ai) (CardListForCategory (config ai) cat) with
        | Some card =>
            if decide (card ≠ "") then Some (<[cat := card]> solution)
            else None
        | None => None
        end) ai [].
Proof.
  unfold ShouldAccuse_loop_body. rewrite !bind_gets. cbv zeta.
  destruct (first_yes _ _) as [card|]; simpl.
  - by case_decide.
  - first [done | by case_decide].
Qed.


(** ** The Mystery Tracker *)

Lemma mark_commits card location ai b ai' out :
  _markCardLocation card location ai = Ok b ai' out →
  in_catalog ai card →
  status (knowledge ai') card location = StatusYes.
Proof.
  intros Hm Hcat.
  destruct (decide (status (knowledge ai) card location = StatusYes)) as [Hs|Hs].
  - rewrite mark_known in Hm by done. by injection Hm as _ <- _.
  - destruct (knowledge ai !! card) eqn:Hrow.
    + rewrite mark_fresh in Hm by eauto. injection Hm as _ <- _.
      rewrite status_marked. by rewrite !decide_True.
    + by rewrite mark_unallocated in Hm.
Qed.

Lemma filter_same_size (P : string → Prop) `{!∀ x, Decision (P x)}
    (X : gset string) :
  ¬ size (filter P X) < size X → filter P X = X.
Proof.
  intros Hsize. apply set_eq. intros x. split.
  - by intros [_ ?]%elem_of_filter.
  - intros Hx. destruct (decide (x ∈ filter P X)) as [|Hnot]; [done |].
    exfalso. apply Hsize.
    apply subset_size. split; [by intros y [_ ?]%elem_of_filter |].
    intros Hsub. apply Hnot. by apply Hsub.
Qed.

Lemma mapKeys_singleton (X : gset string) :
  size X = 1 → ∃ card, X = {[card]} ∧ mapKeys X = [card].
Proof.
  intros [card Hx]%size_1_elem_of. apply leibniz_equiv in Hx.
  exists card. split; [done |]. subst X. unfold mapKeys.
  rewrite elements_singleton.
  apply Permutation_singleton_r, sort_Strings_perm.
Qed.

Lemma UnresolvedSuggestion_eta m :
  {| Disprover := Disprover m; PossibleCards := PossibleCards m |} = m.
Proof. by destruct m. Qed.

(** What one iteration of the pruning loop does with its mystery. *)
Lemma prune_mystery_inv m changed remaining ai c' r' ai' out :
  prune_mystery m changed remaining ai = Ok (c', r') ai' out →
  (2 ≤ size (pruned (knowledge ai) m) ∧ ai' = ai ∧
   r' = remaining ++ [{| Disprover := Disprover m;
                         PossibleCards := pruned (knowledge ai) m |}]) ∨
  (∃ card b o,
     pruned (knowledge ai) m = {[card]} ∧
     _markCardLocation card (Disprover m) ai = Ok b ai' o ∧
     r' = remaining) ∨
  (pruned (knowledge ai) m = ∅ ∧ ai' = ai ∧ r' = remaining).
Proof.
  unfold prune_mystery. rewrite bind_gets. cbv zeta.
  fold (pruned (knowledge ai) m). set (P := pruned (knowledge ai) m).
  intros ([m' c1] & ai1 & o1 & o2 & Hshrink & Hrest & _)%bind_Ok.
  assert (ai1 = ai ∧
          m' = {| Disprover := Disprover m; PossibleCards := P |})
    as [-> ->].
  { destruct (decide (size P < size (PossibleCards m))) as [?|Hsame].
    - by apply bind_logf_Ok in Hshrink as (? & [= <- <- <-] & _).
    - injection Hshrink as <- <- <-. split; [done |].
      unfold P, pruned. rewrite filter_same_size by done.
      by rewrite UnresolvedSuggestion_eta. }
  cbn beta iota in Hrest.
  destruct (decide (size P = 1)) as [Hone|Hnot1].
  - right. left. destruct (mapKeys_singleton P Hone) as (card & HP & Hkeys).
    rewrite Hkeys in Hrest.
    apply bind_logf_Ok in Hrest as (? & Hrest & _).
    apply bind_Ok in Hrest as (b & ai2 & o & ? & Hmark & Hret & _).
    injection Hret as _ <- <-. by exists card, b, o.
  - destruct (decide (1 < size P)).
    + left. injection Hrest as _ <- <-. split; [lia | done].
    + right. right. injection Hrest as _ <- <-.
      split; [|done]. apply leibniz_equiv, size_empty_inv. lia.
Qed.

Lemma prune_loop_inv ms changed remaining ai c' r' ai' out :
  prune_loop ms changed remaining ai = Ok (c', r') ai' out →
  ∃ kept, r' = remaining ++ kept ∧ pruning_pass ai ms ai' kept.
Proof.
  revert changed remaining ai out.
  induction ms as [|m ms IH]; intros changed remaining ai out; simpl.
  - intros [= _ <- <-]. exists []. split; [by rewrite app_nil_r | constructor].
  - intros ([c1 r1] & ai1 & o1 & o2 & Hm & Hl & _)%bind_Ok.
    apply IH in Hl as (kept & -> & Hpass).
    apply prune_mystery_inv in Hm
      as [(Hsize & -> & ->)|[(card & b & o & HP & Hmark & ->)|(HP & -> & ->)]].
    + eexists. split; [by rewrite <- app_assoc |].
      by apply pruning_keep.
    + exists kept. split; [done |].
      eapply pruning_solve; [done.. | | done].
      by eapply mark_commits.
    + exists kept. split; [done |]. by apply pruning_drop_empty.
Qed.


(** ** The Surgical Strike strategy *)

Lemma wp_conj {A} (m : M A) (Q1 Q2 : A → AdvancedAIBrain → Prop) ai :
  wp m Q1 ai → wp m Q2 ai → wp m (λ a ai', Q1 a ai' ∧ Q2 a ai') ai.
Proof. unfold wp. by destruct (m ai). Qed.







Section Surgical.

Variable range : ∀ A : Type, list A → list A.
Hypothesis range_perm : ∀ A (l : list A), range A l ≡ₚ l.




End Surgical.

Lemma set_rand_same ai : set_rand (rand ai) ai = ai.
Proof. by destruct ai. Qed.

Lemma set_knowledge_same ai : set_knowledge (knowledge ai) ai = ai.
Proof. by destruct ai. Qed.

(** [_markCardLocation] writes the grid and nothing else. *)
Lemma mark_frame card location ai b ai' out :
  _markCardLocation card location ai = Ok b ai' out →
  ai' = set_knowledge (knowledge ai') ai.
Proof.
  intros [[_ ->]|(_ & -> & _)]%mark_inv.
  - by rewrite set_knowledge_same.
  - done.
Qed.

(** What the two choosers return on a slice that is not empty. *)
Lemma Choose_spec cards ai :
  cards ≠ [] →
  ∃ card cards' r,
    Choose cards ai = Ok (card, cards') (set_rand r ai) [] ∧
    card ∈ cards ∧
    (chooser ai = DeterministicChooser →
     r = rand ai ∧ ∀ x, x ∈ cards → string_le card x).
Proof.
  intros Hne. unfold Choose. rewrite bind_gets.
  assert (length cards ≠ 0) as Hlen by (by destruct cards).
  destruct (chooser ai).
  - rewrite decide_False by done. rewrite bind_gets.
    pose proof (lookup_Intn_is_Some cards (rand ai)) as [card Hcard]; [lia |].
    destruct (Intn (length cards) (rand ai)) as [i r'] eqn:Hi.
    simpl in Hcard. rewrite bind_modify, Hcard.
    exists card, cards, r'. split; [done |]. split; [|done].
    by eapply list_elem_of_lookup_2.
  - rewrite decide_False by done. cbv zeta.
    destruct (sort_Strings cards) as [|card rest] eqn:Hs.
    { pose proof (sort_Strings_length cards) as Hl. rewrite Hs in Hl.
      simpl in Hl. lia. }
    apply sort_Strings_head in Hs as [Hin Hmin].
    exists card, (card :: rest), (rand ai). rewrite set_rand_same.
    split; [|done]. pose proof (sort_Strings_head cards card rest) as _.
    reflexivity.
Qed.


(** ** What the suggestion built around a target contains *)





(** ** More on the states the brain goes through *)

Lemma wp_mark_keeps_recent card location ai :
  grid_ok ai ∧ maxSize (recentSurgicalTargets ai) = 3 →
  wp (_markCardLocation card location)
     (λ _ ai', grid_ok ai' ∧ maxSize (recentSurgicalTargets ai') = 3) ai.
Proof.
  intros [Hok Hmax]. pose proof (wp_mark_grid_ok card location ai Hok) as Hwp.
  apply wp_Ok in Hwp as (b & ai' & out & Hrun & Hok').
  apply wp_Ok. exists b, ai', out. split; [done |]. split; [done |].
  apply mark_frame in Hrun. by rewrite Hrun.
Qed.

Lemma reachable_maxSize range ai :
  reachable range ai → maxSize (recentSurgicalTargets ai) = 3.
Proof.
  intros Hreach.
  cut (grid_ok ai ∧ maxSize (recentSurgicalTargets ai) = 3); [by intros [_ ?] |].
  induction Hreach as [cfg ps me ch r Hcat
                 |ai cards ai' out _ IH Hrun
                 |ai e ai' out _ IH Hrun
                 |ai s ai' out _ IH Hrun
                 |ai s ai' out _ IH Hrun
                 |ai sg card ai' out _ IH Hrun].
  - split; [by apply Setup_grid_ok | done].
  - eassert (wp (ReceiveHand cards) _ ai) as Hwp.
    { apply wp_ReceiveHand_inv;
        first [apply wp_mark_keeps_recent | by intros ? ? ? | exact IH]. }
    unfold wp in Hwp. by rewrite Hrun in Hwp.
  - eassert (wp (HandleEvent range e) _ ai) as Hwp.
    { apply wp_HandleEvent_inv;
        first [apply wp_mark_keeps_recent | by intros ? ? ? | exact IH]. }
    unfold wp in Hwp. by rewrite Hrun in Hwp.
  - eassert (wp (MakeSuggestion range) _ ai) as Hwp.
    { apply (wp_MakeSuggestion_inv
               (λ ai, grid_ok ai ∧ maxSize (recentSurgicalTargets ai) = 3));
        first [by intros [] ? ? ? | by intros ? ? ? | exact IH]. }
    unfold wp in Hwp. by rewrite Hrun in Hwp.
  - eassert (wp ShouldAccuse _ ai) as Hwp.
    { apply (wp_ShouldAccuse_inv
               (λ ai, grid_ok ai ∧ maxSize (recentSurgicalTargets ai) = 3)).
      exact IH. }
    unfold wp in Hwp. by rewrite Hrun in Hwp.
  - eassert (wp (ChooseCardToShow range sg) _ ai) as Hwp.
    { apply (wp_ChooseCardToShow_inv
               (λ ai, grid_ok ai ∧ maxSize (recentSurgicalTargets ai) = 3));
        first [by intros ? ? ? | exact IH]. }
    unfold wp in Hwp. by rewrite Hrun in Hwp.
Qed.

Lemma pruning_pass_kept ai ms ai' kept :
  pruning_pass ai ms ai' kept →
  Forall (λ m, 2 ≤ size (PossibleCards m)) kept.
Proof. induction 1; auto. Qed.

Lemma pruneAndSolveMysteries_well_tracked ai b ai' out :
  _pruneAndSolveMysteries ai = Ok b ai' out → well_tracked ai'.
Proof.
  unfold _pruneAndSolveMysteries. rewrite bind_gets.
  intros ([c r] & ai1 & o1 & o2 & Hl & Hrest & _)%bind_Ok.
  cbn beta iota in Hrest. rewrite bind_gets, bind_modify in Hrest.
  injection Hrest as _ <- _.
  apply prune_loop_inv in Hl as (kept & -> & Hpass).
  unfold well_tracked; simpl. by eapply pruning_pass_kept.
Qed.

Lemma mark_keeps_mysteries card location ai b ai' out :
  _markCardLocation card location ai = Ok b ai' out →
  unresolvedSuggestions ai' = unresolvedSuggestions ai.
Proof. intros Hm. apply mark_frame in Hm. by rewrite Hm. Qed.

Lemma for_each_changed_keeps_mysteries {A} (body : A → M bool) l c ai b ai' out :
  (∀ x ai b ai' out, body x ai = Ok b ai' out →
                     unresolvedSuggestions ai' = unresolvedSuggestions ai) →
  for_each_changed body l c ai = Ok b ai' out →
  unresolvedSuggestions ai' = unresolvedSuggestions ai.
Proof.
  intros Hbody. revert c ai out.
  induction l as [|x l IH]; intros c ai out; simpl.
  - by intros [= _ <- _].
  - intros (b1 & ai1 & o1 & o2 & Hb & Hl & _)%bind_Ok.
    apply IH in Hl. apply Hbody in Hb. congruence.
Qed.

Lemma deduction_pass_well_tracked ai b ai' out :
  deduction_pass ai = Ok b ai' out → well_tracked ai'.
Proof.
  unfold deduction_pass.
  intros (b1 & ai1 & ? & ? & H1 & Hrest & _)%bind_Ok.
  apply bind_Ok in Hrest as (b2 & ai2 & ? & ? & H2 & Hrest & _).
  apply bind_Ok in Hrest as (b3 & ai3 & ? & ? & H3 & Hret & _).
  injection Hret as _ <- _.
  apply pruneAndSolveMysteries_well_tracked in H1.
  unfold _deduceCardLocationsByElimination in H3. rewrite bind_gets in H3.
  apply for_each_changed_keeps_mysteries in H3.
  2:{ intros card a b0 a' o. unfold deduce_card_location.
      rewrite !bind_gets. destruct (scan_locations _ _ _ _) as [isKnown maybes].
      destruct (negb isKnown && _); [|by intros [= _ <- _]].
      destruct maybes; [done |]. apply mark_keeps_mysteries. }
  apply for_each_changed_keeps_mysteries in H2.
  2:{ intros cat a b0 a' o. unfold deduce_solution.
      rewrite !bind_gets. case_decide; [by intros [= _ <- _] |].
      cbv zeta. case_decide; [|by intros [= _ <- _]].
      destruct (filter _ _); [done |]. apply mark_keeps_mysteries. }
  unfold well_tracked in *. congruence.
Qed.

Lemma deduction_loop_well_tracked bound ai ai' out :
  deduction_loop (S bound) ai = Ok tt ai' out → well_tracked ai'.
Proof.
  revert ai out. induction bound as [|bound IH]; intros ai out.
  - simpl. intros (b & ai1 & o1 & o2 & Hp & Hrest & _)%bind_Ok.
    apply deduction_pass_well_tracked in Hp.
    by destruct b; injection Hrest as <- _.
  - intros (b & ai1 & o1 & o2 & Hp & Hrest & _)%bind_Ok.
    destruct b; [by eapply IH |].
    apply deduction_pass_well_tracked in Hp. by injection Hrest as <- _.
Qed.

Lemma reachable_well_tracked range ai : reachable range ai → well_tracked ai.
Proof.
  induction 1 as [cfg ps me ch r Hcat
                 |ai cards ai' out _ IH Hrun
                 |ai e ai' out _ IH Hrun
                 |ai s ai' out _ IH Hrun
                 |ai s ai' out _ IH Hrun
                 |ai sg card ai' out _ IH Hrun].
  - constructor.
  - unfold ReceiveHand in Hrun.
    apply bind_Ok in Hrun as ([] & ai1 & ? & ? & _ & Hloop & _).
    by eapply (deduction_loop_well_tracked 9).
  - destruct e as [event|]; simpl in Hrun; [|by injection Hrun as <- _].
    unfold processTurnEvent in Hrun. case_decide.
    + case_decide; [|by injection Hrun as <- _].
      apply bind_Ok in Hrun as (b & ai1 & ? & ? & Hm & Hret & _).
      injection Hret as <- _. apply mark_keeps_mysteries in Hm.
      unfold well_tracked. by rewrite Hm.
    + rewrite bind_gets in Hrun.
      apply bind_Ok in Hrun as ([] & ai1 & ? & ? & _ & Hloop & _).
      by eapply (deduction_loop_well_tracked 9).
  - assert (wp (MakeSuggestion range) (λ _ ai', well_tracked ai') ai) as Hwp.
    { apply (wp_MakeSuggestion_inv well_tracked);
        first [by intros [] ? ? ? | by intros ? ? ? | done]. }
    unfold wp in Hwp. by rewrite Hrun in Hwp.
  - assert (wp ShouldAccuse (λ _ ai', well_tracked ai') ai) as Hwp.
    { by apply (wp_ShouldAccuse_inv well_tracked). }
    unfold wp in Hwp. by rewrite Hrun in Hwp.
  - assert (wp (ChooseCardToShow range sg) (λ _ ai', well_tracked ai') ai)
      as Hwp.
    { apply (wp_ChooseCardToShow_inv well_tracked);
        first [by intros ? ? ? | done]. }
    unfold wp in Hwp. by rewrite Hrun in Hwp.
Qed.



Section SurgicalStrike.

Variable range : ∀ A : Type, list A → list A.
Hypothesis range_perm : ∀ A (l : list A), range A l ≡ₚ l.


End SurgicalStrike.






(** ** Inference consults neither the chooser nor the random source *)

Lemma blind_ret {A} (a : A) : blind (ret a).
Proof. done. Qed.

Lemma blind_panic {A} : blind (@panic A).
Proof. done. Qed.

Lemma blind_logf e : blind (logf e).
Proof. done. Qed.

Lemma blind_gets {A} (proj : AdvancedAIBrain → A) :
  (∀ ch r ai, proj (reseed ch r ai) = proj ai) → blind (gets proj).
Proof. intros Hp ch r ai. unfold gets. by rewrite Hp. Qed.

Lemma blind_modify g :
  (∀ ch r ai, g (reseed ch r ai) = reseed ch r (g ai)) → blind (modify g).
Proof. intros Hg ch r ai. unfold modify. by rewrite Hg. Qed.

Lemma blind_bind {A B} (m : M A) (f : A → M B) :
  blind m → (∀ a, blind (f a)) → blind (bind m f).
Proof.
  intros Hm Hf ch r ai. unfold bind. rewrite Hm.
  destruct (m ai) as [|a ai' out]; [done |]. simpl. rewrite Hf.
  by destruct (f a ai').
Qed.

(** The methods below are built from blind pieces. *)
Ltac blind_step :=
  lazymatch goal with
  | |- blind (ret _) => apply blind_ret
  | |- blind panic => apply blind_panic
  | |- blind (logf _) => apply blind_logf
  | |- blind (gets _) => apply blind_gets; reflexivity
  | |- blind (modify _) => apply blind_modify; reflexivity
  | |- blind (bind _ _) => apply blind_bind; [|intros ?]
  | |- blind (if decide ?P then _ else _) => destruct (decide P)
  | |- blind (if ?b then _ else _) => destruct b
  | |- blind (let (_, _) := ?p in _) => destruct p
  | |- blind (match ?x with _ => _ end) => destruct x
  end.

Lemma blind_for_each {A} (body : A → M unit) l :
  (∀ x, blind (body x)) → blind (for_each body l).
Proof.
  intros Hb. induction l as [|x l IH]; simpl; [apply blind_ret |].
  apply blind_bind; auto.
Qed.

Lemma blind_for_each_changed {A} (body : A → M bool) l changed :
  (∀ x, blind (body x)) → blind (for_each_changed body l changed).
Proof.
  intros Hb. revert changed. induction l as [|x l IH]; intros changed; simpl.
  - apply blind_ret.
  - apply blind_bind; auto.
Qed.

Lemma blind_markCardLocation card location :
  blind (_markCardLocation card location).
Proof. unfold _markCardLocation. repeat blind_step. Qed.

Lemma blind_prune_mystery m changed remaining :
  blind (prune_mystery m changed remaining).
Proof.
  unfold prune_mystery. blind_step; [blind_step |]. cbv zeta.
  blind_step; [repeat blind_step |].
  repeat first [apply blind_markCardLocation | blind_step].
Qed.

Lemma blind_prune_loop ms changed remaining :
  blind (prune_loop ms changed remaining).
Proof.
  revert changed remaining.
  induction ms as [|m ms IH]; intros changed remaining; simpl.
  - apply blind_ret.
  - apply blind_bind; [apply blind_prune_mystery |]. by intros [].
Qed.

Lemma blind_pruneAndSolveMysteries : blind _pruneAndSolveMysteries.
Proof.
  unfold _pruneAndSolveMysteries.
  repeat first [apply blind_prune_loop | blind_step].
Qed.

Lemma blind_deduce_card_location card : blind (deduce_card_location card).
Proof.
  unfold deduce_card_location.
  repeat first [apply blind_markCardLocation | blind_step].
Qed.

Lemma blind_deduce_solution cat : blind (deduce_solution cat).
Proof.
  unfold deduce_solution. blind_step; [blind_step |].
  blind_step; [blind_step |]. cbv zeta.
  repeat first [apply blind_markCardLocation | blind_step].
Qed.

Lemma blind_deduction_pass : blind deduction_pass.
Proof.
  unfold deduction_pass, _deduceSolutionByElimination,
    _deduceCardLocationsByElimination.
  repeat first
    [ apply blind_pruneAndSolveMysteries
    | apply blind_for_each_changed;
        first [apply blind_deduce_solution | apply blind_deduce_card_location]
    | blind_step ].
Qed.

Lemma blind_deduction_loop bound : blind (deduction_loop bound).
Proof.
  induction bound as [|bound IH]; simpl; [apply blind_ret |].
  apply blind_bind; [apply blind_deduction_pass |].
  intros []; [done | apply blind_ret].
Qed.

Lemma blind_ReceiveHand cards : blind (ReceiveHand cards).
Proof.
  unfold ReceiveHand. apply blind_bind; [|intros ?; apply blind_deduction_loop].
  apply blind_for_each. intros card.
  repeat first [apply blind_markCardLocation | blind_step].
Qed.

Lemma blind_mark_unless_held card : blind (mark_unless_held card).
Proof.
  unfold mark_unless_held.
  repeat first [apply blind_markCardLocation | blind_step].
Qed.

Lemma blind_HandleEvent range e : blind (HandleEvent range e).
Proof.
  destruct e as [event|]; simpl; [|apply blind_ret].
  unfold processTurnEvent, _runDeductionLoop.
  repeat first
    [ apply blind_markCardLocation
    | apply blind_deduction_loop
    | apply blind_for_each; apply blind_mark_unless_held
    | blind_step ].
Qed.

Lemma blind_ShouldAccuse : blind ShouldAccuse.
Proof.
  unfold ShouldAccuse. apply blind_bind.
  - generalize (∅ : gmap CardCategory string).
    induction categories as [|cat cats IH]; intros solution; simpl.
    + apply blind_ret.
    + apply blind_bind.
      * unfold ShouldAccuse_loop_body. repeat blind_step.
      * intros [s|]; [apply IH | apply blind_ret].
  - intros [s|]; repeat blind_step.
Qed.

(** ** Inference does not depend on the order maps are visited in *)

Lemma same_outcome_refl {A} (r : Res A) : same_outcome r r.
Proof. by destruct r. Qed.

Lemma same_outcome_trans {A} (r1 r2 r3 : Res A) :
  same_outcome r1 r2 → same_outcome r2 r3 → same_outcome r1 r3.
Proof.
  destruct r1, r2, r3; simpl; try done. intros [-> ->] [-> ->]. done.
Qed.

Lemma same_outcome_bind {A B} (m1 m2 : M A) (f1 f2 : A → M B) ai :
  same_outcome (m1 ai) (m2 ai) →
  (∀ a ai', same_outcome (f1 a ai') (f2 a ai')) →
  same_outcome (bind m1 f1 ai) (bind m2 f2 ai).
Proof.
  intros Hm Hf. unfold bind.
  destruct (m1 ai) as [|a1 ai1 o1], (m2 ai) as [|a2 ai2 o2]; simpl in *;
    try done.
  destruct Hm as [-> ->]. specialize (Hf a2 ai2).
  by destruct (f1 a2 ai2), (f2 a2 ai2).
Qed.

Lemma status_marked_ne card location ai c l :
  c ≠ card →
  status (knowledge (marked card location ai)) c l = status (knowledge ai) c l.
Proof. intros Hne. rewrite status_marked. by rewrite decide_False. Qed.

Lemma lookup_marked_ne card location ai c :
  c ≠ card → knowledge (marked card location ai) !! c = knowledge ai !! c.
Proof. intros Hne. unfold marked; simpl. by rewrite lookup_insert_ne. Qed.

(** Marks of two cards write two rows. *)
Lemma marked_comm c1 l1 c2 l2 ai :
  c1 ≠ c2 →
  marked c1 l1 (marked c2 l2 ai) = marked c2 l2 (marked c1 l1 ai).
Proof.
  intros Hne. unfold marked, set_knowledge; simpl. f_equal.
  rewrite !lookup_insert_ne by done. by apply insert_insert_ne.
Qed.

Lemma mark_outcome_marked_ne c1 l1 c2 l2 ai :
  c1 ≠ c2 →
  mark_outcome c1 l1 (marked c2 l2 ai) = marked c2 l2 <$> mark_outcome c1 l1 ai.
Proof.
  intros Hne. unfold mark_outcome.
  change (in_catalog (marked c2 l2 ai) c1) with (in_catalog ai c1).
  rewrite status_marked_ne, lookup_marked_ne by done.
  repeat case_decide; simpl; try done. by rewrite marked_comm.
Qed.

Lemma held_outcome_marked_ne c1 c2 l2 ai :
  c1 ≠ c2 →
  held_outcome c1 (marked c2 l2 ai) = marked c2 l2 <$> held_outcome c1 ai.
Proof.
  intros Hne. unfold held_outcome.
  change (hand (marked c2 l2 ai)) with (hand ai).
  case_decide; [done |]. by apply mark_outcome_marked_ne.
Qed.

Lemma held_outcome_cases card ai :
  held_outcome card ai = None ∨ held_outcome card ai = Some ai ∨
  held_outcome card ai = Some (marked card "solution" ai).
Proof. unfold held_outcome, mark_outcome. repeat case_decide; auto. Qed.

Lemma held_outcome_comm x y ai :
  held_outcome x ai ≫= held_outcome y = held_outcome y ai ≫= held_outcome x.
Proof.
  destruct (decide (x = y)) as [->|Hne]; [done |].
  destruct (held_outcome_cases x ai) as [Hx|[Hx|Hx]],
           (held_outcome_cases y ai) as [Hy|[Hy|Hy]];
    rewrite Hx, Hy; simpl;
    rewrite ?held_outcome_marked_ne by done; rewrite ?Hx, ?Hy; simpl;
    try done.
  by rewrite marked_comm.
Qed.

(** What [mark_unless_held] does, in terms of the state. *)
Lemma mark_unless_held_outcome card ai :
  match held_outcome card ai with
  | Some ai' => ∃ out, mark_unless_held card ai = Ok tt ai' out
  | None => mark_unless_held card ai = Panic
  end.
Proof.
  unfold mark_unless_held, held_outcome, mark_outcome. rewrite bind_gets.
  case_decide; [by eexists |].
  destruct (decide (in_catalog ai card)) as [Hc|Hc].
  - destruct (decide (status (knowledge ai) card "solution" = StatusYes)).
    + unfold bind. rewrite mark_known by done. by eexists.
    + destruct (decide (is_Some (knowledge ai !! card))) as [Hrow|Hrow].
      * unfold bind. rewrite mark_fresh by done. by eexists.
      * unfold bind. rewrite mark_unallocated; [done.. |].
        by apply eq_None_not_Some.
  - unfold bind. rewrite mark_invalid by done. by eexists.
Qed.

Lemma foldl_held_None l :
  foldl (λ o card, o ≫= held_outcome card) None l = None.
Proof. by induction l. Qed.

Lemma for_each_held_outcome l ai :
  match foldl (λ o card, o ≫= held_outcome card) (Some ai) l with
  | Some ai' => ∃ out, for_each mark_unless_held l ai = Ok tt ai' out
  | None => for_each mark_unless_held l ai = Panic
  end.
Proof.
  revert ai. induction l as [|card l IH]; intros ai; simpl.
  - by eexists.
  - pose proof (mark_unless_held_outcome card ai) as Hcard.
    destruct (held_outcome card ai) as [ai1|].
    + destruct Hcard as [out1 Hcard]. specialize (IH ai1).
      unfold bind. rewrite Hcard.
      destruct (foldl _ (Some ai1) l) as [ai'|].
      * destruct IH as [out IH]. rewrite IH. by eexists.
      * by rewrite IH.
    + rewrite foldl_held_None. unfold bind. by rewrite Hcard.
Qed.

Lemma foldl_held_perm l1 l2 o :
  l1 ≡ₚ l2 →
  foldl (λ o card, o ≫= held_outcome card) o l1
  = foldl (λ o card, o ≫= held_outcome card) o l2.
Proof.
  intros Hp. revert o.
  induction Hp as [|x l1 l2 _ IH|x y l|l1 l2 l3 _ IH1 _ IH2]; intros o;
    simpl; [done | by rewrite IH | | by rewrite IH1].
  f_equal. destruct o as [ai|]; [|done]. simpl. apply held_outcome_comm.
Qed.

Lemma for_each_held_perm l1 l2 ai :
  l1 ≡ₚ l2 →
  same_outcome (for_each mark_unless_held l1 ai)
               (for_each mark_unless_held l2 ai).
Proof.
  intros Hp. pose proof (for_each_held_outcome l1 ai) as H1.
  pose proof (for_each_held_outcome l2 ai) as H2.
  rewrite (foldl_held_perm l1 l2 _ Hp) in H1.
  destruct (foldl _ (Some ai) l2) as [ai'|].
  - destruct H1 as [o1 ->], H2 as [o2 ->]. done.
  - by rewrite H1, H2.
Qed.

Section Orders.

Variables range1 range2 : ∀ A : Type, list A → list A.
Hypothesis range1_perm : ∀ A (l : list A), range1 A l ≡ₚ l.
Hypothesis range2_perm : ∀ A (l : list A), range2 A l ≡ₚ l.

Lemma suggested_cards_perm s :
  suggested_cards range1 s ≡ₚ suggested_cards range2 s.
Proof. unfold suggested_cards. by rewrite range1_perm, range2_perm. Qed.

Lemma HandleEvent_any_order e ai :
  same_outcome (HandleEvent range1 e ai) (HandleEvent range2 e ai).
Proof.
  destruct e as [event|]; simpl; [|done].
  unfold processTurnEvent. case_decide; [apply same_outcome_refl |].
  rewrite !bind_gets. apply same_outcome_bind;
    [|intros; apply same_outcome_refl].
  case_decide.
  - case_decide; [apply same_outcome_refl |].
    case_decide; [|apply same_outcome_refl].
    apply same_outcome_bind; [apply same_outcome_refl |].
    intros _ ai'. apply for_each_held_perm, suggested_cards_perm.
  - case_decide; [|apply same_outcome_refl].
    rewrite (list_to_set_perm_L _ _ (suggested_cards_perm (Suggestion event))).
    apply same_outcome_refl.
Qed.

End Orders.

(** ** Under the deterministic chooser the order of the visit does not show *)

Lemma bind_ext {A B} (m1 m2 : M A) (f1 f2 : A → M B) ai :
  m1 ai = m2 ai →
  (∀ a ai' out, m2 ai = Ok a ai' out → f1 a ai' = f2 a ai') →
  bind m1 f1 ai = bind m2 f2 ai.
Proof.
  intros Hm Hf. unfold bind. rewrite Hm.
  destruct (m2 ai) as [|a ai' out]; [done |]. by rewrite (Hf a ai' out).
Qed.

(** The deterministic chooser sorts what it is handed: the order it comes
    in is forgotten. *)
Lemma Choose_deterministic_perm cards1 cards2 ai :
  chooser ai = DeterministicChooser →
  cards1 ≡ₚ cards2 → Choose cards1 ai = Choose cards2 ai.
Proof.
  intros Hch Hp. unfold Choose. rewrite !bind_gets, Hch.
  rewrite (Permutation_length Hp).
  case_decide as Hlen.
  - apply length_zero_iff_nil in Hlen. subst cards2.
    by apply Permutation_nil_r in Hp as ->.
  - cbv zeta. by rewrite (sort_Strings_Permutation _ _ Hp).
Qed.

Section AnyOrder.

Variables range1 range2 : ∀ A : Type, list A → list A.
Hypothesis range1_perm : ∀ A (l : list A), range1 A l ≡ₚ l.
Hypothesis range2_perm : ∀ A (l : list A), range2 A l ≡ₚ l.

Lemma sortByValue_perm m : sortByValue range1 m ≡ₚ sortByValue range2 m.
Proof.
  unfold sortByValue.
  by rewrite !merge_sort_Permutation, range1_perm, range2_perm.
Qed.

Lemma patientTargets_perm ms recent :
  patientTargets range1 ms recent ≡ₚ patientTargets range2 ms recent.
Proof.
  unfold patientTargets. cbv zeta.
  pose proof (sortByValue_perm (cardFrequency ms)) as Hs.
  pose proof (filter_Permutation (λ card, Contains recent card = false) _ _ Hs)
    as Hf.
  rewrite (Permutation_length Hf). by case_decide.
Qed.

Lemma SurgicalStrike_any_order ai :
  chooser ai = DeterministicChooser →
  SurgicalStrikeStrategy_BuildSuggestion range1 ai
  = SurgicalStrikeStrategy_BuildSuggestion range2 ai.
Proof.
  intros Hch. unfold SurgicalStrikeStrategy_BuildSuggestion.
  rewrite !bind_gets. case_decide; [done |]. case_decide; [|done].
  rewrite !bind_gets. apply bind_ext; [|done].
  apply Choose_deterministic_perm; [done |]. apply patientTargets_perm.
Qed.

Lemma BuildSuggestion_any_order s ai :
  chooser ai = DeterministicChooser →
  BuildSuggestion range1 s ai = BuildSuggestion range2 s ai.
Proof. intros Hch. destruct s; [done | by apply SurgicalStrike_any_order | done]. Qed.

Lemma BuildSuggestion_keeps_chooser range s ai a ai' out :
  BuildSuggestion range s ai = Ok a ai' out → chooser ai' = chooser ai.
Proof.
  intros Hrun.
  assert (wp (BuildSuggestion range s) (λ _ ai', chooser ai' = chooser ai) ai)
    as Hwp.
  { apply (wp_BuildSuggestion_inv (λ ai', chooser ai' = chooser ai));
      first [by intros [] ? ? ? | by intros ? ? ? | done]. }
  unfold wp in Hwp. by rewrite Hrun in Hwp.
Qed.

Lemma MakeSuggestion_any_order ai :
  chooser ai = DeterministicChooser →
  MakeSuggestion range1 ai = MakeSuggestion range2 ai.
Proof.
  intros Hch. unfold MakeSuggestion. apply bind_ext; [done |].
  intros [] ai0 out [= <- _]. clear out.
  revert ai Hch. induction strategies as [|s l IH]; intros ai Hch; [done |].
  simpl. apply bind_ext; [by apply BuildSuggestion_any_order |].
  intros [suggestion|] ai' out Hrun; [done |].
  apply IH. apply BuildSuggestion_keeps_chooser in Hrun. congruence.
Qed.

Lemma ChooseCardToShow_any_order suggestion ai :
  chooser ai = DeterministicChooser →
  ChooseCardToShow range1 suggestion ai = ChooseCardToShow range2 suggestion ai.
Proof.
  intros Hch. unfold ChooseCardToShow. rewrite !bind_gets. cbv zeta.
  apply bind_ext; [|done]. apply Choose_deterministic_perm; [done |].
  apply filter_Permutation, suggested_cards_perm; auto.
Qed.

(** X2. The order in which Go visits the entries of the suggestion map of
    an event does not show in what the brain learns from it: handled under
    two visiting orders, an event leaves the same state (or panics under
    both); only the order of the lines logged may differ. *)
Theorem HandleEvent_ignores_map_order e ai :
  same_outcome (HandleEvent range1 e ai) (HandleEvent range2 e ai).
Proof. by apply HandleEvent_any_order. Qed.

(** X3. With the deterministic Chooser the order in which maps are visited
    does not show in the suggestion the brain makes, nor in the card it
    chooses to show: result, state and log are the same under any two
    visiting orders. *)
Theorem deterministic_chooser_hides_map_order ai :
  chooser ai = DeterministicChooser →
  MakeSuggestion range1 ai = MakeSuggestion range2 ai ∧
  ∀ suggestion,
    ChooseCardToShow range1 suggestion ai
    = ChooseCardToShow range2 suggestion ai.
Proof.
  intros Hch. split; [by apply MakeSuggestion_any_order |].
  intros suggestion. by apply ChooseCardToShow_any_order.
Qed.

End AnyOrder.

(** X1. Hand intake, event handling with its deduction loop, and the
    accusation decision neither read nor write the Chooser and the random
    source: run on a brain that was given another Chooser and another random
    source they return the same result, log the same lines and leave the same
    state, the Chooser and the random source untouched. *)
Theorem inference_ignores_chooser_and_random_source range ch r ai :
  (∀ cards,
     ReceiveHand cards (reseed ch r ai)
     = res_map (reseed ch r) (ReceiveHand cards ai)) ∧
  (∀ e,
     HandleEvent range e (reseed ch r ai)
     = res_map (reseed ch r) (HandleEvent range e ai)) ∧
  ShouldAccuse (reseed ch r ai) = res_map (reseed ch r) (ShouldAccuse ai).
Proof.
  split; [intros cards; apply blind_ReceiveHand |].
  split; [intros e; apply blind_HandleEvent | apply blind_ShouldAccuse].
Qed.

(** Visiting the entries in the reverse of the order the map lists them. *)
Lemma rev_perm A (l : list A) : rev l ≡ₚ l.
Proof. symmetry. apply Permutation_rev. Qed.

Lemma HandleEvent_ignores_map_order_witness :
  same_outcome
    (HandleEvent range_listed (TurnResolved undisproved) brain_with_three_cards)
    (HandleEvent (λ A, @rev A) (TurnResolved undisproved) brain_with_three_cards).
Proof.
  apply (HandleEvent_ignores_map_order range_listed (λ A, @rev A));
    [apply range_listed_perm | apply rev_perm].
Defined.

Lemma deterministic_chooser_hides_map_order_witness :
  chooser brain_with_two_mysteries = DeterministicChooser ∧
  MakeSuggestion range_listed brain_with_two_mysteries
  = MakeSuggestion (λ A, @rev A) brain_with_two_mysteries ∧
  ∀ suggestion,
    ChooseCardToShow range_listed suggestion brain_with_two_mysteries
    = ChooseCardToShow (λ A, @rev A) suggestion brain_with_two_mysteries.
Proof.
  split; [vm_compute; reflexivity |].
  apply (deterministic_chooser_hides_map_order range_listed (λ A, @rev A));
    [apply range_listed_perm | apply rev_perm | vm_compute; reflexivity].
Defined.

(** The random source shows in the suggestion: two brains set up with the
    deterministic Chooser and fed the same hand and the same event, but given
    two random sources, target the same card and name two suspects. *)
Lemma MakeSuggestion_reads_random_source :
  chooser (brain_before_strike []) = DeterministicChooser ∧
  chooser (brain_before_strike [3; 2; 1]) = DeterministicChooser ∧
  (returned (MakeSuggestion range_listed) (brain_before_strike [])
     ≫= (.!! CategoryWeapon)) = Some "Dagger" ∧
  (returned (MakeSuggestion range_listed) (brain_before_strike [3; 2; 1])
     ≫= (.!! CategoryWeapon)) = Some "Dagger" ∧
  (returned (MakeSuggestion range_listed) (brain_before_strike [])
     ≫= (.!! CategorySuspect)) = Some "Miss Scarlett" ∧
  (returned (MakeSuggestion range_listed) (brain_before_strike [3; 2; 1])
     ≫= (.!! CategorySuspect)) = Some "Colonel Mustard".
Proof. repeat apply conj; vm_compute; reflexivity. Qed.

(** ** The catalog [Load] builds *)

Lemma foldl_register_fst cat cards (acc : list string * gmap string CardCategory) :
  (foldl (register cat) acc cards).1 = acc.1 ++ cards.
Proof.
  revert acc. induction cards as [|c cards IH]; intros acc; simpl.
  - by rewrite app_nil_r.
  - rewrite IH. simpl. by rewrite <- app_assoc.
Qed.

Lemma foldl_register_snd cat cards (acc : list string * gmap string CardCategory) card :
  (foldl (register cat) acc cards).2 !! card =
  if decide (card ∈ cards) then Some cat else acc.2 !! card.
Proof.
  revert acc. induction cards as [|c cards IH]; intros acc; simpl.
  - done.
  - rewrite IH. simpl. destruct (decide (card ∈ cards)) as [Hin|Hnin].
    + by rewrite decide_True by (by right).
    + destruct (decide (card = c)) as [->|Hne].
      * rewrite lookup_insert_eq. by rewrite decide_True by left.
      * rewrite lookup_insert_ne by done.
        by rewrite decide_False by (by intros [?|?]%elem_of_cons).
Qed.

(** X4. [Load] sorts the three lists of the document, lists every card in
    [AllCards], suspects first, then weapons, then rooms, and enters every
    card in [CardToType]; a name that the document lists in two categories is
    entered with the later one. *)
Theorem Load_builds_the_catalog suspects weapons rooms :
  (∀ cat, StronglySorted string_le
            (CardListForCategory (Load suspects weapons rooms) cat)) ∧
  Suspects (Load suspects weapons rooms) ≡ₚ suspects ∧
  Weapons (Load suspects weapons rooms) ≡ₚ weapons ∧
  Rooms (Load suspects weapons rooms) ≡ₚ rooms ∧
  AllCards (Load suspects weapons rooms)
  = Suspects (Load suspects weapons rooms)
    ++ Weapons (Load suspects weapons rooms)
    ++ Rooms (Load suspects weapons rooms) ∧
  ∀ card,
    CardToType (Load suspects weapons rooms) !! card =
    if decide (card ∈ rooms) then Some CategoryRoom
    else if decide (card ∈ weapons) then Some CategoryWeapon
    else if decide (card ∈ suspects) then Some CategorySuspect
    else None.
Proof.
  split; [intros []; apply sort_Strings_sorted |].
  do 3 (split; [apply sort_Strings_perm |]).
  split.
  - unfold Load; simpl. rewrite !foldl_register_fst. simpl.
    by rewrite <- app_assoc.
  - intros card. unfold Load; simpl. rewrite !foldl_register_snd. simpl.
    rewrite lookup_empty.
    destruct (decide (card ∈ rooms)) as [H1|H1].
    { by rewrite decide_True by (by apply sort_Strings_elem_of). }
    rewrite decide_False by (by rewrite sort_Strings_elem_of).
    destruct (decide (card ∈ weapons)) as [H2|H2].
    { by rewrite decide_True by (by apply sort_Strings_elem_of). }
    rewrite decide_False by (by rewrite sort_Strings_elem_of).
    destruct (decide (card ∈ suspects)) as [H3|H3].
    { by rewrite decide_True by (by apply sort_Strings_elem_of). }
    by rewrite decide_False by (by rewrite sort_Strings_elem_of).
Qed.

(** ** The bounded buffer *)

Lemma Push_suffix n l s d :
  maxSize d = n →
  deque_elements d = drop (length l - n) l →
  deque_elements (Push s d) = drop (length (l ++ [s]) - n) (l ++ [s]).
Proof.
  intros Hmax Hels. unfold Push; simpl. rewrite Hels, Hmax.
  rewrite !length_app, length_drop. simpl.
  destruct (decide (length l < n)) as [Hlt|Hge].
  - replace (length l - n) with 0 by lia. rewrite drop_0.
    rewrite decide_False by lia.
    replace (length l + 1 - n) with 0 by lia. by rewrite drop_0.
  - rewrite decide_True by lia.
    replace (length l + 1 - n) with (S (length l - n)) by lia.
    rewrite <- drop_app_le by lia.
    rewrite drop_drop. f_equal. lia.
Qed.

(** X5. A [StringDeque] of capacity [n] holds the last [n] strings pushed,
    oldest first: pushing on a full buffer evicts the oldest, and a buffer of
    capacity zero never holds anything. *)
Theorem StringDeque_holds_the_last_pushed n l :
  deque_elements (foldl (λ d s, Push s d) (NewStringDeque n) l)
  = drop (length l - n) l ∧
  maxSize (foldl (λ d s, Push s d) (NewStringDeque n) l) = n ∧
  ∀ s, Contains (foldl (λ d s, Push s d) (NewStringDeque n) l) s
       = bool_decide (s ∈ drop (length l - n) l).
Proof.
  assert (deque_elements (foldl (λ d s, Push s d) (NewStringDeque n) l)
          = drop (length l - n) l ∧
          maxSize (foldl (λ d s, Push s d) (NewStringDeque n) l) = n) as [H1 H2].
  { induction l as [|s l IH] using rev_ind; [done |].
    rewrite foldl_snoc. destruct IH as [IH1 IH2]. split.
    - by apply Push_suffix.
    - done. }
  split; [done |]. split; [done |].
  intros s. unfold Contains. by rewrite H1.
Qed.

(** ** Predicates the deduction loop keeps because of what it marks

    [I] is kept by the calls of [_markCardLocation] that are [allowed], and
    every rule of the loop makes allowed calls only; [W] is what [I] says of
    each tracked mystery. *)
Section Guarded.

Variable I : AdvancedAIBrain → Prop.
Variable allowed : string → string → AdvancedAIBrain → Prop.
Variable W : UnresolvedSuggestion → Prop.

Hypothesis G_mark : ∀ card location ai,
  I ai → allowed card location ai →
  wp (_markCardLocation card location) (λ _ ai', I ai') ai.
Hypothesis G_tracked : ∀ ai, I ai → Forall W (unresolvedSuggestions ai).
Hypothesis G_unresolved : ∀ u ai,
  I ai → Forall W u → I (set_unresolvedSuggestions u ai).
Hypothesis G_pruned : ∀ m ai,
  I ai → W m →
  W {| Disprover := Disprover m; PossibleCards := pruned (knowledge ai) m |}.
Hypothesis G_solved : ∀ m card ai,
  I ai → W m → pruned (knowledge ai) m = {[card]} →
  allowed card (Disprover m) ai.
Hypothesis G_solution : ∀ cat card ai,
  I ai →
  first_yes (knowledge ai) (CardListForCategory (config ai) cat) = None →
  filter (λ card, status (knowledge ai) card "solution" = StatusMaybe)
         (CardListForCategory (config ai) cat) = [card] →
  allowed card "solution" ai.
Hypothesis G_location : ∀ card loc ai,
  I ai →
  scan_locations (knowledge ai) card (allLocations (players ai)) []
  = (false, [loc]) →
  allowed card loc ai.

Lemma wp_prune_mystery_guarded m changed remaining ai :
  I ai → W m → Forall W remaining →
  wp (prune_mystery m changed remaining)
     (λ res ai', I ai' ∧ Forall W res.2) ai.
Proof.
  intros HI HW Hrem. unfold prune_mystery. wp_step.
  fold (pruned (knowledge ai) m). set (P := pruned (knowledge ai) m).
  apply wp_bind.
  apply (wp_mono _ (λ res ai',
           ai' = ai ∧
           res.1 = {| Disprover := Disprover m; PossibleCards := P |})).
  { wp_step.
    - wp_step. by wp_step.
    - wp_step. split; [done |]. simpl. unfold P, pruned.
      rewrite filter_same_size by done. by rewrite UnresolvedSuggestion_eta. }
  intros [m' c1] ai1 [-> Hm']. simpl in Hm'. subst m'. cbn beta iota. simpl.
  wp_step.
  - destruct (mapKeys_singleton P) as (card & HP & Hkeys); [done |].
    rewrite Hkeys. wp_step. apply wp_bind.
    eapply wp_mono; [apply G_mark; [done | by eapply G_solved] |].
    intros b ai2 HI2. by wp_step.
  - wp_step; wp_step; [|done].
    split; [done |]. simpl. apply Forall_app. split; [done |].
    constructor; [|done]. by apply G_pruned.
Qed.

Lemma wp_prune_loop_guarded ms changed remaining ai :
  I ai → Forall W ms → Forall W remaining →
  wp (prune_loop ms changed remaining)
     (λ res ai', I ai' ∧ Forall W res.2) ai.
Proof.
  revert changed remaining ai.
  induction ms as [|m ms IH]; intros changed remaining ai HI Hms Hrem; simpl.
  - by wp_step.
  - apply Forall_cons in Hms as [Hm Hms].
    apply wp_bind. eapply wp_mono; [by apply wp_prune_mystery_guarded |].
    intros [c r] ai' [HI' Hr]. by apply IH.
Qed.

Lemma wp_pruneAndSolveMysteries_guarded ai :
  I ai → wp _pruneAndSolveMysteries (λ _ ai', I ai') ai.
Proof.
  intros HI. unfold _pruneAndSolveMysteries. wp_step.
  apply wp_bind.
  eapply wp_mono; [apply wp_prune_loop_guarded; [done | by apply G_tracked | done] |].
  intros [c r] ai' [HI' Hr]. cbn beta iota. wp_step. wp_step. wp_step.
  by apply G_unresolved.
Qed.

Lemma wp_deduce_solution_guarded cat ai :
  I ai → wp (deduce_solution cat) (λ _ ai', I ai') ai.
Proof.
  intros HI. unfold deduce_solution. do 3 wp_step; [by wp_step |].
  cbv zeta. wp_step; [|by wp_step].
  wp_step; [done |]. apply G_mark; [done |].
  apply (G_solution cat); [done | |].
  - by apply eq_None_not_Some.
  - match goal with H : filter _ _ = _ :: ?l |- _ =>
      rewrite H in *; destruct l; [done | simpl in *; lia] end.
Qed.

Lemma wp_deduceSolutionByElimination_guarded ai :
  I ai → wp _deduceSolutionByElimination (λ _ ai', I ai') ai.
Proof.
  intros HI. apply wp_for_each_changed_inv; [|done].
  intros. by apply wp_deduce_solution_guarded.
Qed.

Lemma wp_deduce_card_location_guarded card ai :
  I ai → wp (deduce_card_location card) (λ _ ai', I ai') ai.
Proof.
  intros HI. unfold deduce_card_location. do 3 wp_step.
  destruct (negb b && bool_decide (length l = 1)) eqn:Hb; [|by wp_step].
  apply andb_true_iff in Hb as [Hk Hb]. apply bool_decide_eq_true in Hb.
  destruct b; [done |].
  destruct l as [|loc [|]]; [done | | done].
  apply G_mark; [done |]. by apply G_location.
Qed.

Lemma wp_deduceCardLocationsByElimination_guarded ai :
  I ai → wp _deduceCardLocationsByElimination (λ _ ai', I ai') ai.
Proof.
  intros HI. unfold _deduceCardLocationsByElimination. wp_step.
  apply wp_for_each_changed_inv; [|done].
  intros. by apply wp_deduce_card_location_guarded.
Qed.

Lemma wp_deduction_pass_guarded ai :
  I ai → wp deduction_pass (λ _ ai', I ai') ai.
Proof.
  intros HI. unfold deduction_pass.
  apply wp_bind. eapply wp_mono; [by apply wp_pruneAndSolveMysteries_guarded |].
  intros b1 ai1 HI1. cbn beta.
  apply wp_bind. eapply wp_mono; [by apply wp_deduceSolutionByElimination_guarded |].
  intros b2 ai2 HI2. cbn beta.
  apply wp_bind. eapply wp_mono; [by apply wp_deduceCardLocationsByElimination_guarded |].
  intros b3 ai3 HI3. by wp_step.
Qed.

Lemma wp_deduction_loop_guarded bound ai :
  I ai → wp (deduction_loop bound) (λ _ ai', I ai') ai.
Proof.
  revert ai. induction bound as [|bound IH]; intros ai HI; simpl.
  - by wp_step.
  - apply wp_bind. eapply wp_mono; [by apply wp_deduction_pass_guarded |].
    intros [] ai' HI'; [by apply IH | by wp_step].
Qed.

End Guarded.

(** ** What the brain records agrees with the deal *)

Lemma wp_run_from {A} (m : M A) (Q : AdvancedAIBrain → Prop) ai :
  wp m (λ _ ai', Q ai') ai → Q (run_from m ai).
Proof. unfold wp, run_from. by destruct (m ai). Qed.

(** A scan that met no [StatusYes] has visited every location and collected
    the ones at [StatusMaybe]. *)
Lemma scan_locations_false k card locs acc ms :
  scan_locations k card locs acc = (false, ms) →
  ms = acc ++ filter (λ l, status k card l = StatusMaybe) locs ∧
  ∀ l, l ∈ locs → status k card l ≠ StatusYes.
Proof.
  revert acc. induction locs as [|loc locs IH]; intros acc; simpl.
  - intros [= <-]. split; [by rewrite app_nil_r |].
    intros l Hl. by apply elem_of_nil in Hl.
  - case_decide as Hyes; [done |]. intros [-> Hrest]%IH. split.
    + rewrite filter_cons. case_decide; [|done].
      by rewrite <- app_assoc.
    + intros l [->|Hl]%elem_of_cons; auto.
Qed.

Section Deal.

Variable truth : string → string.

Lemma consistent_marked card location ai :
  truth card = location →
  consistent truth ai → consistent truth (marked card location ai).
Proof.
  intros Ht [Hyes Hno Hm Hsol Hloc]. split; try done.
  - intros c l. rewrite status_marked.
    destruct (decide (c = card)) as [->|]; [|by apply Hyes].
    destruct (decide (l = location)) as [->|]; [done |].
    case_decide; [done | by apply Hyes].
  - intros c l. rewrite status_marked.
    destruct (decide (c = card)) as [->|]; [|by apply Hno].
    destruct (decide (l = location)) as [->|]; [done |].
    case_decide; [intros _; congruence | by apply Hno].
Qed.

Lemma wp_mark_consistent card location ai :
  grid_ok ai ∧ consistent truth ai → truthful truth card location ai →
  wp (_markCardLocation card location)
     (λ _ ai', grid_ok ai' ∧ consistent truth ai') ai.
Proof.
  intros [Hok Hc] Ht. unfold wp.
  destruct (decide (in_catalog ai card)) as [Hcat|Hcat].
  - destruct (decide (status (knowledge ai) card location = StatusYes)).
    + by rewrite mark_known.
    + rewrite mark_fresh; [|done.. |by apply Hok].
      split; [by apply grid_ok_marked | apply consistent_marked; auto].
  - by rewrite mark_invalid.
Qed.

Lemma consistent_set_unresolved u ai :
  grid_ok ai ∧ consistent truth ai → Forall (shown_by truth) u →
  grid_ok (set_unresolvedSuggestions u ai) ∧
  consistent truth (set_unresolvedSuggestions u ai).
Proof. intros [Hok [Hyes Hno Hm Hsol Hloc]] Hu. by split. Qed.

Lemma shown_by_pruned m ai :
  consistent truth ai → shown_by truth m →
  shown_by truth {| Disprover := Disprover m;
                    PossibleCards := pruned (knowledge ai) m |}.
Proof.
  intros Hc (card & Hin & Ht). exists card. split; [|done]. simpl.
  apply elem_of_filter. split; [|done].
  intros Hno. by apply (consistent_no _ _ Hc) in Hno.
Qed.

Lemma truthful_solved m card ai :
  consistent truth ai → shown_by truth m →
  pruned (knowledge ai) m = {[card]} → truthful truth card (Disprover m) ai.
Proof.
  intros Hc Hm HP _. apply (shown_by_pruned m ai Hc) in Hm as (c & Hin & Ht).
  simpl in Hin, Ht. rewrite HP in Hin. apply elem_of_singleton in Hin.
  by subst c.
Qed.

Lemma truthful_solution cat card ai :
  consistent truth ai →
  first_yes (knowledge ai) (CardListForCategory (config ai) cat) = None →
  filter (λ card, status (knowledge ai) card "solution" = StatusMaybe)
         (CardListForCategory (config ai) cat) = [card] →
  truthful truth card "solution" ai.
Proof.
  intros Hc Hnone Hfilter _.
  destruct (consistent_solution _ _ Hc cat) as (s & Hin & Hs).
  { intros Hnil. by rewrite Hnil in Hfilter. }
  assert (s ∈ [card]) as Hs'; [|by apply list_elem_of_singleton in Hs' as <-].
  rewrite <- Hfilter. apply list_elem_of_filter. split; [|done].
  pose proof (first_yes_None _ _ Hnone s Hin) as Hny.
  destruct (status (knowledge ai) s "solution") eqn:E; [done | done |].
  by apply (consistent_no _ _ Hc) in E.
Qed.

Lemma truthful_location card loc ai :
  consistent truth ai →
  scan_locations (knowledge ai) card (allLocations (players ai)) []
  = (false, [loc]) →
  truthful truth card loc ai.
Proof.
  intros Hc [Hms Hny]%scan_locations_false Hcat. simpl in Hms.
  pose proof (consistent_located _ _ Hc card Hcat) as Hin.
  assert (truth card ∈ [loc]) as Hl;
    [|by apply list_elem_of_singleton in Hl].
  rewrite Hms. apply list_elem_of_filter. split; [|done].
  specialize (Hny _ Hin).
  destruct (status (knowledge ai) card (truth card)) eqn:E; [done | done |].
  by apply (consistent_no _ _ Hc) in E.
Qed.

Lemma wp_deduction_loop_consistent bound ai :
  grid_ok ai ∧ consistent truth ai →
  wp (deduction_loop bound) (λ _ ai', grid_ok ai' ∧ consistent truth ai') ai.
Proof.
  apply (wp_deduction_loop_guarded
           (λ ai, grid_ok ai ∧ consistent truth ai)
           (truthful truth) (shown_by truth)).
  - apply wp_mark_consistent.
  - intros ai0 [_ Hc]. apply Hc.
  - intros u ai0. apply consistent_set_unresolved.
  - intros m ai0 [_ Hc]. by apply shown_by_pruned.
  - intros m card ai0 [_ Hc]. by apply truthful_solved.
  - intros cat card ai0 [_ Hc]. by apply truthful_solution.
  - intros card loc ai0 [_ Hc]. by apply truthful_location.
Qed.

End Deal.

(** ** What inference leaves alone *)

Lemma same_seat_refl ai : same_seat ai ai.
Proof. by repeat split. Qed.

Lemma mark_keeps_seat card location ai b ai' out :
  _markCardLocation card location ai = Ok b ai' out →
  same_seat ai ai' ∧ hand ai' = hand ai ∧
  unresolvedSuggestions ai' = unresolvedSuggestions ai.
Proof. intros ->%mark_frame. by repeat split. Qed.

Lemma wp_mark_seat ai0 h card location ai :
  grid_ok ai ∧ same_seat ai0 ai ∧ hand ai = h →
  wp (_markCardLocation card location)
     (λ _ ai', grid_ok ai' ∧ same_seat ai0 ai' ∧ hand ai' = h) ai.
Proof.
  intros (Hok & (Hn & Hc & Hp) & Hh).
  pose proof (wp_mark_grid_ok card location ai Hok) as Hwp.
  apply wp_Ok in Hwp as (b & ai' & out & Hrun & Hok').
  apply wp_Ok. exists b, ai', out. split; [done |].
  apply mark_keeps_seat in Hrun as ((Hn' & Hc' & Hp') & Hh' & _).
  split; [done |]. split; [|congruence].
  unfold same_seat. repeat split; congruence.
Qed.

Lemma wp_deduction_loop_seat bound ai :
  grid_ok ai →
  wp (deduction_loop bound)
     (λ _ ai', grid_ok ai' ∧ same_seat ai ai' ∧ hand ai' = hand ai) ai.
Proof.
  intros Hok.
  apply (wp_deduction_loop_inv
           (λ ai', grid_ok ai' ∧ same_seat ai ai' ∧ hand ai' = hand ai)).
  - intros. by apply wp_mark_seat.
  - by intros u ai0 ?.
  - split; [done |]. split; [apply same_seat_refl | done].
Qed.

Lemma wp_for_each_mem {A} (I : AdvancedAIBrain → Prop) (body : A → M unit) l ai :
  (∀ x ai, x ∈ l → I ai → wp (body x) (λ _ ai', I ai') ai) →
  I ai → wp (for_each body l) (λ _ ai', I ai') ai.
Proof.
  revert ai. induction l as [|x l IH]; intros ai Hbody HI; simpl.
  - by apply wp_ret.
  - apply wp_bind. eapply wp_mono; [apply Hbody; [left | done] |].
    intros ? ai' HI'. cbn beta. apply IH; [|done].
    intros y ai0 Hy. apply Hbody. by right.
Qed.

(** The loop of [ReceiveHand]: every card handed over enters the hand. *)
Lemma wp_receive_loop cards ai :
  grid_ok ai →
  wp (for_each (λ card,
        modify (λ ai, set_hand ({[card]} ∪ hand ai) ai) ;;
        let* me := gets name in
        _markCardLocation card me ;;
        ret tt) cards)
     (λ _ ai', grid_ok ai' ∧ same_seat ai ai' ∧
               hand ai' = list_to_set cards ∪ hand ai) ai.
Proof.
  revert ai. induction cards as [|card cards IH]; intros ai Hok; simpl.
  - apply wp_ret. split; [done |]. split; [apply same_seat_refl |].
    by rewrite union_empty_l_L.
  - apply wp_bind. wp_step. wp_step. apply wp_bind.
    eapply wp_mono.
    { apply (wp_mark_seat ai ({[card]} ∪ hand ai)).
      split; [exact Hok |]. split; [by repeat split | done]. }
    intros b ai1 (Hok1 & Hseat1 & Hh1). wp_step. cbn beta.
    eapply wp_mono; [by apply IH |].
    intros ? ai2 (Hok2 & Hseat2 & Hh2). split; [done |]. split.
    + destruct Hseat1 as (? & ? & ?), Hseat2 as (? & ? & ?).
      repeat split; congruence.
    + rewrite Hh2, Hh1. set_solver.
Qed.

Lemma wp_ReceiveHand_hand cards ai :
  grid_ok ai →
  wp (ReceiveHand cards)
     (λ _ ai', grid_ok ai' ∧ same_seat ai ai' ∧
               hand ai' = list_to_set cards ∪ hand ai) ai.
Proof.
  intros Hok. unfold ReceiveHand. apply wp_bind.
  eapply wp_mono; [by apply wp_receive_loop |].
  intros ? ai1 (Hok1 & Hseat1 & Hh1). cbn beta.
  eapply wp_mono; [by apply wp_deduction_loop_seat |].
  intros ? ai2 (Hok2 & Hseat2 & Hh2). split; [done |]. split.
  - destruct Hseat1 as (? & ? & ?), Hseat2 as (? & ? & ?).
    repeat split; congruence.
  - congruence.
Qed.

Section Deal.

Variable truth : string → string.

Lemma wp_mark_consistent_seat ai0 card location ai :
  (grid_ok ai ∧ consistent truth ai) ∧ same_seat ai0 ai →
  truthful truth card location ai →
  wp (_markCardLocation card location)
     (λ _ ai', (grid_ok ai' ∧ consistent truth ai') ∧ same_seat ai0 ai') ai.
Proof.
  intros [HI Hseat] Ht. apply wp_conj.
  - by apply wp_mark_consistent.
  - eapply wp_mono.
    + apply (wp_mark_seat ai0 (hand ai)). destruct HI. by split.
    + by intros ? ai' (_ & ? & _).
Qed.

(** The cards handed over lie with the brain: the deal is still told right
    after the hand is taken in. *)
Lemma wp_ReceiveHand_consistent cards ai :
  grid_ok ai → consistent truth ai →
  (∀ card, card ∈ cards → in_catalog ai card → truth card = name ai) →
  wp (ReceiveHand cards)
     (λ _ ai', grid_ok ai' ∧ consistent truth ai') ai.
Proof.
  intros Hok Hc Hcards. unfold ReceiveHand. apply wp_bind.
  eapply wp_mono.
  - apply (wp_for_each_mem
             (λ ai', (grid_ok ai' ∧ consistent truth ai') ∧ same_seat ai ai')).
    + intros card ai1 Hin [[Hok1 Hc1] Hseat1]. wp_step. wp_step.
      apply wp_bind. eapply wp_mono.
      * apply (wp_mark_consistent_seat ai).
        { split; [split; [done |] | done]. by destruct Hc1. }
        intros Hcat. destruct Hseat1 as (Hn & Hcfg & Hp). simpl.
        rewrite Hn. apply Hcards; [done |].
        unfold in_catalog in *. simpl in Hcat. by rewrite <- Hcfg.
      * intros b ai2 H2. by wp_step.
    + split; [done | apply same_seat_refl].
  - intros ? ai1 [HI1 _]. by apply wp_deduction_loop_consistent.
Qed.

End Deal.

(** ** An honest event leaves the record in agreement with the deal *)

Section HonestEvents.

Variable range : ∀ A : Type, list A → list A.
Hypothesis range_perm : ∀ A (l : list A), range A l ≡ₚ l.
Variable truth : string → string.

Lemma elem_of_suggested_cards (s : gmap CardCategory string) card :
  card ∈ suggested_cards range s ↔ ∃ cat, s !! cat = Some card.
Proof.
  unfold suggested_cards. rewrite range_perm, list_elem_of_fmap. split.
  - intros ([cat c] & -> & Hin). exists cat. by apply elem_of_map_to_list.
  - intros [cat Hcat]. exists (cat, card). split; [done |].
    by apply elem_of_map_to_list.
Qed.

Lemma wp_deduction_loop_told bound ai :
  grid_ok ai → consistent truth ai →
  wp (deduction_loop bound)
     (λ _ ai', (grid_ok ai' ∧ consistent truth ai') ∧
               same_seat ai ai' ∧ hand ai' = hand ai) ai.
Proof.
  intros Hok Hc. apply wp_conj.
  - by apply wp_deduction_loop_consistent.
  - eapply wp_mono; [by apply wp_deduction_loop_seat |].
    by intros ? ai' (_ & ? & ?).
Qed.

Lemma wp_mark_told card location ai :
  grid_ok ai → consistent truth ai → truthful truth card location ai →
  wp (_markCardLocation card location)
     (λ _ ai', (grid_ok ai' ∧ consistent truth ai') ∧
               same_seat ai ai' ∧ hand ai' = hand ai) ai.
Proof.
  intros Hok Hc Ht. apply wp_conj.
  - by apply wp_mark_consistent.
  - eapply wp_mono.
    + apply (wp_mark_seat ai (hand ai)).
      split; [done |]. split; [apply same_seat_refl | done].
    + by intros ? ai' (_ & ? & ?).
Qed.

Lemma holds_own_cards_seat ai ai' :
  same_seat ai ai' → hand ai' = hand ai →
  holds_own_cards truth ai → holds_own_cards truth ai'.
Proof.
  intros (Hn & Hcfg & _) Hh Hown card Hcat Ht.
  rewrite Hh. apply Hown; [|congruence].
  unfold in_catalog in *. by rewrite <- Hcfg.
Qed.

Lemma wp_processTurnEvent_told event ai :
  grid_ok ai → consistent truth ai → holds_own_cards truth ai →
  honest truth ai event →
  wp (processTurnEvent range event)
     (λ _ ai', (grid_ok ai' ∧ consistent truth ai') ∧
               same_seat ai ai' ∧ hand ai' = hand ai) ai.
Proof.
  intros Hok Hc Hown (Hreveal & Hpass & Hshown). unfold processTurnEvent.
  wp_step.
  { wp_step.
    - apply wp_bind. eapply wp_mono.
      + apply wp_mark_told; [done.. |]. intros Hcat. apply Hreveal; tauto.
      + intros b ai' H'. by wp_step.
    - wp_step. split; [done |]. split; [apply same_seat_refl | done]. }
  wp_step. apply wp_bind.
  apply (wp_mono _ (λ _ ai', (grid_ok ai' ∧ consistent truth ai') ∧
                             same_seat ai ai' ∧ hand ai' = hand ai)).
  2:{ intros ? ai1 ((Hok1 & Hc1) & Hseat1 & Hh1).
      eapply wp_mono; [by apply wp_deduction_loop_told |].
      intros ? ai2 (H2 & Hseat2 & Hh2). split; [done |]. split; [|congruence].
      destruct Hseat1 as (? & ? & ?), Hseat2 as (? & ? & ?).
      unfold same_seat. repeat split; congruence. }
  wp_step.
  - wp_step.
    { apply wp_bind. eapply wp_mono.
      + apply wp_mark_told; [done.. |]. intros Hcat. apply Hreveal; tauto.
      + intros b ai' H'. by wp_step. }
    wp_step; [|wp_step; split; [done |]; split; [apply same_seat_refl | done]].
    wp_step.
    apply (wp_for_each_mem
             (λ ai', (grid_ok ai' ∧ consistent truth ai') ∧
                     same_seat ai ai' ∧ hand ai' = hand ai)).
    2:{ split; [done |]. split; [apply same_seat_refl | done]. }
    intros card ai1 Hin ((Hok1 & Hc1) & Hseat1 & Hh1).
    unfold mark_unless_held. wp_step. wp_step; [by wp_step |].
    apply wp_bind. eapply wp_mono.
    + apply wp_mark_told; [done.. |]. intros Hcat.
      apply elem_of_suggested_cards in Hin as [cat Hcard].
      destruct Hseat1 as (Hn & Hcfg & Hp).
      assert (in_catalog ai card) as Hcat0.
      { unfold in_catalog in *. by rewrite <- Hcfg. }
      destruct (Hpass ltac:(done) cat card Hcard Hcat0) as [Hme|Hsol];
        [|done].
      exfalso. match goal with H : card ∉ hand ai1 |- _ => apply H end.
      rewrite Hh1. apply Hown; [done |]. congruence.
    + intros b ai2 (H2 & Hseat2 & Hh2). wp_step.
      split; [done |]. split; [|congruence].
      destruct Hseat1 as (? & ? & ?), Hseat2 as (? & ? & ?).
      unfold same_seat. repeat split; congruence.
  - wp_step.
    2:{ wp_step. split; [done |]. split; [apply same_seat_refl | done]. }
    wp_step. unfold wp, logf. split; [|split; [by repeat split | done]].
    apply consistent_set_unresolved; [done |].
    apply Forall_app. split; [by destruct Hc |]. constructor; [|done].
    destruct Hshown as (cat & card & Hcard & Ht); [tauto | done |].
    exists card. split; [|done]. simpl. apply elem_of_list_to_set.
    apply elem_of_suggested_cards. eauto.
Qed.

End HonestEvents.

(** ** The accusation names cards that read Yes at the solution *)

Lemma ShouldAccuse_loop_run cats solution ai :
  ∃ r, ShouldAccuse_loop cats solution ai = Ok r ai [] ∧
       ∀ s, r = Some s →
         ∀ cat card, s !! cat = Some card →
           solution !! cat = Some card ∨
           first_yes (knowledge ai) (CardListForCategory (config ai) cat)
           = Some card.
Proof.
  revert solution. induction cats as [|c cats IH]; intros solution; simpl.
  - exists (Some solution). split; [done |]. intros s [= <-]. auto.
  - erewrite bind_quiet by apply ShouldAccuse_loop_body_run.
    destruct (first_yes (knowledge ai) (CardListForCategory (config ai) c))
      as [k|] eqn:Hk; [|by exists None].
    case_decide; [|by exists None].
    destruct (IH (<[c := k]> solution)) as (r & Hrun & Hr).
    exists r. split; [done |]. intros s Hs cat card Hcard.
    destruct (Hr s Hs cat card Hcard) as [Hsol|?]; [|by right].
    destruct (decide (cat = c)) as [->|Hne].
    + rewrite lookup_insert_eq in Hsol. injection Hsol as <-. by right.
    + rewrite lookup_insert_ne in Hsol by done. by left.
Qed.

Lemma ShouldAccuse_run ai :
  ∃ r out, ShouldAccuse ai = Ok r ai out ∧
    ∀ s, r = Some s →
      ∀ cat card, s !! cat = Some card →
        card ∈ CardListForCategory (config ai) cat ∧
        status (knowledge ai) card "solution" = StatusYes.
Proof.
  unfold ShouldAccuse.
  destruct (ShouldAccuse_loop_run categories ∅ ai) as (r & Hrun & Hr).
  erewrite bind_quiet by exact Hrun.
  destruct r as [s|]; [|by exists None, []].
  case_decide; [|by exists None, []].
  exists (Some s), [DebugFinalizing]. split; [done |].
  intros s' [= <-] cat card Hcard.
  destruct (Hr s eq_refl cat card Hcard) as [Hempty|Hfirst].
  - by rewrite lookup_empty in Hempty.
  - by apply first_yes_Some.
Qed.

(** A brain that has just been set up has recorded nothing: it agrees with
    every deal of its catalog. *)
Lemma Setup_consistent truth cfg playerNames myName ch r :
  (∀ cat, CardListForCategory cfg cat ≠ [] →
          ∃ card, card ∈ CardListForCategory cfg cat ∧ truth card = "solution") →
  (∀ card, is_Some (CardToType cfg !! card) →
           truth card ∈ allLocations playerNames) →
  consistent truth (Setup cfg playerNames myName ch r).
Proof.
  intros Hsol Hloc. split.
  - intros card loc. by rewrite Setup_status.
  - intros card loc. by rewrite Setup_status.
  - constructor.
  - exact Hsol.
  - exact Hloc.
Qed.

(** ** The sample deal *)

Lemma dealt_located card : dealt card ∈ allLocations table.
Proof.
  unfold dealt. repeat case_decide;
    apply (bool_decide_unpack _); vm_compute; exact I.
Qed.

Lemma dealt_solution cat :
  ∃ card, card ∈ CardListForCategory classic cat ∧ dealt card = "solution".
Proof.
  destruct cat;
    [exists "Mrs. White" | exists "Lead Pipe" | exists "Kitchen"];
    (split; [apply (bool_decide_unpack _); vm_compute; exact I
            | vm_compute; reflexivity]).
Qed.

Lemma fresh_brain_consistent r : consistent dealt (fresh_brain r).
Proof.
  apply Setup_consistent.
  - intros cat _. apply dealt_solution.
  - intros card _. apply dealt_located.
Qed.

Lemma dealt_three_cards card : card ∈ three_cards → dealt card = "Player 1".
Proof. intros Hin. unfold dealt. by rewrite decide_True. Qed.

Lemma brain_with_three_cards_consistent :
  consistent dealt brain_with_three_cards.
Proof.
  unfold brain_with_three_cards.
  apply (wp_run_from _ (λ ai', consistent dealt ai')).
  eapply wp_mono.
  - apply (wp_ReceiveHand_consistent dealt).
    + apply Setup_grid_ok, Load_catalog_ok.
    + apply fresh_brain_consistent.
    + intros card Hin _. by apply dealt_three_cards.
  - by intros ? ai' [_ ?].
Qed.

Lemma brain_with_three_cards_holds_own_cards :
  holds_own_cards dealt brain_with_three_cards.
Proof.
  intros card _.
  assert (name brain_with_three_cards = "Player 1") as ->
    by (vm_compute; reflexivity).
  unfold dealt. case_decide as Hin; [|by repeat case_decide].
  intros _. unfold three_cards in Hin.
  repeat (apply elem_of_cons in Hin as [->|Hin]);
    [| | |by apply elem_of_nil in Hin];
    apply (bool_decide_unpack _); vm_compute; exact I.
Qed.

Lemma undisproved_honest ai : honest dealt ai undisproved.
Proof.
  split; [by intros [] |]. split; [|by intros []].
  intros _ cat card Hcard _. right.
  destruct cat; vm_compute in Hcard; injection Hcard as <-;
    vm_compute; reflexivity.
Qed.

Section Told.

Variable range : ∀ A : Type, list A → list A.
Hypothesis range_perm : ∀ A (l : list A), range A l ≡ₚ l.
Variable truth : string → string.

(** X6. Hand intake keeps the record true.  On a state the brain goes
    through, whose record agrees with the deal, [ReceiveHand] with cards that
    lie with the brain returns, adds every card handed over to the hand, and
    leaves a record that agrees with the deal; if the cards are all the
    cards that lie with the brain, the brain holds its own cards
    afterwards. *)
Theorem ReceiveHand_keeps_the_record_true cards ai :
  reachable range ai → consistent truth ai →
  (∀ card, card ∈ cards → in_catalog ai card → truth card = name ai) →
  ∃ ai' out,
    ReceiveHand cards ai = Ok tt ai' out ∧
    consistent truth ai' ∧
    hand ai' = list_to_set cards ∪ hand ai ∧
    ((∀ card, in_catalog ai card → truth card = name ai → card ∈ cards) →
     holds_own_cards truth ai').
Proof.
  intros Hreach Hc Hcards. apply reachable_grid_ok in Hreach.
  pose proof (wp_conj _ _ _ _
                (wp_ReceiveHand_consistent truth cards ai Hreach Hc Hcards)
                (wp_ReceiveHand_hand cards ai Hreach)) as Hwp.
  apply wp_Ok in Hwp
    as ([] & ai' & out & Hrun & (_ & Hc') & _ & (Hn & Hcfg & _) & Hh).
  exists ai', out. do 3 (split; [done |]).
  intros Hall card Hcat Ht. rewrite Hh. apply elem_of_union. left.
  apply elem_of_list_to_set. unfold in_catalog in Hcat.
  rewrite Hcfg in Hcat. apply Hall; [done | congruence].
Qed.

(** X7. An honest event keeps the record true.  On a state the brain goes
    through, whose record agrees with the deal and whose hand holds the
    cards that lie with the brain, [HandleEvent] with an event that reports
    what happened at the table returns and leaves a record that agrees with
    the deal: whatever the direct marks and the deduction loop have added,
    a card reads Yes only where it lies and No only where it does not lie,
    and every mystery still tracked has a candidate its disprover holds. *)
Theorem honest_event_keeps_the_record_true event ai :
  reachable range ai → consistent truth ai → holds_own_cards truth ai →
  honest truth ai event →
  ∃ ai' out,
    HandleEvent range (TurnResolved event) ai = Ok tt ai' out ∧
    consistent truth ai' ∧ holds_own_cards truth ai'.
Proof.
  intros Hreach Hc Hown Hhonest. apply reachable_grid_ok in Hreach.
  pose proof (wp_processTurnEvent_told range range_perm truth event ai
                Hreach Hc Hown Hhonest) as Hwp.
  apply wp_Ok in Hwp as ([] & ai' & out & Hrun & (_ & Hc') & Hseat & Hh).
  exists ai', out. split; [done |]. split; [done |].
  by apply (holds_own_cards_seat truth ai).
Qed.

End Told.


Lemma ReceiveHand_keeps_the_record_true_witness :
  ∃ ai' out,
    ReceiveHand three_cards (fresh_brain []) = Ok tt ai' out ∧
    consistent dealt ai' ∧
    hand ai' = list_to_set three_cards ∪ hand (fresh_brain []) ∧
    ((∀ card, in_catalog (fresh_brain []) card →
              dealt card = name (fresh_brain []) → card ∈ three_cards) →
     holds_own_cards dealt ai').
Proof.
  apply (ReceiveHand_keeps_the_record_true range_listed dealt).
  - apply fresh_brain_reachable.
  - apply fresh_brain_consistent.
  - intros card Hin _. by apply dealt_three_cards.
Defined.

Lemma honest_event_keeps_the_record_true_witness :
  ∃ ai' out,
    HandleEvent range_listed (TurnResolved undisproved) brain_with_three_cards
    = Ok tt ai' out ∧
    consistent dealt ai' ∧ holds_own_cards dealt ai'.
Proof.
  apply (honest_event_keeps_the_record_true range_listed range_listed_perm dealt).
  - apply brain_with_three_cards_reachable.
  - apply brain_with_three_cards_consistent.
  - apply brain_with_three_cards_holds_own_cards.
  - apply undisproved_honest.
Defined.


(** ** Proving that every state the brain goes through satisfies a predicate *)

Lemma reachable_invariant range (I : AdvancedAIBrain → Prop) :
  (∀ cfg playerNames myName ch r,
     catalog_ok cfg → I (Setup cfg playerNames myName ch r)) →
  (∀ card location ai,
     grid_ok ai → I ai → I (marked card location ai)) →
  (∀ h ai, I ai → I (set_hand h ai)) →
  (∀ u ai, I ai → I (set_unresolvedSuggestions u ai)) →
  (∀ s ai,
     I ai → I (set_recentSurgicalTargets (Push s (recentSurgicalTargets ai)) ai)) →
  (∀ r ai, I ai → I (set_rand r ai)) →
  (∀ cat l ai,
     I ai → I (set_config (set_CardListForCategory cat l (config ai)) ai)) →
  ∀ ai, reachable range ai → I ai.
Proof.
  intros Hsetup Hmarked Hhand Hunres Hrecent Hrand Hcards ai Hreach.
  cut (grid_ok ai ∧ I ai); [by intros [_ ?] |].
  assert (∀ card location ai,
            grid_ok ai ∧ I ai →
            wp (_markCardLocation card location)
               (λ _ ai', grid_ok ai' ∧ I ai') ai) as Hmark.
  { intros card location ai0 [Hok HI]. unfold wp.
    destruct (decide (in_catalog ai0 card)) as [Hc|Hc].
    - destruct (decide (status (knowledge ai0) card location = StatusYes)).
      + by rewrite mark_known.
      + rewrite mark_fresh; [|done.. |by apply Hok].
        split; [by apply grid_ok_marked | by apply Hmarked].
    - by rewrite mark_invalid. }
  assert (∀ h ai, grid_ok ai ∧ I ai → grid_ok (set_hand h ai) ∧ I (set_hand h ai))
    as Hhand' by (intros h ai0 [? ?]; split; [done | by apply Hhand]).
  assert (∀ u ai, grid_ok ai ∧ I ai →
                  grid_ok (set_unresolvedSuggestions u ai) ∧
                  I (set_unresolvedSuggestions u ai))
    as Hunres' by (intros u ai0 [? ?]; split; [done | by apply Hunres]).
  assert (∀ s ai, grid_ok ai ∧ I ai →
            grid_ok (set_recentSurgicalTargets
                       (Push s (recentSurgicalTargets ai)) ai) ∧
            I (set_recentSurgicalTargets (Push s (recentSurgicalTargets ai)) ai))
    as Hrecent' by (intros s ai0 [? ?]; split; [done | by apply Hrecent]).
  assert (∀ r ai, grid_ok ai ∧ I ai → grid_ok (set_rand r ai) ∧ I (set_rand r ai))
    as Hrand' by (intros r ai0 [? ?]; split; [done | by apply Hrand]).
  assert (∀ cat l ai, grid_ok ai ∧ I ai →
            grid_ok (set_config (set_CardListForCategory cat l (config ai)) ai) ∧
            I (set_config (set_CardListForCategory cat l (config ai)) ai))
    as Hcards'.
  { intros cat l ai0 [? ?]. split; [by apply grid_ok_set_cards | by apply Hcards]. }
  induction Hreach as [cfg ps me ch r Hcat
                 |ai cards ai' out _ IH Hrun
                 |ai e ai' out _ IH Hrun
                 |ai s ai' out _ IH Hrun
                 |ai s ai' out _ IH Hrun
                 |ai sg card ai' out _ IH Hrun].
  - split; [by apply Setup_grid_ok | by apply Hsetup].
  - assert (wp (ReceiveHand cards) (λ _ ai', grid_ok ai' ∧ I ai') ai) as Hwp.
    { apply wp_ReceiveHand_inv; first [exact Hmark | exact Hhand' | exact Hunres' | done]. }
    unfold wp in Hwp. by rewrite Hrun in Hwp.
  - assert (wp (HandleEvent range e) (λ _ ai', grid_ok ai' ∧ I ai') ai) as Hwp.
    { apply wp_HandleEvent_inv; first [exact Hmark | exact Hunres' | done]. }
    unfold wp in Hwp. by rewrite Hrun in Hwp.
  - assert (wp (MakeSuggestion range) (λ _ ai', grid_ok ai' ∧ I ai') ai) as Hwp.
    { apply wp_MakeSuggestion_inv;
        first [exact Hrecent' | exact Hrand' | exact Hcards' | done]. }
    unfold wp in Hwp. by rewrite Hrun in Hwp.
  - assert (wp ShouldAccuse (λ _ ai', grid_ok ai' ∧ I ai') ai) as Hwp.
    { by apply wp_ShouldAccuse_inv. }
    unfold wp in Hwp. by rewrite Hrun in Hwp.
  - assert (wp (ChooseCardToShow range sg) (λ _ ai', grid_ok ai' ∧ I ai') ai)
      as Hwp.
    { apply wp_ChooseCardToShow_inv; first [exact Hrand' | done]. }
    unfold wp in Hwp. by rewrite Hrun in Hwp.
Qed.

(** ** Rows are untouched or settled *)

Lemma untouched_or_settled_marked card location ai :
  untouched_or_settled ai → untouched_or_settled (marked card location ai).
Proof.
  intros Hu c l l' Hl Hl'. rewrite !status_marked.
  change (players (marked card location ai)) with (players ai) in *.
  destruct (decide (c = card)) as [->|]; [|by apply Hu].
  destruct (decide (l = location)); [done |].
  by rewrite decide_True.
Qed.

Lemma reachable_untouched_or_settled range ai :
  reachable range ai → untouched_or_settled ai.
Proof.
  apply (reachable_invariant range untouched_or_settled); try done.
  - intros cfg ps me ch r _ card l l' _ _ _. apply Setup_status.
  - intros card location ai0 _. apply untouched_or_settled_marked.
Qed.

Lemma length_filter_all {A} (P : A → Prop) `{!∀ x, Decision (P x)} (l : list A) :
  (∀ x, x ∈ l → P x) → filter P l = l.
Proof.
  induction l as [|x l IH]; intros Hall; [done |].
  rewrite filter_cons, decide_True by (apply Hall; left).
  f_equal. apply IH. intros y Hy. apply Hall. by right.
Qed.

Lemma scan_locations_maybes k card locs maybes :
  (∀ l l', l ∈ locs → l' ∈ locs →
           status k card l = StatusMaybe → status k card l' = StatusMaybe) →
  scan_locations k card locs [] = (false, maybes) →
  maybes = [] ∨ maybes = locs.
Proof.
  intros Hu [-> _]%scan_locations_false. simpl.
  destruct (filter _ locs) as [|l0 rest] eqn:Hf; [by left |]. right.
  rewrite <- Hf. apply length_filter_all. intros l Hl.
  assert (l0 ∈ filter (λ l, status k card l = StatusMaybe) locs) as Hl0
    by (rewrite Hf; left).
  apply list_elem_of_filter in Hl0 as [Hm Hin]. by apply (Hu l0 l).
Qed.

Lemma deduce_card_location_idle card ai :
  untouched_or_settled ai → players ai ≠ [] →
  deduce_card_location card ai = Ok false ai [].
Proof.
  intros Hu Hps. unfold deduce_card_location. rewrite !bind_gets.
  destruct (scan_locations _ _ _ _) as [isKnown maybes] eqn:Hscan.
  destruct isKnown; [done |].
  apply scan_locations_maybes in Hscan as [->| ->]; [done | | by apply Hu].
  simpl. rewrite bool_decide_eq_false_2; [done |].
  unfold allLocations. rewrite length_app. simpl.
  destruct (players ai); [done | simpl; lia].
Qed.

Lemma for_each_changed_idle {A} (body : A → M bool) l ai :
  (∀ x, body x ai = Ok false ai []) →
  for_each_changed body l false ai = Ok false ai [].
Proof.
  intros Hbody. induction l as [|x l IH]; [done |].
  simpl. erewrite bind_quiet by apply Hbody. exact IH.
Qed.

(** X9. The brain records a No only together with a Yes: on every state it
    goes through, the row of a card over the players and the solution is
    either untouched (Maybe everywhere) or settled (no Maybe left).  The rule
    that places a card at its only remaining location therefore never fires
    for a brain that knows of one player or more:
    [_deduceCardLocationsByElimination] reports no change, logs nothing and
    leaves the brain as it was. *)
Theorem location_elimination_never_fires range ai :
  reachable range ai → players ai ≠ [] →
  untouched_or_settled ai ∧
  _deduceCardLocationsByElimination ai = Ok false ai [].
Proof.
  intros Hu%reachable_untouched_or_settled Hps. split; [done |].
  unfold _deduceCardLocationsByElimination. rewrite bind_gets.
  apply for_each_changed_idle. intros card.
  by apply deduce_card_location_idle.
Qed.

Lemma location_elimination_never_fires_witness :
  untouched_or_settled brain_with_two_mysteries ∧
  _deduceCardLocationsByElimination brain_with_two_mysteries
  = Ok false brain_with_two_mysteries [].
Proof.
  apply (location_elimination_never_fires range_listed).
  - apply brain_with_two_mysteries_reachable.
  - apply (bool_decide_unpack _). vm_compute. exact I.
Defined.

(** ** Suggestion building leaves the notes alone *)

Lemma same_notes_refl ai : same_notes ai ai.
Proof. by repeat split. Qed.

Lemma same_notes_order ai0 cat l ai :
  same_notes ai0 ai → l ≡ₚ CardListForCategory (config ai) cat →
  same_notes ai0 (set_config (set_CardListForCategory cat l (config ai)) ai).
Proof.
  intros (Hn & Hp & Hh & Hk & Hu & Ha & Hc & Hl) Hperm.
  do 5 (split; [done |]). split; [by destruct cat |].
  split; [by destruct cat |].
  intros cat'. rewrite <- (Hl cat').
  destruct cat, cat'; simpl; done.
Qed.

Lemma wp_MakeSuggestion_notes range ai :
  wp (MakeSuggestion range) (λ _ ai', same_notes ai ai') ai.
Proof.
  apply (wp_MakeSuggestion_keeps (λ ai', same_notes ai ai')).
  - by intros s ai0.
  - by intros r ai0.
  - intros cat l ai0. apply same_notes_order.
  - apply same_notes_refl.
Qed.

(** ** A suggestion names a card in every category *)











(** ** What the choosers are asked and what they answer *)

Lemma Choose_nil ai : Choose [] ai = Ok ("", []) ai [].
Proof. unfold Choose. rewrite bind_gets. by destruct (chooser ai). Qed.

Lemma filter_nil_length {A} (P : A → Prop) `{!∀ x, Decision (P x)} (l : list A) x :
  ¬ 0 < length (filter P l) → x ∈ l → ¬ P x.
Proof.
  intros Hlen Hin HP.
  assert (x ∈ filter P l) as Hx by (by apply list_elem_of_filter).
  destruct (filter P l); [by apply elem_of_nil in Hx | simpl in Hlen; lia].
Qed.

(** X11. [_pickUnknownCard] returns from every state.  It picks a card of
    the category (the empty string when the category has no card); when the
    category has a card outside the hand of the brain, the card picked is
    outside the hand; and when it has a card outside the hand that is still
    Maybe at the solution, the card picked is still Maybe at the solution. *)
Theorem pickUnknownCard_prefers_unknown_cards cat ai :
  ∃ card ai' out,
    _pickUnknownCard cat ai = Ok card ai' out ∧
    (CardListForCategory (config ai) cat = [] → card = "") ∧
    (CardListForCategory (config ai) cat ≠ [] →
     card ∈ CardListForCategory (config ai) cat) ∧
    (∀ c, c ∈ CardListForCategory (config ai) cat → c ∉ hand ai →
          card ∉ hand ai) ∧
    (∀ c, c ∈ CardListForCategory (config ai) cat → c ∉ hand ai →
          status (knowledge ai) c "solution" = StatusMaybe →
          status (knowledge ai) card "solution" = StatusMaybe).
Proof.
  unfold _pickUnknownCard. rewrite !bind_gets. cbv zeta.
  set (cardList := CardListForCategory (config ai) cat).
  set (maybes := filter _ cardList).
  destruct (decide (0 < length maybes)) as [Hm|Hm].
  - rewrite bind_gets.
    destruct (lookup_Intn_is_Some maybes (rand ai) Hm) as [card Hcard].
    destruct (Intn (length maybes) (rand ai)) as [i r'] eqn:Hi.
    simpl in Hcard. rewrite bind_modify, Hcard.
    apply list_elem_of_lookup_2, list_elem_of_filter in Hcard
      as [[Hnh Hs] Hin].
    exists card, (set_rand r' ai), []. split; [done |].
    split; [intros Hnil; rewrite Hnil in Hin; by apply elem_of_nil in Hin |].
    by repeat split.
  - assert (∀ c, c ∈ cardList → c ∉ hand ai →
                 status (knowledge ai) c "solution" ≠ StatusMaybe) as Hnone.
    { intros c Hc Hnh Hs.
      by apply (filter_nil_length _ cardList c Hm Hc). }
    set (notMyCards := filter _ cardList).
    destruct (decide (0 < length notMyCards)) as [Hn|Hn].
    + destruct (Choose_spec notMyCards ai)
        as (card & cards' & r & Hrun & Hin & _).
      { intros Hnil. rewrite Hnil in Hn. simpl in Hn. lia. }
      apply list_elem_of_filter in Hin as [Hnh Hin].
      exists card, (set_rand r ai), []. split.
      { unfold bind. by rewrite Hrun. }
      split; [intros Hnil; rewrite Hnil in Hin; by apply elem_of_nil in Hin |].
      split; [done |]. split; [done |].
      intros c Hc Hch Hs. by destruct (Hnone c Hc Hch).
    + assert (∀ c, c ∈ cardList → c ∈ hand ai) as Hall.
      { intros c Hc. destruct (decide (c ∈ hand ai)) as [|Hnh]; [done |].
        by destruct (filter_nil_length _ cardList c Hn Hc). }
      destruct (decide (cardList = [])) as [Hnil|Hne].
      * rewrite Hnil. unfold bind. rewrite Choose_nil. simpl.
        eexists "", _, []. split; [done |]. split; [done |].
        split; [done |].
        split; intros c Hc; by apply elem_of_nil in Hc.
      * destruct (Choose_spec cardList ai Hne)
          as (card & cards' & r & Hrun & Hin & _).
        unfold bind. rewrite Hrun. simpl.
        eexists card, _, []. split; [done |]. split; [done |].
        split; [done |].
        split; intros c Hc Hnh; by destruct (Hnh (Hall c Hc)).
Qed.

Section Showing.

Variable range : ∀ A : Type, list A → list A.
Hypothesis range_perm : ∀ A (l : list A), range A l ≡ₚ l.

Lemma ChooseCardToShow_run suggestion ai :
  ∃ card r out,
    ChooseCardToShow range suggestion ai = Ok card (set_rand r ai) out ∧
    ((card ∈ hand ai ∧ ∃ cat, suggestion !! cat = Some card) ∨
     (card = "" ∧ ∀ cat c, suggestion !! cat = Some c → c ∉ hand ai)).
Proof.
  unfold ChooseCardToShow. rewrite bind_gets. cbv zeta.
  set (canShow := filter _ _).
  destruct (decide (canShow = [])) as [Hnil|Hne].
  - rewrite Hnil. unfold bind. rewrite Choose_nil. simpl.
    exists "", (rand ai), []. rewrite set_rand_same. split; [done |].
    right. split; [done |]. intros cat c Hc Hh.
    assert (c ∈ canShow) as Hin.
    { apply list_elem_of_filter. split; [done |].
      apply elem_of_suggested_cards; [done | eauto]. }
    rewrite Hnil in Hin. by apply elem_of_nil in Hin.
  - destruct (Choose_spec canShow ai Hne)
      as (card & cards' & r & Hrun & Hin & _).
    unfold bind. rewrite Hrun. simpl.
    exists card, r, []. split; [done |]. left.
    apply list_elem_of_filter in Hin as [Hh Hin]. split; [done |].
    by apply elem_of_suggested_cards in Hin.
Qed.

(** X12. [ChooseCardToShow] returns from every state and writes nothing but
    the random source.  The card it returns is a card of the suggestion that
    the brain holds; when the brain holds none of the suggested cards it
    returns the empty string. *)
Theorem ChooseCardToShow_shows_a_held_card suggestion ai :
  ∃ card r out,
    ChooseCardToShow range suggestion ai = Ok card (set_rand r ai) out ∧
    ((card ∈ hand ai ∧ ∃ cat, suggestion !! cat = Some card) ∨
     (card = "" ∧ ∀ cat c, suggestion !! cat = Some c → c ∉ hand ai)).
Proof. apply ChooseCardToShow_run. Qed.

End Showing.

Lemma ChooseCardToShow_shows_a_held_card_witness :
  ∃ card r out,
    ChooseCardToShow range_listed (suggestion_of "Mrs. White" "Rope" "Study")
      brain_with_three_cards
    = Ok card (set_rand r brain_with_three_cards) out ∧
    ((card ∈ hand brain_with_three_cards ∧
      ∃ cat, suggestion_of "Mrs. White" "Rope" "Study" !! cat = Some card) ∨
     (card = "" ∧
      ∀ cat c, suggestion_of "Mrs. White" "Rope" "Study" !! cat = Some c →
               c ∉ hand brain_with_three_cards)).
Proof.
  apply (ChooseCardToShow_shows_a_held_card range_listed range_listed_perm).
Defined.

(** ** What the brain tracks stays small *)

Lemma Push_within_capacity s d :
  length (deque_elements d) ≤ maxSize d →
  length (deque_elements (Push s d)) ≤ maxSize (Push s d).
Proof.
  intros Hlen. unfold Push; simpl. case_decide as Hfull.
  - rewrite length_drop, length_app. simpl. lia.
  - lia.
Qed.

Lemma reachable_within_capacity range ai :
  reachable range ai →
  length (deque_elements (recentSurgicalTargets ai))
  ≤ maxSize (recentSurgicalTargets ai).
Proof.
  apply (reachable_invariant range
           (λ ai, length (deque_elements (recentSurgicalTargets ai))
                  ≤ maxSize (recentSurgicalTargets ai))); try done.
  - intros. simpl. lia.
  - intros s ai0. apply Push_within_capacity.
Qed.

(** X13. What the brain tracks stays small.  On every state the brain goes
    through, each tracked mystery has two candidate cards or more (a mystery
    with fewer is resolved or dropped before the handler returns), and the
    buffer of recent Surgical Strike targets has capacity three and holds
    three cards at most. *)
Theorem tracked_state_stays_small range ai :
  reachable range ai →
  well_tracked ai ∧
  maxSize (recentSurgicalTargets ai) = 3 ∧
  length (deque_elements (recentSurgicalTargets ai)) ≤ 3.
Proof.
  intros Hreach. split; [by eapply reachable_well_tracked |].
  pose proof (reachable_maxSize _ _ Hreach) as Hmax.
  pose proof (reachable_within_capacity _ _ Hreach) as Hlen.
  split; [done | lia].
Qed.

Lemma tracked_state_stays_small_witness :
  well_tracked brain_with_two_mysteries ∧
  maxSize (recentSurgicalTargets brain_with_two_mysteries) = 3 ∧
  length (deque_elements (recentSurgicalTargets brain_with_two_mysteries)) ≤ 3.
Proof.
  apply (tracked_state_stays_small range_listed).
  apply brain_with_two_mysteries_reachable.
Defined.

(** ** The two choosers *)

(** X14. What [Choose] answers.  On an empty slice both choosers return the
    empty string and touch nothing.  On a slice with cards the random
    chooser consumes one draw of the random source and returns the card at
    the index drawn, leaving the slice as it was; the deterministic chooser
    returns a least card of the slice in the byte-wise order of strings,
    draws nothing, and leaves the slice of its caller sorted. *)
Theorem Choose_answers cards ai :
  cards ≠ [] →
  Choose [] ai = Ok ("", []) ai [] ∧
  ∃ card,
    card ∈ cards ∧
    match chooser ai with
    | RandomChooser =>
        cards !! (hd 0 (rand ai) `mod` length cards) = Some card ∧
        Choose cards ai = Ok (card, cards) (set_rand (tl (rand ai)) ai) []
    | DeterministicChooser =>
        (∀ x, x ∈ cards → string_le card x) ∧
        Choose cards ai = Ok (card, sort_Strings cards) ai []
    end.
Proof.
  intros Hne. split; [apply Choose_nil |].
  assert (length cards ≠ 0) as Hlen by (by destruct cards).
  unfold Choose. rewrite bind_gets. destruct (chooser ai).
  - rewrite decide_False by done. rewrite bind_gets.
    destruct (lookup_Intn_is_Some cards (rand ai)) as [card Hcard]; [lia |].
    unfold Intn in *. simpl in Hcard. rewrite bind_modify, Hcard.
    exists card. split; [by eapply list_elem_of_lookup_2 | done].
  - rewrite decide_False by done. cbv zeta.
    destruct (sort_Strings cards) as [|card rest] eqn:Hs.
    { pose proof (sort_Strings_length cards) as Hl. rewrite Hs in Hl.
      simpl in Hl. lia. }
    pose proof (sort_Strings_head _ _ _ Hs) as [Hin Hmin].
    exists card. by repeat split.
Qed.

Lemma Choose_answers_witness :
  Choose [] brain_with_three_cards = Ok ("", []) brain_with_three_cards [] ∧
  ∃ card,
    card ∈ ["Rope"; "Hall"] ∧
    match chooser brain_with_three_cards with
    | RandomChooser =>
        ["Rope"; "Hall"]
          !! (hd 0 (rand brain_with_three_cards) `mod` length ["Rope"; "Hall"])
        = Some card ∧
        Choose ["Rope"; "Hall"] brain_with_three_cards
        = Ok (card, ["Rope"; "Hall"])
             (set_rand (tl (rand brain_with_three_cards)) brain_with_three_cards)
             []
    | DeterministicChooser =>
        (∀ x, x ∈ ["Rope"; "Hall"] → string_le card x) ∧
        Choose ["Rope"; "Hall"] brain_with_three_cards
        = Ok (card, sort_Strings ["Rope"; "Hall"]) brain_with_three_cards []
    end.
Proof. apply (Choose_answers ["Rope"; "Hall"]). discriminate. Defined.

(** ** The state [Setup] leaves *)

Lemma Setup_row_inv cfg playerNames myName ch r card :
  is_Some (knowledge (Setup cfg playerNames myName ch r) !! card) →
  card ∈ AllCards cfg.
Proof.
  simpl.
  cut (∀ (k : gmap string (gmap string CardStatus)) cards,
         is_Some (foldl (λ k card,
                    <[card := <["solution" := StatusMaybe]>
                                (foldl (λ row pName, <[pName := StatusMaybe]> row)
                                       ∅ playerNames)]> k) k cards !! card) →
         card ∈ cards ∨ is_Some (k !! card)).
  { intros H Hrow. destruct (H _ _ Hrow) as [?|[? Hk]]; [done |].
    by rewrite lookup_empty in Hk. }
  intros k cards. revert k. induction cards as [|c cards IH]; intros k; simpl.
  - by right.
  - intros [Hin|Hk]%IH; [left; by right |].
    destruct (decide (card = c)) as [->|Hne]; [left; by left |].
    rewrite lookup_insert_ne in Hk by done. by right.
Qed.

Lemma first_yes_blank k l :
  (∀ card, status k card "solution" ≠ StatusYes) → first_yes k l = None.
Proof.
  intros Hk. induction l as [|c l IH]; [done |]. simpl.
  by rewrite decide_False by apply Hk.
Qed.

(** X15. [Setup] leaves a blank record: every card reads Maybe at every
    location, the grid has a row for exactly the cards of [AllCards], and
    the brain, asked at once whether it should accuse, answers no and stays
    as it is. *)
Theorem Setup_leaves_a_blank_record cfg playerNames myName ch r :
  (∀ card l,
     status (knowledge (Setup cfg playerNames myName ch r)) card l
     = StatusMaybe) ∧
  (∀ card,
     is_Some (knowledge (Setup cfg playerNames myName ch r) !! card) ↔
     card ∈ AllCards cfg) ∧
  ShouldAccuse (Setup cfg playerNames myName ch r)
  = Ok None (Setup cfg playerNames myName ch r) [].
Proof.
  split; [apply Setup_status |].
  split; [intros card; split; [apply Setup_row_inv | apply Setup_row] |].
  unfold ShouldAccuse, categories. cbn [ShouldAccuse_loop].
  erewrite bind_quiet.
  2:{ erewrite bind_quiet by apply ShouldAccuse_loop_body_run.
      rewrite first_yes_blank; [reflexivity |].
      intros card. by rewrite Setup_status. }
  reflexivity.
Qed.

(** ** The hand on the grid *)

Lemma mark_other_keeps_row card location c ai b ai' out :
  _markCardLocation card location ai = Ok b ai' out → card ≠ c →
  knowledge ai' !! c = knowledge ai !! c.
Proof.
  intros [[_ ->]|(_ & -> & _)]%mark_inv Hne; [done |].
  by apply lookup_marked_ne.
Qed.

Lemma own_row_ext ai ai' c :
  name ai' = name ai → players ai' = players ai →
  knowledge ai' !! c = knowledge ai !! c →
  own_row ai c → own_row ai' c.
Proof.
  unfold own_row, status. intros -> -> ->. done.
Qed.

Lemma own_row_settled ai c l :
  own_row ai c → l ∈ allLocations (players ai) →
  status (knowledge ai) c l ≠ StatusMaybe.
Proof.
  intros [Hyes Hno] Hl. destruct (decide (l = name ai)) as [->|Hne].
  - by rewrite Hyes.
  - by rewrite Hno.
Qed.

(** With no mystery tracked, the deduction loop leaves a settled row as it
    is. *)
Lemma wp_deduction_loop_keeps_row bound c ai :
  grid_ok ai → unresolvedSuggestions ai = [] →
  (∀ l, l ∈ allLocations (players ai) →
        status (knowledge ai) c l ≠ StatusMaybe) →
  wp (deduction_loop bound)
     (λ _ ai', name ai' = name ai ∧ players ai' = players ai ∧
               knowledge ai' !! c = knowledge ai !! c) ai.
Proof.
  intros Hok Hnil Hsettled.
  eapply wp_mono.
  - apply (wp_deduction_loop_guarded
             (λ ai', grid_ok ai' ∧ unresolvedSuggestions ai' = [] ∧
                     name ai' = name ai ∧ players ai' = players ai ∧
                     knowledge ai' !! c = knowledge ai !! c)
             (λ card _ _, card ≠ c) (λ _, False)).
    + intros card location ai0 (Hok0 & Hnil0 & Hn0 & Hp0 & Hk0) Hne.
      pose proof (wp_mark_grid_ok card location ai0 Hok0) as Hwp.
      apply wp_Ok in Hwp as (b & ai1 & out & Hrun & Hok1).
      apply wp_Ok. exists b, ai1, out. split; [done |].
      pose proof (mark_other_keeps_row _ _ _ _ _ _ _ Hrun Hne) as Hrow.
      apply mark_keeps_seat in Hrun as ((Hn1 & _ & Hp1) & _ & Hu1).
      repeat split; [apply Hok1.. | | | |]; congruence.
    + intros ai0 (_ & -> & _). constructor.
    + intros u ai0 (? & _ & ? & ? & ?) Hu. destruct u as [|m u].
      * split; [done |]. by repeat split.
      * by apply Forall_cons in Hu as [[] _].
    + intros m ai0 _ [].
    + intros m card ai0 _ [].
    + intros cat card ai0 (_ & _ & _ & Hp0 & Hk0) _ Hfilter ->.
      assert (c ∈ [c]) as Hin by left. rewrite <- Hfilter in Hin.
      apply list_elem_of_filter in Hin as [Hm _].
      apply (Hsettled "solution").
      * unfold allLocations. apply elem_of_app. right. left.
      * unfold status in *. by rewrite <- Hk0.
    + intros card loc ai0 (_ & _ & _ & Hp0 & Hk0) [Hms _]%scan_locations_false ->.
      simpl in Hms. assert (loc ∈ [loc]) as Hin by left.
      rewrite Hms in Hin. apply list_elem_of_filter in Hin as [Hm Hin].
      apply (Hsettled loc).
      * by rewrite <- Hp0.
      * unfold status in *. by rewrite <- Hk0.
    + split; [done |]. by repeat split.
  - by intros ? ai' (_ & _ & ? & ? & ?).
Qed.

Lemma own_row_after_mark card ai b ai' out :
  grid_ok ai → name ai ∈ players ai → in_catalog ai card →
  _markCardLocation card (name ai) ai = Ok b ai' out →
  own_row ai' card.
Proof.
  intros [_ Hex] Hme Hcat Hrun.
  destruct (decide (status (knowledge ai) card (name ai) = StatusYes))
    as [Hyes|Hnot].
  - rewrite mark_known in Hrun by done. injection Hrun as _ <- _.
    split; [done |]. intros l Hl Hne. apply (Hex card (name ai) l); try done.
    unfold allLocations. apply elem_of_app. by left.
  - destruct (knowledge ai !! card) eqn:Hrow.
    + rewrite mark_fresh in Hrun by eauto. injection Hrun as _ <- _.
      split.
      * rewrite status_marked. by rewrite !decide_True.
      * intros l Hl Hne. rewrite status_marked.
        rewrite decide_True by done. rewrite decide_False by done.
        by rewrite decide_True.
    + by rewrite mark_unallocated in Hrun.
Qed.

(** The loop of [ReceiveHand] settles the row of every card of the catalog
    it is handed. *)
Lemma wp_receive_loop_rows cards (seen : list string) ai :
  grid_ok ai → name ai ∈ players ai →
  (∀ c, c ∈ seen → in_catalog ai c → own_row ai c) →
  wp (for_each (λ card,
        modify (λ ai, set_hand ({[card]} ∪ hand ai) ai) ;;
        let* me := gets name in
        _markCardLocation card me ;;
        ret tt) cards)
     (λ _ ai', grid_ok ai' ∧ same_seat ai ai' ∧
               unresolvedSuggestions ai' = unresolvedSuggestions ai ∧
               ∀ c, c ∈ seen ∨ c ∈ cards → in_catalog ai c → own_row ai' c) ai.
Proof.
  revert seen ai.
  induction cards as [|card cards IH]; intros seen ai Hok Hme Hdone; simpl.
  - apply wp_ret. split; [done |]. split; [apply same_seat_refl |].
    split; [done |]. intros c [Hc|Hc]; [by apply Hdone |].
    by apply elem_of_nil in Hc.
  - apply wp_bind. wp_step. wp_step. apply wp_bind.
    set (ai0 := set_hand ({[card]} ∪ hand ai) ai).
    assert (grid_ok ai0) as Hok0 by exact Hok.
    pose proof (wp_mark_grid_ok card (name ai0) ai0 Hok0) as Hwp.
    apply wp_Ok in Hwp as (b & ai1 & out & Hrun & Hok1).
    apply wp_Ok. exists b, ai1, out. split; [done |]. wp_step. cbn beta.
    pose proof (mark_keeps_seat _ _ _ _ _ _ Hrun)
      as ((Hn1 & Hc1 & Hp1) & _ & Hu1).
    simpl in Hn1, Hc1, Hp1, Hu1.
    eapply wp_mono.
    + apply (IH (card :: seen) ai1); [done | by rewrite Hn1, Hp1 |].
      intros c Hc Hcat.
      assert (in_catalog ai0 c) as Hcat0.
      { unfold in_catalog in *. rewrite Hc1 in Hcat. exact Hcat. }
      destruct (decide (card = c)) as [->|Hne].
      * by apply (own_row_after_mark c ai0 b ai1 out).
      * apply elem_of_cons in Hc as [->|Hc]; [done |].
        apply (own_row_ext ai); [done.. | |by apply Hdone].
        by apply (mark_other_keeps_row _ _ _ _ _ _ _ Hrun).
    + intros ? ai2 (Hok2 & (Hn2 & Hc2 & Hp2) & Hu2 & Hrows).
      split; [done |]. split; [unfold same_seat; repeat split; congruence |].
      split; [congruence |].
      intros c Hc Hcat. apply Hrows.
      * destruct Hc as [Hc|[->|Hc]%elem_of_cons]; auto.
        -- left. by right.
        -- left. by left.
      * unfold in_catalog in *. by rewrite Hc1.
Qed.

Lemma wp_ReceiveHand_row cards c ai :
  grid_ok ai → unresolvedSuggestions ai = [] → name ai ∈ players ai →
  c ∈ cards → in_catalog ai c →
  wp (ReceiveHand cards) (λ _ ai', own_row ai' c) ai.
Proof.
  intros Hok Hnil Hme Hin Hcat. unfold ReceiveHand. apply wp_bind.
  eapply wp_mono.
  { apply (wp_receive_loop_rows cards []); [done.. |].
    intros ? Hc. by apply elem_of_nil in Hc. }
  intros ? ai1 (Hok1 & (Hn1 & Hc1 & Hp1) & Hu1 & Hrows). cbn beta.
  assert (own_row ai1 c) as Hrow by (apply Hrows; auto).
  eapply wp_mono.
  { apply (wp_deduction_loop_keeps_row _ c); [done | congruence |].
    intros l Hl. by apply own_row_settled. }
  intros ? ai2 (Hn2 & Hp2 & Hk2). by apply (own_row_ext ai1).
Qed.

Lemma Hand_lists_the_hand ai :
  StronglySorted string_le (Hand ai) ∧ NoDup (Hand ai) ∧
  ∀ x, x ∈ Hand ai ↔ x ∈ hand ai.
Proof.
  unfold Hand. split; [apply sort_Strings_sorted |]. split.
  - rewrite sort_Strings_perm. apply NoDup_elements.
  - intros x. rewrite sort_Strings_elem_of. apply elem_of_elements.
Qed.

(** X16. [ReceiveHand] records the hand.  On a state the brain goes through
    with no mystery tracked, for a brain that is one of the players,
    [ReceiveHand] returns; afterwards [Hand] lists, sorted and without
    duplicates, the cards handed over and the cards held before (cards that
    are not of the catalog included), and every card of the catalog handed
    over reads Yes at the brain and No at every other player and at the
    solution. *)
Theorem ReceiveHand_records_the_hand range cards ai :
  reachable range ai → unresolvedSuggestions ai = [] → name ai ∈ players ai →
  ∃ ai' out,
    ReceiveHand cards ai = Ok tt ai' out ∧
    StronglySorted string_le (Hand ai') ∧ NoDup (Hand ai') ∧
    (∀ x, x ∈ Hand ai' ↔ x ∈ cards ∨ x ∈ hand ai) ∧
    ∀ card, card ∈ cards → in_catalog ai card → own_row ai' card.
Proof.
  intros Hok%reachable_grid_ok Hnil Hme.
  pose proof (wp_ReceiveHand_hand cards ai Hok) as Hwp.
  apply wp_Ok in Hwp as ([] & ai' & out & Hrun & _ & _ & Hh).
  exists ai', out. split; [done |].
  destruct (Hand_lists_the_hand ai') as (Hsorted & Hnodup & Hmem).
  do 2 (split; [done |]). split.
  - intros x. rewrite Hmem, Hh, elem_of_union, elem_of_list_to_set. done.
  - intros card Hin Hcat.
    pose proof (wp_ReceiveHand_row cards card ai Hok Hnil Hme Hin Hcat) as Hrow.
    unfold wp in Hrow. by rewrite Hrun in Hrow.
Qed.

Lemma ReceiveHand_records_the_hand_witness :
  ∃ ai' out,
    ReceiveHand three_cards (fresh_brain []) = Ok tt ai' out ∧
    StronglySorted string_le (Hand ai') ∧ NoDup (Hand ai') ∧
    (∀ x, x ∈ Hand ai' ↔ x ∈ three_cards ∨ x ∈ hand (fresh_brain [])) ∧
    ∀ card, card ∈ three_cards → in_catalog (fresh_brain []) card →
            own_row ai' card.
Proof.
  apply (ReceiveHand_records_the_hand range_listed).
  - apply fresh_brain_reachable.
  - reflexivity.
  - apply (bool_decide_unpack _). vm_compute. exact I.
Defined.

(** * The game *)

(** ** The monad of the game *)

Lemma game_wp_Returned {A} (m : game.G A) Q g :
  game_wp m Q g ↔ ∃ a g' out, m g = game.Returned a g' out ∧ Q a g'.
Proof.
  unfold game_wp. destruct (m g) as [|a g' out].
  - split; [done | by intros (? & ? & ? & ? & ?)].
  - split; [by exists a, g', out |].
    by intros (? & ? & ? & [= <- <- <-] & ?).
Qed.

Lemma game_wp_mono {A} (m : game.G A) (Q Q' : A → game.Game → Prop) g :
  game_wp m Q g → (∀ a g', Q a g' → Q' a g') → game_wp m Q' g.
Proof. unfold game_wp. destruct (m g); [done | auto]. Qed.

Lemma game_wp_ret {A} (a : A) (Q : A → game.Game → Prop) g :
  Q a g → game_wp (game.ret a) Q g.
Proof. done. Qed.

Lemma game_wp_bind {A B} (m : game.G A) (f : A → game.G B) Q g :
  game_wp m (λ a g', game_wp (f a) Q g') g → game_wp (game.bind m f) Q g.
Proof.
  unfold game_wp, game.bind. destruct (m g) as [|a g' o1]; [done |].
  by destruct (f a g').
Qed.

Lemma game_wp_gets {A B} (proj : game.Game → A) (f : A → game.G B) Q g :
  game_wp (f (proj g)) Q g → game_wp (game.bind (game.gets proj) f) Q g.
Proof. intros H. apply game_wp_bind. exact H. Qed.

Lemma game_wp_modify {B} h (f : unit → game.G B) Q g :
  game_wp (f tt) Q (h g) → game_wp (game.bind (game.modify h) f) Q g.
Proof. intros H. apply game_wp_bind. exact H. Qed.

Lemma game_wp_emit {B} o (f : unit → game.G B) Q g :
  game_wp (f tt) Q g → game_wp (game.bind (game.emit o) f) Q g.
Proof. intros H. apply game_wp_bind. exact H. Qed.

Lemma game_bind_quiet {A B} (m : game.G A) (f : A → game.G B) g a :
  m g = game.Returned a g [] → game.bind m f g = f a g.
Proof. intros Hm. unfold game.bind. rewrite Hm. by destruct (f a g). Qed.

Lemma game_set_Players_same g : game.set_Players (game.Players g) g = g.
Proof. by destruct g. Qed.

Lemma game_wp_player_at {B} i p (f : game.Player → game.G B) Q g :
  game.Players g !! i = Some p →
  game_wp (f p) Q g → game_wp (game.bind (game.player_at i) f) Q g.
Proof.
  intros Hp H. apply game_wp_bind. unfold game_wp at 1, game.player_at.
  by rewrite Hp.
Qed.

Lemma game_wp_on_player {A B} i p (method : game.Player → option (A * game.Player * list game.Output))
    a p' out (f : A → game.G B) Q g :
  game.Players g !! i = Some p →
  method p = Some (a, p', out) →
  game_wp (f a) Q (game.set_Players (<[i := p']> (game.Players g)) g) →
  game_wp (game.bind (game.on_player i method) f) Q g.
Proof.
  intros Hp Hm H. apply game_wp_bind. unfold game_wp at 1, game.on_player.
  by rewrite Hp, Hm.
Qed.

Lemma game_wp_on_player_last {A} i p
    (method : game.Player → option (A * game.Player * list game.Output))
    a p' out (Q : A → game.Game → Prop) g :
  game.Players g !! i = Some p →
  method p = Some (a, p', out) →
  Q a (game.set_Players (<[i := p']> (game.Players g)) g) →
  game_wp (game.on_player i method) Q g.
Proof.
  intros Hp Hm H. unfold game_wp, game.on_player. by rewrite Hp, Hm.
Qed.

(** ** Publishing changes nothing *)

Section Game.

Variable range : ∀ A : Type, list A → list A.

Lemma HandleEvent_other p :
  game.HandleEvent range OtherEvent p = Some (tt, p, []).
Proof. by destruct p. Qed.

Lemma for_range_listeners from count g :
  from + count ≤ length (game.Players g) →
  game.for_range from count
    (λ i, game.on_player i (game.HandleEvent range OtherEvent)) g
  = game.Returned tt g [].
Proof.
  revert from. induction count as [|count IH]; intros from Hlen; [done |].
  simpl. destruct (lookup_lt_is_Some_2 (game.Players g) from) as [p Hp]; [lia |].
  rewrite (game_bind_quiet _ _ g tt).
  - apply IH. lia.
  - unfold game.on_player. rewrite Hp, HandleEvent_other.
    by rewrite list_insert_id, game_set_Players_same.
Qed.

Lemma Publish_run e g :
  game.Publish range e g = game.Returned tt g [game.Published e].
Proof.
  unfold game.Publish, game.bind, game.emit, game.gets.
  by rewrite for_range_listeners.
Qed.

Lemma game_wp_Publish {B} e (f : unit → game.G B) Q g :
  game_wp (f tt) Q g → game_wp (game.bind (game.Publish range e) f) Q g.
Proof.
  intros H. apply game_wp_bind. unfold game_wp at 1. by rewrite Publish_run.
Qed.

Hypothesis range_perm : ∀ A (l : list A), range A l ≡ₚ l.

(** X17. [checkAccusation] accepts an accusation exactly when each of its
    entries names the card that [g.Solution] holds for the category, a
    category without an entry in [g.Solution] reading as the empty string;
    the order in which the entries are visited does not matter, the game is
    left as it was, and an accusation without entries is accepted. *)
Theorem checkAccusation_compares_with_the_solution accusation g :
  ∃ b,
    game.checkAccusation range accusation g = game.Returned b g [] ∧
    (b = true ↔
     ∀ cat card, accusation !! cat = Some card →
                 default "" (game.Solution g !! cat) = card).
Proof.
  eexists. split; [reflexivity |].
  rewrite forallb_forall. split.
  - intros Hall cat card Hcard.
    assert (In (cat, card) (range _ (map_to_list accusation))) as Hin.
    { apply list_elem_of_In. rewrite range_perm.
      by apply elem_of_map_to_list. }
    apply Hall in Hin. by apply bool_decide_eq_true in Hin.
  - intros Hall [cat card] Hin. apply bool_decide_eq_true. simpl.
    apply Hall. apply list_elem_of_In in Hin. rewrite range_perm in Hin.
    by apply elem_of_map_to_list in Hin.
Qed.

End Game.

Lemma checkAccusation_compares_with_the_solution_witness :
  ∃ b,
    game.checkAccusation range_listed
      (suggestion_of "Mrs. White" "Lead Pipe" "Kitchen")
      {| game.Config := classic; game.Players := [];
         game.Solution := suggestion_of "Mrs. White" "Lead Pipe" "Kitchen";
         game.turn := 0; game.rand := [] |}
    = game.Returned b
        {| game.Config := classic; game.Players := [];
           game.Solution := suggestion_of "Mrs. White" "Lead Pipe" "Kitchen";
           game.turn := 0; game.rand := [] |} [] ∧
    (b = true ↔
     ∀ cat card,
       suggestion_of "Mrs. White" "Lead Pipe" "Kitchen" !! cat = Some card →
       default ""
         (game.Solution
            {| game.Config := classic; game.Players := [];
               game.Solution := suggestion_of "Mrs. White" "Lead Pipe" "Kitchen";
               game.turn := 0; game.rand := [] |} !! cat) = card).
Proof.
  apply (checkAccusation_compares_with_the_solution range_listed
           range_listed_perm).
Defined.

(** ** A well-dealt table *)

Lemma well_seated_frame truth g g' p :
  game.Config g' = game.Config g →
  well_seated truth g p → well_seated truth g' p.
Proof.
  intros Hcfg (H1 & H2 & H3). split; [done |]. split.
  - intros card Hc. apply H2. unfold is_card in *. by rewrite <- Hcfg.
  - destruct p as [h|ai]; [done |]. by rewrite Hcfg.
Qed.

Lemma names_insert (ps : list game.Player) i p p' :
  ps !! i = Some p → game.Name p' = game.Name p →
  game.Name <$> <[i := p']> ps = game.Name <$> ps.
Proof.
  intros Hp Hn. rewrite list_fmap_insert, Hn.
  apply list_insert_id. by rewrite list_lookup_fmap, Hp.
Qed.

Lemma hands_insert (ps : list game.Player) i p p' :
  ps !! i = Some p → hand_of p' = hand_of p →
  hand_of <$> <[i := p']> ps = hand_of <$> ps.
Proof.
  intros Hp Hn. rewrite list_fmap_insert, Hn.
  apply list_insert_id. by rewrite list_lookup_fmap, Hp.
Qed.

(** A player that changes state keeps the table well dealt if it keeps its
    name and is still well seated. *)
Lemma table_ok_update truth g i p p' :
  table_ok truth g → game.Players g !! i = Some p →
  game.Name p' = game.Name p → well_seated truth g p' →
  table_ok truth (game.set_Players (<[i := p']> (game.Players g)) g).
Proof.
  intros (Hnd & Hne & Hsol & Hall & Hloc & Hs) Hp Hn Hseat.
  unfold table_ok. simpl. rewrite (names_insert _ _ _ _ Hp Hn).
  do 3 (split; [done |]). split; [|by split].
  apply Forall_insert; [|by eapply well_seated_frame].
  eapply Forall_impl; [done |]. intros q. by apply well_seated_frame.
Qed.

Lemma table_ok_seated truth g i p :
  table_ok truth g → game.Players g !! i = Some p → well_seated truth g p.
Proof.
  intros (_ & _ & _ & Hall & _) Hp.
  by eapply Forall_lookup_1.
Qed.

(** What the steps of a brain keep of its seat. *)
Lemma well_seated_same_notes truth g ai ai' :
  same_notes ai ai' →
  well_seated truth g (game.AI ai) → well_seated truth g (game.AI ai').
Proof.
  intros (Hn & Hp & Hh & Hk & Hu & Ha & Hc & Hl)
         (H1 & H2 & (Hrows & Hex) & Hcons & Hcoh & Hctt).
  unfold well_seated. simpl in *. split; [by rewrite Hh, Hn |]. split; [by rewrite Hh, Hn |].
  split; [|split; [|split]].
  - split.
    + intros card Hcat. rewrite Hk. apply Hrows.
      unfold in_catalog in *. by rewrite <- Hc.
    + intros card l l'. rewrite Hk, Hp. apply Hex.
  - destruct Hcons as [Hyes Hno Hm Hsol Hloc]. split.
    + intros card loc. rewrite Hk. apply Hyes.
    + intros card loc. rewrite Hk. apply Hno.
    + by rewrite Hu.
    + intros cat Hnil. destruct (Hsol cat) as (card & Hin & Ht).
      { intros Hnil'. apply Hnil. pose proof (Hl cat) as Hl'.
        rewrite Hnil' in Hl'. by apply Permutation_nil_r in Hl'. }
      exists card. split; [by rewrite Hl | done].
    + intros card Hcat. rewrite Hp. apply Hloc.
      unfold in_catalog in *. by rewrite <- Hc.
  - intros cat card Hin. rewrite Hc. apply Hcoh. by rewrite <- Hl.
  - by rewrite Hc.
Qed.

Lemma well_seated_set_rand truth g r ai :
  well_seated truth g (game.AI ai) →
  well_seated truth g (game.AI (set_rand r ai)).
Proof.
  intros (H1 & H2 & Hok & [Hyes Hno Hm Hsol Hloc] & Hcoh & Hctt).
  split; [exact H1 |]. split; [exact H2 |]. split; [exact Hok |].
  split; [by split |]. split; [exact Hcoh | exact Hctt].
Qed.

Lemma well_seated_told truth g ai ai' :
  grid_ok ai' → consistent truth ai' → same_seat ai ai' → hand ai' = hand ai →
  well_seated truth g (game.AI ai) → well_seated truth g (game.AI ai').
Proof.
  intros Hok Hcons (Hn & Hc & Hp) Hh (H1 & H2 & _ & _ & Hcoh & Hctt).
  unfold well_seated. simpl in *. split; [by rewrite Hh, Hn |]. split; [by rewrite Hh, Hn |].
  rewrite Hc. split; [exact Hok |]. split; [exact Hcons |]. by split.
Qed.

Lemma well_seated_holds_own_cards truth g ai :
  well_seated truth g (game.AI ai) → holds_own_cards truth ai.
Proof.
  intros (_ & H2 & _ & _ & _ & Hctt) card Hcat Ht. apply H2; [|done].
  unfold is_card, in_catalog in *. by rewrite <- Hctt.
Qed.

(** ** Finding the disprover *)

Lemma same_table_refl g : same_table g g.
Proof. by repeat split. Qed.

Lemma same_table_trans g1 g2 g3 :
  same_table g1 g2 → same_table g2 g3 → same_table g1 g3.
Proof.
  intros (? & ? & ? & ? & ? & ?) (? & ? & ? & ? & ? & ?).
  unfold same_table. repeat split; congruence.
Qed.

Lemma same_table_update g i p p' :
  game.Players g !! i = Some p →
  game.Name p' = game.Name p → hand_of p' = hand_of p →
  same_table g (game.set_Players (<[i := p']> (game.Players g)) g).
Proof.
  intros Hp Hn Hh. unfold same_table. simpl.
  rewrite (names_insert _ _ _ _ Hp Hn), (hands_insert _ _ _ _ Hp Hh).
  by repeat split.
Qed.

Lemma rem_index k i n :
  0 < n →
  Z.to_nat (Z.rem (Z.of_nat k + Z.of_nat i) (Z.of_nat n)) = (k + i) `mod` n.
Proof.
  intros Hn. rewrite <- Nat2Z.inj_add.
  rewrite Z.rem_mod_nonneg by lia.
  rewrite <- Nat2Z.inj_mod. apply Nat2Z.id.
Qed.

Lemma suggesterIdx_found suggester (ps : list game.Player) i0 k p :
  NoDup (game.Name <$> ps) → ps !! k = Some p → game.Name p = suggester →
  game.suggesterIdx suggester ps i0 = Z.of_nat (i0 + k).
Proof.
  revert i0 k. induction ps as [|q ps IH]; intros i0 k Hnd Hp Hn; [done |].
  simpl. rewrite fmap_cons in Hnd. apply NoDup_cons in Hnd as [Hq Hnd].
  destruct k as [|k]; simpl in Hp.
  - injection Hp as ->. rewrite decide_True by done. f_equal. lia.
  - rewrite decide_False.
    + rewrite (IH (S i0) k) by done. f_equal. lia.
    + intros Hqn. apply Hq. rewrite Hqn, <- Hn.
      apply list_elem_of_fmap. exists p. split; [done |].
      by eapply list_elem_of_lookup_2.
Qed.

Section Disprover.

Variable range : ∀ A : Type, list A → list A.
Hypothesis range_perm : ∀ A (l : list A), range A l ≡ₚ l.

(** What a player answers when asked for a card: a card it holds that the
    suggestion names, or the empty string when it holds none; asking
    changes neither its name nor its hand. *)
Lemma ChooseCardToShow_player suggestion p :
  ∃ card p' out,
    game.ChooseCardToShow range suggestion p = Some (card, p', out) ∧
    game.Name p' = game.Name p ∧ hand_of p' = hand_of p ∧
    (match p with
     | game.Human _ => p' = p
     | game.AI ai => ∃ r, p' = game.AI (set_rand r ai)
     end) ∧
    ((card ∈ hand_of p ∧ ∃ cat, suggestion !! cat = Some card) ∨
     (card = "" ∧ ∀ cat c, suggestion !! cat = Some c → c ∉ hand_of p)).
Proof.
  destruct p as [h|ai]; simpl.
  - eexists _, _, _. split; [reflexivity |]. do 3 (split; [done |]).
    unfold player.ChooseCardToShow.
    destruct (filter _ _) as [|card rest] eqn:Hf.
    + right. split; [done |]. intros cat c Hc Hh.
      assert (c ∈ filter (λ card, card ∈ player.hand h)
                         (suggested_cards range suggestion)) as Hin.
      { apply list_elem_of_filter. split; [done |].
        apply elem_of_suggested_cards; [done | eauto]. }
      rewrite Hf in Hin. by apply elem_of_nil in Hin.
    + left. assert (card ∈ card :: rest) as Hin by left.
      rewrite <- Hf in Hin. apply list_elem_of_filter in Hin as [Hh Hin].
      split; [done |]. by apply elem_of_suggested_cards in Hin.
  - destruct (ChooseCardToShow_run range range_perm suggestion ai)
      as (card & r & out & Hrun & Hcard).
    exists card, (game.AI (set_rand r ai)), (game.Logged <$> out).
    unfold game.brain. rewrite Hrun. split; [done |].
    do 2 (split; [done |]). split; [by exists r | done].
Qed.

Variable P : game.Player → Prop.
Hypothesis P_rand : ∀ r ai, P (game.AI ai) → P (game.AI (set_rand r ai)).

(** The loop of [handleSuggestion]: the players are asked in the order of
    the seats after the suggester, and the first to hold a suggested card
    shows one. *)
Lemma ask_spec k n suggestion names hands i count g :
  n = length (game.Players g) → k < n → 1 ≤ i → i + count = n →
  names = game.Name <$> game.Players g →
  hands = hand_of <$> game.Players g →
  Forall P (game.Players g) →
  (∀ h, h ∈ hands → "" ∉ h) →
  (∀ j h, 1 ≤ j < i → hands !! ((k + j) `mod` n) = Some h →
          ∀ cat c, suggestion !! cat = Some c → c ∉ h) →
  game_wp (game.ask range (Z.of_nat k) n suggestion i count)
    (λ res g',
       same_table g g' ∧ Forall P (game.Players g') ∧
       ((∃ j name h,
           1 ≤ j < n ∧ names !! ((k + j) `mod` n) = Some name ∧
           hands !! ((k + j) `mod` n) = Some h ∧
           res = (name, res.2) ∧ res.2 ∈ h ∧ res.2 ≠ "" ∧
           (∃ cat, suggestion !! cat = Some res.2) ∧
           ∀ j' h', 1 ≤ j' < j → hands !! ((k + j') `mod` n) = Some h' →
                    ∀ cat c, suggestion !! cat = Some c → c ∉ h') ∨
        (res = ("", "") ∧
         ∀ j h, 1 ≤ j < n → hands !! ((k + j) `mod` n) = Some h →
                ∀ cat c, suggestion !! cat = Some c → c ∉ h))) g.
Proof.
  revert i g. induction count as [|count IH];
    intros i g Hn Hk Hi Hcount Hnames Hhands HP Hne Hnone; simpl.
  - apply game_wp_ret. split; [apply same_table_refl |]. split; [done |].
    right. split; [done |]. intros j h Hj. apply Hnone. lia.
  - rewrite rem_index by lia.
    assert ((k + i) `mod` n < length (game.Players g)) as Hlt.
    { rewrite <- Hn. apply Nat.mod_upper_bound. lia. }
    destruct (lookup_lt_is_Some_2 _ _ Hlt) as [p Hp].
    destruct (ChooseCardToShow_player suggestion p)
      as (card & p' & out & Hrun & Hname & Hhand & Hp' & Hcard).
    eapply game_wp_on_player; [done.. |].
    set (g1 := game.set_Players _ g).
    assert (same_table g g1) as Hsame by (by apply (same_table_update g _ p)).
    assert (Forall P (game.Players g1)) as HP1.
    { simpl. apply Forall_insert; [done |].
      pose proof (Forall_lookup_1 _ _ _ _ HP Hp) as HPp.
      destruct p as [h|ai]; [by subst p' |].
      destruct Hp' as [r ->]. by apply P_rand. }
    assert (hands !! ((k + i) `mod` n) = Some (hand_of p)) as Hh.
    { by rewrite Hhands, list_lookup_fmap, Hp. }
    assert (names !! ((k + i) `mod` n) = Some (game.Name p)) as Hnm.
    { by rewrite Hnames, list_lookup_fmap, Hp. }
    destruct (decide (card ≠ "")) as [Hshown|Hempty].
    + eapply game_wp_player_at.
      { simpl. apply list_lookup_insert_eq. done. }
      apply game_wp_ret. split; [done |]. split; [done |]. left.
      exists i, (game.Name p), (hand_of p). simpl.
      destruct Hcard as [[Hin Hsug]|[-> _]]; [|done].
      split; [lia |]. do 2 (split; [done |]).
      split; [by rewrite Hname |]. by repeat split.
    + assert (card = "") as -> by (by destruct (decide (card = ""))).
      assert (∀ cat c, suggestion !! cat = Some c → c ∉ hand_of p) as Hp_none.
      { destruct Hcard as [[Hin _]|[_ ?]]; [|done].
        exfalso. apply (Hne (hand_of p)); [|done].
        rewrite Hhands. apply list_elem_of_fmap. exists p.
        split; [done |]. by eapply list_elem_of_lookup_2. }
      destruct Hsame as (Hc1 & Hs1 & Ht1 & Hr1 & Hn1 & Hh1).
      eapply game_wp_mono.
      * apply (IH (S i) g1); try done; try lia.
        -- simpl. by rewrite length_insert.
        -- by rewrite Hnames, Hn1.
        -- by rewrite Hhands, Hh1.
        -- intros j h Hj Hjh.
           destruct (decide (j = i)) as [->|Hji].
           ++ rewrite Hh in Hjh. by injection Hjh as <-.
           ++ apply (Hnone j h); [lia | done].
      * intros res g2 (Hsame2 & HP2 & Hres). split; [|by split].
        apply (same_table_trans g g1 g2); [|done].
        unfold same_table. by repeat split.
Qed.

End Disprover.

Lemma seat_offset k i n :
  k < n → i < n → i ≠ k → ∃ j, 1 ≤ j < n ∧ (k + j) `mod` n = i.
Proof.
  intros Hk Hi Hne. destruct (decide (k < i)) as [Hlt|Hge].
  - exists (i - k). split; [lia |].
    replace (k + (i - k)) with i by lia. by apply Nat.mod_small.
  - exists (i + n - k). split; [lia |].
    replace (k + (i + n - k)) with (i + 1 * n) by lia.
    rewrite Nat.Div0.mod_add. by apply Nat.mod_small.
Qed.

Lemma offset_not_suggester k j n : k < n → 1 ≤ j < n → (k + j) `mod` n ≠ k.
Proof.
  intros Hk Hj Heq. destruct (decide (k + j < n)) as [Hlt|Hge].
  - rewrite Nat.mod_small in Heq by done. lia.
  - replace (k + j) with ((k + j - n) + 1 * n) in Heq by lia.
    rewrite Nat.Div0.mod_add in Heq.
    rewrite Nat.mod_small in Heq by lia. lia.
Qed.

Section HandleSuggestion.

Variable range : ∀ A : Type, list A → list A.
Hypothesis range_perm : ∀ A (l : list A), range A l ≡ₚ l.

Variable P : game.Player → Prop.
Hypothesis P_rand : ∀ r ai, P (game.AI ai) → P (game.AI (set_rand r ai)).

Lemma handleSuggestion_spec suggestion k p g :
  NoDup (game.Name <$> game.Players g) →
  game.Players g !! k = Some p →
  (∀ q, q ∈ game.Players g → "" ∉ hand_of q) →
  Forall P (game.Players g) →
  game_wp (game.handleSuggestion range (game.Name p) suggestion)
    (λ res g',
       same_table g g' ∧ Forall P (game.Players g') ∧
       ((∃ j q,
           1 ≤ j < length (game.Players g) ∧
           game.Players g !! ((k + j) `mod` length (game.Players g)) = Some q ∧
           res = (game.Name q, res.2) ∧ res.2 ∈ hand_of q ∧ res.2 ≠ "" ∧
           (∃ cat, suggestion !! cat = Some res.2) ∧
           ∀ j' q', 1 ≤ j' < j →
             game.Players g !! ((k + j') `mod` length (game.Players g)) = Some q' →
             ∀ cat c, suggestion !! cat = Some c → c ∉ hand_of q') ∨
        (res = ("", "") ∧
         ∀ i q, game.Players g !! i = Some q → i ≠ k →
                ∀ cat c, suggestion !! cat = Some c → c ∉ hand_of q))) g.
Proof.
  intros Hnd Hp Hne HP. unfold game.handleSuggestion.
  apply game_wp_gets.
  rewrite (suggesterIdx_found _ _ 0 k p Hnd Hp eq_refl). simpl.
  assert (k < length (game.Players g)) as Hk by (by eapply lookup_lt_Some).
  eapply game_wp_mono.
  - apply (ask_spec range range_perm P P_rand k (length (game.Players g))
             suggestion (game.Name <$> game.Players g)
             (hand_of <$> game.Players g) 1); try done; try lia.
    intros h (q & -> & Hq)%list_elem_of_fmap. by apply Hne.
  - intros res g' (Hsame & HP' & Hres). split; [done |]. split; [done |].
    destruct Hres as [(j & name & h & Hj & Hname & Hh & Hres & Hin & Hne' & Hsug & Hfirst)
                     |[-> Hnone]].
    + left. rewrite list_lookup_fmap in Hname. rewrite list_lookup_fmap in Hh.
      destruct (game.Players g !! ((k + j) `mod` length (game.Players g)))
        as [q|] eqn:Hq; [|done].
      injection Hname as <-. injection Hh as <-.
      exists j, q. do 6 (split; [done |]).
      intros j' q' Hj' Hq'. apply (Hfirst j' (hand_of q')); [done |].
      by rewrite list_lookup_fmap, Hq'.
    + right. split; [done |]. intros i q Hq Hik.
      destruct (seat_offset k i (length (game.Players g))) as (j & Hj & Hji);
        [done | by eapply lookup_lt_Some | done |].
      apply (Hnone j (hand_of q)); [done |].
      by rewrite Hji, list_lookup_fmap, Hq.
Qed.

End HandleSuggestion.

Section FirstDisprover.

Variable range : ∀ A : Type, list A → list A.
Hypothesis range_perm : ∀ A (l : list A), range A l ≡ₚ l.

(** X18. [handleSuggestion] finds the first disprover.  In a game whose
    players have distinct names and hold no card that is the empty string,
    a suggestion of a player of the game is put to the other players in the
    order of the seats after the suggester.  The result names the first of
    them that holds a suggested card, with a suggested card that this player
    holds; it is the pair of empty strings exactly when no other player
    holds a suggested card.  The suggester is never asked, and asking
    changes neither the names nor the hands, the solution or the turn. *)
Theorem handleSuggestion_finds_the_first_disprover suggestion k p g :
  NoDup (game.Name <$> game.Players g) →
  game.Players g !! k = Some p →
  (∀ q, q ∈ game.Players g → "" ∉ hand_of q) →
  ∃ disprover card g' out,
    game.handleSuggestion range (game.Name p) suggestion g
    = game.Returned (disprover, card) g' out ∧
    same_table g g' ∧
    ((∃ j q,
        1 ≤ j < length (game.Players g) ∧
        game.Players g !! ((k + j) `mod` length (game.Players g)) = Some q ∧
        q ≠ p ∧ disprover = game.Name q ∧
        card ∈ hand_of q ∧ card ≠ "" ∧
        (∃ cat, suggestion !! cat = Some card) ∧
        ∀ j' q', 1 ≤ j' < j →
          game.Players g !! ((k + j') `mod` length (game.Players g)) = Some q' →
          ∀ cat c, suggestion !! cat = Some c → c ∉ hand_of q') ∨
     (disprover = "" ∧ card = "" ∧
      ∀ i q, game.Players g !! i = Some q → i ≠ k →
             ∀ cat c, suggestion !! cat = Some c → c ∉ hand_of q)).
Proof.
  intros Hnd Hp Hne.
  pose proof (handleSuggestion_spec range range_perm (λ _, True)
                (λ _ _ _, I) suggestion k p g Hnd Hp Hne) as Hwp.
  apply game_wp_Returned in Hwp
    as ([disprover card] & g' & out & Hrun & Hsame & _ & Hres).
  { exists disprover, card, g', out. do 2 (split; [done |]).
    destruct Hres as [(j & q & Hj & Hq & Hres & Hin & Hne' & Hsug & Hfirst)
                     |[[= -> ->] Hnone]].
    - left. exists j, q. simpl in *. injection Hres as ->.
      do 2 (split; [done |]). split; [|by repeat split].
      intros ->. assert (k < length (game.Players g)) as Hk
        by (by eapply lookup_lt_Some).
      apply (offset_not_suggester k j (length (game.Players g)) Hk Hj).
      apply (NoDup_lookup _ _ _ p (NoDup_fmap_1 _ _ Hnd)); done.
    - right. by repeat split. }
  by apply Forall_true.
Qed.

End FirstDisprover.

(** ** A turn at a well-dealt table *)

Lemma table_ok_same truth g g' :
  table_ok truth g →
  game.Config g' = game.Config g → game.Solution g' = game.Solution g →
  game.Name <$> game.Players g' = game.Name <$> game.Players g →
  Forall (well_seated truth g) (game.Players g') →
  table_ok truth g'.
Proof.
  intros (Hnd & Hne & Hsol & Hall & Hloc & Hs) Hc Hso Hn Hall'.
  unfold table_ok. rewrite Hn, Hso.
  do 3 (split; [done |]). split; [|split].
  - eapply Forall_impl; [done |]. intros q. by apply well_seated_frame.
  - intros card Hcard. apply Hloc. unfold is_card in *. by rewrite <- Hc.
  - intros cat card. rewrite Hc. apply Hs.
Qed.

Lemma same_table_length g g' :
  same_table g g' → length (game.Players g') = length (game.Players g).
Proof.
  intros (_ & _ & _ & _ & Hn & _).
  by rewrite <- (length_fmap game.Name), Hn, length_fmap.
Qed.

(** The event a player is handed at the end of a turn reports what happened
    at the table. *)
Lemma turn_event_honest truth g ai current suggestion disprover revealed shown :
  CardToType (config ai) = CardToType (game.Config g) →
  (disprover ≠ "" →
   revealed ≠ "" ∧ truth revealed = disprover ∧
   ∃ cat, suggestion !! cat = Some revealed) →
  (disprover = "" →
   ∀ cat card, suggestion !! cat = Some card → is_card g card →
               truth card = current ∨ truth card = "solution") →
  shown = revealed ∨ shown = "" →
  honest truth ai
    {| SuggesterName := current; Suggestion := suggestion;
       DisproverName := disprover; RevealedCard := shown |}.
Proof.
  intros Hctt Hshown Hpass Hs. unfold honest. simpl. split; [|split].
  - intros Hd Hr _. destruct Hs as [-> | ->]; [|done]. by apply Hshown.
  - intros Hd cat card Hcard Hcat. apply (Hpass Hd cat card Hcard).
    unfold is_card, in_catalog in *. by rewrite <- Hctt.
  - intros Hd _. destruct (Hshown Hd) as (_ & Ht & cat & Hcat). eauto.
Qed.

Section Turn.

Variable range : ∀ A : Type, list A → list A.
Hypothesis range_perm : ∀ A (l : list A), range A l ≡ₚ l.
Variable truth : string → string.

Lemma notify_loop current suggestion disprover revealed from count g :
  table_ok truth g →
  from + count ≤ length (game.Players g) →
  (disprover ≠ "" →
   revealed ≠ "" ∧ truth revealed = disprover ∧
   ∃ cat, suggestion !! cat = Some revealed) →
  (disprover = "" →
   ∀ cat card, suggestion !! cat = Some card → is_card g card →
               truth card = current ∨ truth card = "solution") →
  game_wp (game.for_range from count
             (game.notify range current suggestion disprover revealed))
    (λ _ g', table_ok truth g' ∧ same_table g g') g.
Proof.
  revert from g. induction count as [|count IH];
    intros from g Hok Hlen Hshown Hpass; simpl.
  - apply game_wp_ret. split; [done | apply same_table_refl].
  - destruct (lookup_lt_is_Some_2 (game.Players g) from) as [p Hp]; [lia |].
    apply game_wp_bind. unfold game.notify.
    eapply game_wp_player_at; [done |].
    pose proof (table_ok_seated _ _ _ _ Hok Hp) as Hseat.
    assert (∃ p' out,
      game.HandleEvent range
        (TurnResolved
           {| SuggesterName := current; Suggestion := suggestion;
              DisproverName := disprover;
              RevealedCard :=
                if decide (game.Name p = current) then revealed else "" |}) p
      = Some (tt, p', out) ∧
      game.Name p' = game.Name p ∧ hand_of p' = hand_of p ∧
      well_seated truth g p') as (p' & out & Hrun & Hname & Hhand & Hseat').
    { destruct p as [h|ai]; [by exists (game.Human h), [] |].
      pose proof Hseat as (_ & _ & Hgrid & Hcons & _ & Hctt).
      pose proof (wp_processTurnEvent_told range range_perm truth
        {| SuggesterName := current; Suggestion := suggestion;
           DisproverName := disprover;
           RevealedCard :=
             if decide (game.Name (game.AI ai) = current) then revealed else "" |}
        ai Hgrid Hcons (well_seated_holds_own_cards _ _ _ Hseat)) as Hwp.
      apply wp_Ok in Hwp as ([] & ai' & out & Hrun & [Hok' Hc'] & Hseat' & Hh').
      2:{ apply (turn_event_honest truth g ai current suggestion disprover
                   revealed); try done.
          case_decide; auto. }
      exists (game.AI ai'), (game.Logged <$> out). simpl.
      unfold game.brain. simpl in Hrun. rewrite Hrun.
      split; [done |]. split; [by destruct Hseat' |]. split; [done |].
      by apply (well_seated_told truth g ai). }
    eapply game_wp_on_player_last; [done.. |]. cbn beta.
    set (g1 := game.set_Players _ g).
    assert (table_ok truth g1) as Hok1 by (by eapply table_ok_update).
    assert (same_table g g1) as Hsame1
      by (by apply (same_table_update g _ p)).
    eapply game_wp_mono.
    + apply (IH (S from) g1); [done | | done |].
      * rewrite (same_table_length g g1) by done. lia.
      * intros Hd cat card Hcard Hcat. apply (Hpass Hd cat card Hcard).
        exact Hcat.
    + intros ? g2 [Hok2 Hsame2]. split; [done |].
      by apply (same_table_trans g g1 g2).
Qed.

(** A brain whose record agrees with the deal accuses with the cards of
    [g.Solution]. *)
Lemma accusation_checks g ai r out accusation :
  table_ok truth g → well_seated truth g (game.AI ai) →
  ShouldAccuse ai = Ok r ai out → r = Some accusation →
  game.checkAccusation range accusation g = game.Returned true g [].
Proof.
  intros (_ & _ & _ & _ & _ & Hsol) (_ & _ & _ & Hcons & Hcoh & Hctt) Hrun ->.
  destruct (ShouldAccuse_run ai) as (r' & out' & Hrun' & Hr).
  rewrite Hrun in Hrun'. injection Hrun' as <- _.
  unfold game.checkAccusation, game.bind, game.gets, game.ret. simpl.
  f_equal. apply forallb_forall. intros [cat card] Hin.
  apply bool_decide_eq_true. simpl.
  apply list_elem_of_In in Hin. rewrite range_perm in Hin.
  apply elem_of_map_to_list in Hin.
  destruct (Hr accusation eq_refl cat card Hin) as [Hlist Hyes].
  rewrite (Hsol cat card); [done | |].
  - rewrite <- Hctt. by apply Hcoh.
  - by apply (consistent_yes _ _ Hcons).
Qed.

End Turn.

(** ** The simulation *)

Lemma game_wp_on_player_same {A B} i p
    (method : game.Player → option (A * game.Player * list game.Output))
    a out (f : A → game.G B) Q g :
  game.Players g !! i = Some p →
  method p = Some (a, p, out) →
  game_wp (f a) Q g →
  game_wp (game.bind (game.on_player i method) f) Q g.
Proof.
  intros Hp Hm H. eapply game_wp_on_player; [done.. |].
  by rewrite list_insert_id, game_set_Players_same.
Qed.

Section Simulation.

Variable range : ∀ A : Type, list A → list A.
Hypothesis range_perm : ∀ A (l : list A), range A l ≡ₚ l.
Variable truth : string → string.

Lemma ShouldAccuse_player g i p :
  table_ok truth g → game.Players g !! i = Some p →
  ∃ r out,
    game.ShouldAccuse p = Some (r, p, out) ∧
    ∀ accusation, r = Some accusation →
      game.checkAccusation range accusation g = game.Returned true g [].
Proof.
  intros Hok Hp. destruct p as [h|ai]; [by exists None, [] |].
  destruct (ShouldAccuse_run ai) as (r & out & Hrun & _).
  exists r, (game.Logged <$> out). simpl. unfold game.brain. rewrite Hrun.
  split; [done |]. intros accusation Hr.
  eapply accusation_checks; [done.. | | done | done].
  by eapply table_ok_seated.
Qed.

Lemma MakeSuggestion_player g p :
  well_seated truth g p →
  ∃ suggestion p' out,
    game.MakeSuggestion range p = Some (suggestion, p', out) ∧
    game.Name p' = game.Name p ∧ well_seated truth g p'.
Proof.
  intros Hseat. destruct p as [h|ai]; [by exists ∅, (game.Human h), [] |].
  pose proof (wp_MakeSuggestion_notes range ai) as Hwp.
  apply wp_Ok in Hwp as (s & ai' & out & Hrun & Hnotes).
  exists s, (game.AI ai'), (game.Logged <$> out). simpl.
  unfold game.brain. rewrite Hrun. split; [done |].
  split; [by destruct Hnotes |]. by apply (well_seated_same_notes truth g ai).
Qed.

Lemma well_seated_no_empty_card g q :
  table_ok truth g → q ∈ game.Players g → "" ∉ hand_of q.
Proof.
  intros (_ & _ & _ & Hall & _) Hq Hin.
  pose proof (proj1 (Forall_forall _ _) Hall q Hq) as (H1 & _).
  by destruct (H1 "" Hin).
Qed.

(** What [handleSuggestion] returns reports what the players hold. *)
Lemma handleSuggestion_told suggestion k p g :
  table_ok truth g → game.Players g !! k = Some p →
  game_wp (game.handleSuggestion range (game.Name p) suggestion)
    (λ res g',
       table_ok truth g' ∧ same_table g g' ∧
       (res.1 ≠ "" →
        res.2 ≠ "" ∧ truth res.2 = res.1 ∧
        ∃ cat, suggestion !! cat = Some res.2) ∧
       (res.1 = "" →
        ∀ cat card, suggestion !! cat = Some card → is_card g card →
                    truth card = game.Name p ∨ truth card = "solution")) g.
Proof.
  intros Hok Hp. pose proof Hok as (Hnd & Hne & Hsol & Hall & Hloc & Hs).
  eapply game_wp_mono.
  - apply (handleSuggestion_spec range range_perm (well_seated truth g)
             (well_seated_set_rand truth g) suggestion k p g); try done.
    intros q Hq. by apply (well_seated_no_empty_card g).
  - intros [disprover revealed] g' (Hsame & Hall' & Hres). simpl.
    pose proof Hsame as (Hc & Hso & _ & _ & Hn & _).
    split; [by apply (table_ok_same truth g) |]. split; [done |].
    destruct Hres as [(j & q & Hj & Hq & Hres & Hin & Hne' & Hsug & _)
                     |[[= -> ->] Hnone]].
    + simpl in *. injection Hres as ->.
      pose proof (table_ok_seated _ _ _ _ Hok Hq) as (Hq1 & _).
      destruct (Hq1 revealed Hin) as [Ht _].
      assert (game.Name q ≠ "") as Hname.
      { intros Heq. apply Hne. rewrite <- Heq.
        apply list_elem_of_fmap. exists q. split; [done |].
        by eapply list_elem_of_lookup_2. }
      split; [done |]. by intros ?.
    + split; [done |]. intros _ cat card Hcard Hcat.
      specialize (Hloc card Hcat).
      apply elem_of_app in Hloc as [Hname|Hsolution].
      * apply list_elem_of_fmap in Hname as (q & Ht & Hq).
        apply list_elem_of_lookup in Hq as [i Hq].
        destruct (decide (i = k)) as [->|Hik].
        -- left. rewrite Hp in Hq. by injection Hq as <-.
        -- exfalso. apply (Hnone i q Hq Hik cat card Hcard).
           pose proof (table_ok_seated _ _ _ _ Hok Hq) as (_ & Hq2 & _).
           by apply Hq2.
      * right. by apply list_elem_of_singleton in Hsolution.
Qed.

Lemma turns_spec left g :
  table_ok truth g → game.Players g ≠ [] →
  game_wp (game.turns range left)
    (λ res g',
       table_ok truth g' ∧
       (res.1 ≠ "" → res.2 = true) ∧ (res.1 = "" → res.2 = false) ∧
       game.turn g' ≤ game.turn g + left) g.
Proof.
  revert g. induction left as [|left IH]; intros g Hok Hps; simpl.
  - apply game_wp_gets. apply game_wp_Publish. apply game_wp_ret.
    simpl. split; [done |]. split; [done |]. split; [done | lia].
  - do 2 apply game_wp_gets.
    destruct (decide (length (game.Players g) = 0)) as [Hnil|Hn].
    { by apply length_zero_iff_nil in Hnil. }
    set (n := length (game.Players g)) in *. set (k := game.turn g `mod` n).
    assert (k < n) as Hk by (apply Nat.mod_upper_bound; lia).
    destruct (lookup_lt_is_Some_2 (game.Players g) k Hk) as [p Hp].
    eapply game_wp_player_at; [done |]. cbv zeta.
    apply game_wp_Publish.
    destruct (ShouldAccuse_player g k p Hok Hp) as (r & out & Hacc & Hcheck).
    eapply game_wp_on_player_same; [done.. |].
    destruct r as [accusation|].
    { apply game_wp_bind. unfold game_wp at 1.
      rewrite (Hcheck accusation eq_refl).
      apply game_wp_gets. apply game_wp_Publish. apply game_wp_ret. simpl.
      split; [done |]. split; [done |]. split; [|lia].
      intros Hname. exfalso. destruct Hok as (_ & Hne & _). apply Hne.
      rewrite <- Hname. apply list_elem_of_fmap. exists p.
      split; [done |]. by eapply list_elem_of_lookup_2. }
    pose proof (table_ok_seated _ _ _ _ Hok Hp) as Hseat.
    destruct (MakeSuggestion_player g p Hseat)
      as (suggestion & p' & out' & Hsug & Hname' & Hseat').
    eapply game_wp_on_player; [done.. |].
    set (g1 := game.set_Players _ g).
    assert (table_ok truth g1) as Hok1 by (by eapply table_ok_update).
    assert (game.Players g1 !! k = Some p') as Hp'.
    { simpl. by apply list_lookup_insert_eq. }
    apply game_wp_Publish. apply game_wp_bind.
    rewrite <- Hname'.
    eapply game_wp_mono; [by apply (handleSuggestion_told suggestion k p' g1) |].
    intros [disprover revealed] g2 (Hok2 & Hsame2 & Hshown & Hpass).
    simpl in Hshown, Hpass. cbn beta iota.
    apply game_wp_bind.
    apply (game_wp_mono _ (λ _ g', g' = g2)).
    { case_decide; unfold game_wp; by rewrite Publish_run. }
    intros _ ? ->. cbn beta.
    assert (length (game.Players g2) = n) as Hlen2.
    { rewrite (same_table_length g1 g2) by done. simpl.
      by rewrite length_insert. }
    apply game_wp_bind.
    eapply game_wp_mono.
    { apply (notify_loop range range_perm truth (game.Name p') suggestion
               disprover revealed 0 n g2); [done | lia | done |].
      intros Hd cat card Hcard Hcat. apply (Hpass Hd cat card Hcard).
      destruct Hsame2 as (Hc2 & _). unfold is_card in *. by rewrite <- Hc2. }
    intros _ g3 [Hok3 Hsame3]. cbn beta.
    apply game_wp_modify.
    set (g4 := game.set_turn _ g3).
    assert (table_ok truth g4) as Hok4.
    { apply (table_ok_same truth g3); try done. by destruct Hok3 as (_ & _ & _ & ? & _). }
    assert (game.Players g4 ≠ []) as Hps4.
    { simpl. intros Hnil. apply length_zero_iff_nil in Hnil.
      rewrite (same_table_length g2 g3) in Hnil by done. lia. }
    eapply game_wp_mono; [by apply IH |].
    intros res g5 (Hok5 & Hwin & Hlim & Hturn).
    do 3 (split; [done |]).
    destruct Hsame2 as (_ & _ & Ht2 & _), Hsame3 as (_ & _ & Ht3 & _).
    simpl in Hturn, Ht2. lia.
Qed.

(** X19. No false accusation.  At a table that is well dealt (the players
    have distinct names, none of them empty or ["solution"], each holds
    exactly the cards that lie with it, the record of each brain agrees with
    the deal, and [g.Solution] holds the cards that lie in the solution),
    with one player or more, [RunSimulation] returns: it ends with an
    accusation that [checkAccusation] accepts, or at the turn limit with no
    winner.  It never ends with a false accusation. *)
Theorem RunSimulation_never_accuses_falsely g :
  table_ok truth g → game.Players g ≠ [] →
  ∃ winner isCorrect g' out,
    game.RunSimulation range g = game.Returned (winner, isCorrect) g' out ∧
    (winner ≠ "" → isCorrect = true) ∧
    (winner = "" → isCorrect = false) ∧
    table_ok truth g' ∧
    game.turn g' ≤ Nat.max 50 (game.turn g).
Proof.
  intros Hok Hps.
  assert (game_wp (game.RunSimulation range)
            (λ res g',
               table_ok truth g' ∧
               (res.1 ≠ "" → res.2 = true) ∧ (res.1 = "" → res.2 = false) ∧
               game.turn g' ≤ game.turn g + (50 - game.turn g)) g) as Hwp.
  { unfold game.RunSimulation. apply game_wp_gets. by apply turns_spec. }
  apply game_wp_Returned in Hwp
    as ([winner isCorrect] & g' & out & Hrun & Hok' & Hwin & Hlim & Hturn).
  exists winner, isCorrect, g', out. simpl in *.
  do 4 (split; [done |]). lia.
Qed.

End Simulation.

(** ** The sample table is well dealt *)

Lemma classic_cards card :
  is_Some (CardToType classic !! card) →
  card ∈ ["Colonel Mustard"; "Miss Scarlett"; "Mr. Green"; "Mrs. Peacock";
          "Mrs. White"; "Professor Plum";
          "Candlestick"; "Dagger"; "Lead Pipe"; "Revolver"; "Rope"; "Wrench";
          "Ballroom"; "Billiard Room"; "Conservatory"; "Dining Room"; "Hall";
          "Kitchen"; "Library"; "Lounge"; "Study"].
Proof.
  intros Hcard%Load_catalog_ok.
  by replace (AllCards _) with
    ["Colonel Mustard"; "Miss Scarlett"; "Mr. Green"; "Mrs. Peacock";
     "Mrs. White"; "Professor Plum";
     "Candlestick"; "Dagger"; "Lead Pipe"; "Revolver"; "Rope"; "Wrench";
     "Ballroom"; "Billiard Room"; "Conservatory"; "Dining Room"; "Hall";
     "Kitchen"; "Library"; "Lounge"; "Study"] in Hcard
    by (vm_compute; reflexivity).
Qed.

(** Case analysis on the cards of a list that is written out. *)
Ltac each_card H :=
  repeat (apply elem_of_cons in H as [->|H]);
  [..|exfalso; exact (proj1 (elem_of_nil _) H)].

Lemma classic_coherent : coherent classic.
Proof.
  intros cat card Hin.
  destruct cat;
    [ replace (CardListForCategory classic CategorySuspect) with
        ["Colonel Mustard"; "Miss Scarlett"; "Mr. Green"; "Mrs. Peacock";
         "Mrs. White"; "Professor Plum"] in Hin by (vm_compute; reflexivity)
    | replace (CardListForCategory classic CategoryWeapon) with
        ["Candlestick"; "Dagger"; "Lead Pipe"; "Revolver"; "Rope"; "Wrench"]
        in Hin by (vm_compute; reflexivity)
    | replace (CardListForCategory classic CategoryRoom) with
        ["Ballroom"; "Billiard Room"; "Conservatory"; "Dining Room"; "Hall";
         "Kitchen"; "Library"; "Lounge"; "Study"] in Hin
        by (vm_compute; reflexivity) ];
    each_card Hin; vm_compute; reflexivity.
Qed.

Lemma seated_facts myName cards :
  myName ∈ table →
  (∀ card, card ∈ cards → dealt card = myName) →
  grid_ok (seated myName cards) ∧ consistent dealt (seated myName cards) ∧
  name (seated myName cards) = myName ∧
  config (seated myName cards) = classic ∧
  hand (seated myName cards) = list_to_set cards.
Proof.
  intros Hme Hcards. unfold seated.
  set (ai := Setup classic table myName DeterministicChooser []).
  assert (grid_ok ai) as Hok by apply Setup_grid_ok, Load_catalog_ok.
  assert (consistent dealt ai) as Hc.
  { apply Setup_consistent.
    - intros cat _. apply dealt_solution.
    - intros card _. apply dealt_located. }
  pose proof (wp_conj _ _ _ _
                (wp_ReceiveHand_consistent dealt cards ai Hok Hc
                   (λ card Hin _, Hcards card Hin))
                (wp_ReceiveHand_hand cards ai Hok)) as Hwp.
  unfold wp in Hwp. unfold run_from.
  destruct (ReceiveHand cards ai) as [|[] ai' out]; [done |].
  destruct Hwp as ((Hok' & Hc') & _ & (Hn & Hcfg & _) & Hh).
  do 4 (split; [done |]). rewrite Hh. simpl. by rewrite union_empty_r_L.
Qed.

Lemma well_seated_brain g ai myName cards :
  grid_ok ai → consistent dealt ai → name ai = myName →
  config ai = classic → hand ai = list_to_set cards →
  game.Config g = classic →
  (∀ card, card ∈ cards → dealt card = myName ∧ card ≠ "") →
  (∀ card, is_Some (CardToType classic !! card) → dealt card = myName →
           card ∈ cards) →
  well_seated dealt g (game.AI ai).
Proof.
  intros Hok Hc Hn Hcfg Hh Hg Hcards Hall.
  unfold well_seated, is_card. simpl. rewrite Hn, Hh, Hcfg, Hg.
  split; [intros card Hin%elem_of_list_to_set; by apply Hcards |].
  split; [intros card Hcard Ht; apply elem_of_list_to_set; by apply Hall |].
  split; [done |]. split; [done |]. split; [apply classic_coherent | done].
Qed.

Lemma three_cards_held card :
  card ∈ three_cards → dealt card = "Player 1" ∧ card ≠ "".
Proof.
  intros Hin. unfold three_cards in Hin.
  each_card Hin; (split; [vm_compute; reflexivity | discriminate]).
Qed.

Lemma second_hand_held card :
  card ∈ second_hand → dealt card = "Player 2" ∧ card ≠ "".
Proof.
  intros Hin. unfold second_hand in Hin.
  each_card Hin; (split; [vm_compute; reflexivity | discriminate]).
Qed.

Lemma third_hand_held card :
  card ∈ third_hand → dealt card = "Player 3" ∧ card ≠ "".
Proof.
  intros Hin. unfold third_hand in Hin.
  each_card Hin; (split; [vm_compute; reflexivity | discriminate]).
Qed.

Ltac lies_with Hin :=
  apply classic_cards in Hin; each_card Hin;
  first [ intros Ht; vm_compute in Ht; discriminate Ht
        | intros _; apply (bool_decide_unpack _); vm_compute; exact I ].

Lemma three_cards_all card :
  is_Some (CardToType classic !! card) → dealt card = "Player 1" →
  card ∈ three_cards.
Proof. intros Hin. lies_with Hin. Qed.

Lemma second_hand_all card :
  is_Some (CardToType classic !! card) → dealt card = "Player 2" →
  card ∈ second_hand.
Proof. intros Hin. lies_with Hin. Qed.

Lemma third_hand_all card :
  is_Some (CardToType classic !! card) → dealt card = "Player 3" →
  card ∈ third_hand.
Proof. intros Hin. lies_with Hin. Qed.

Lemma sample_solution cat card :
  CardToType classic !! card = Some cat → dealt card = "solution" →
  suggestion_of "Mrs. White" "Lead Pipe" "Kitchen" !! cat = Some card.
Proof.
  intros Hcat Ht.
  assert (is_Some (CardToType classic !! card)) as Hin by (eexists; exact Hcat).
  apply classic_cards in Hin. each_card Hin;
    first [ vm_compute in Ht; discriminate Ht
          | vm_compute in Hcat; injection Hcat as <-;
            vm_compute; reflexivity ].
Qed.

Lemma sample_table_ok : table_ok dealt sample_table.
Proof.
  assert ("Player 1" ∈ table) as Hin1
    by (apply (bool_decide_unpack _); vm_compute; exact I).
  assert ("Player 2" ∈ table) as Hin2
    by (apply (bool_decide_unpack _); vm_compute; exact I).
  assert ("Player 3" ∈ table) as Hin3
    by (apply (bool_decide_unpack _); vm_compute; exact I).
  pose proof (seated_facts "Player 1" three_cards Hin1
                (λ card Hin, proj1 (three_cards_held card Hin)))
    as (Hok1 & Hc1 & Hn1 & Hf1 & Hh1).
  pose proof (seated_facts "Player 2" second_hand Hin2
                (λ card Hin, proj1 (second_hand_held card Hin)))
    as (Hok2 & Hc2 & Hn2 & Hf2 & Hh2).
  pose proof (seated_facts "Player 3" third_hand Hin3
                (λ card Hin, proj1 (third_hand_held card Hin)))
    as (Hok3 & Hc3 & Hn3 & Hf3 & Hh3).
  clear Hin1 Hin2 Hin3. unfold sample_table.
  generalize dependent (seated "Player 1" three_cards).
  generalize dependent (seated "Player 2" second_hand).
  generalize dependent (seated "Player 3" third_hand).
  intros a3 Hok3 Hc3 Hn3 Hf3 Hh3 a2 Hok2 Hc2 Hn2 Hf2 Hh2 a1 Hok1 Hc1 Hn1 Hf1 Hh1.
  unfold table_ok.
  cbn [game.Players game.Config game.Solution fmap list_fmap game.Name].
  rewrite Hn1, Hn2, Hn3.
  split; [apply (bool_decide_unpack _); vm_compute; exact I |].
  split; [apply (bool_decide_unpack _); vm_compute; exact I |].
  split; [apply (bool_decide_unpack _); vm_compute; exact I |].
  split; [|split].
  - repeat apply Forall_cons_2; [| | |apply Forall_nil_2].
    + apply (well_seated_brain _ _ "Player 1" three_cards); try done.
      * apply three_cards_held.
      * apply three_cards_all.
    + apply (well_seated_brain _ _ "Player 2" second_hand); try done.
      * apply second_hand_held.
      * apply second_hand_all.
    + apply (well_seated_brain _ _ "Player 3" third_hand); try done.
      * apply third_hand_held.
      * apply third_hand_all.
  - intros card _. apply dealt_located.
  - apply sample_solution.
Qed.

Lemma RunSimulation_never_accuses_falsely_witness :
  ∃ winner isCorrect g' out,
    game.RunSimulation range_listed sample_table
    = game.Returned (winner, isCorrect) g' out ∧
    (winner ≠ "" → isCorrect = true) ∧
    (winner = "" → isCorrect = false) ∧
    table_ok dealt g' ∧
    game.turn g' ≤ Nat.max 50 (game.turn sample_table).
Proof.
  apply (RunSimulation_never_accuses_falsely range_listed range_listed_perm
           dealt).
  - apply sample_table_ok.
  - discriminate.
Defined.

Lemma handleSuggestion_finds_the_first_disprover_witness :
  ∃ disprover card g' out,
    game.handleSuggestion range_listed
      (game.Name (game.AI (seated "Player 1" three_cards)))
      (suggestion_of "Mrs. White" "Dagger" "Study") sample_table
    = game.Returned (disprover, card) g' out ∧
    same_table sample_table g' ∧
    ((∃ j q,
        1 ≤ j < length (game.Players sample_table) ∧
        game.Players sample_table
          !! ((0 + j) `mod` length (game.Players sample_table)) = Some q ∧
        q ≠ game.AI (seated "Player 1" three_cards) ∧
        disprover = game.Name q ∧
        card ∈ hand_of q ∧ card ≠ "" ∧
        (∃ cat, suggestion_of "Mrs. White" "Dagger" "Study" !! cat = Some card) ∧
        ∀ j' q', 1 ≤ j' < j →
          game.Players sample_table
            !! ((0 + j') `mod` length (game.Players sample_table)) = Some q' →
          ∀ cat c, suggestion_of "Mrs. White" "Dagger" "Study" !! cat = Some c →
                   c ∉ hand_of q') ∨
     (disprover = "" ∧ card = "" ∧
      ∀ i q, game.Players sample_table !! i = Some q → i ≠ 0 →
             ∀ cat c, suggestion_of "Mrs. White" "Dagger" "Study" !! cat = Some c →
                      c ∉ hand_of q)).
Proof.
  apply (handleSuggestion_finds_the_first_disprover range_listed
           range_listed_perm).
  - destruct sample_table_ok as (Hnd & _). exact Hnd.
  - reflexivity.
  - intros q Hq.
    exact (well_seated_no_empty_card dealt sample_table q sample_table_ok Hq).
Defined.
